(** * SkGlyphRun.cpp: the sparse glyph-id set and the glyph-run builder

    A shallow embedding of [src/core/SkGlyphRun.cpp].  Unsigned machine
    integers ([uint16_t] glyph ids and dense indices, [uint32_t] universe
    sizes, [size_t] counters) are values of [N]; the one narrowing
    conversion of the file, [SkTo<uint16_t>], has its wrap-around written
    out.  Raw arrays are lists; every indexed read or write is bounds
    checked and an access outside the array is a fault ([None]), so a
    result [Some _] says that the run of the C++ code stayed in bounds.

    The file's functions are embedded from their bodies.  The headers that
    declare the classes ([SkGlyphRun.h], [SkPoint.h], [SkPaint.h]) are not
    part of the sources at hand: records carry the members the bodies use,
    and what only a header fixes (initial member values, point
    arithmetic) is marked where it is introduced.  Typeface, strike cache
    and UTF counting are external and enter as parameters. *)

From Stdlib Require Import NArith ZArith QArith Lia.
From Stdlib.Strings Require Import Byte.
From stdpp Require Import base numbers option strings list.

Local Open Scope N_scope.

(** ** Build configuration *)

(** [SK_DEBUG] selects the debug build: it enables [SkASSERT], the range
    check inside [SkTo], and the [#ifdef SK_DEBUG] blocks. *)
Class BuildConfig := { SK_DEBUG : bool }.

(** ** Raw arrays *)

Abbreviation SkGlyphID := N (only parsing).

Definition is_u16 (n : N) : Prop := n < 65536.

Definition load {A} (buf : list A) (i : N) : option A := buf !! N.to_nat i.

Definition store {A} (buf : list A) (i : N) (v : A) : option (list A) :=
  if decide (N.to_nat i < length buf)%nat
  then Some (<[N.to_nat i := v]> buf)
  else None.

(** [sk_bzero] over a freshly [reset] array of [n] 16-bit cells. *)
Definition zeroed (n : N) : list N := replicate (N.to_nat n) 0.

(** [SkTo<uint16_t>(x)]: a [static_cast], guarded in debug builds by an
    assertion that the value fits. *)
Definition SkTo_uint16 `{BuildConfig} (x : N) : option N :=
  if SK_DEBUG && (65536 <=? x) then None else Some (x mod 65536).

(** ** SkGlyphIDSet *)

Record SkGlyphIDSet := mkGlyphIDSet {
  fUniverseToUniqueSize : N;
  fUniverseToUnique : list N
}.

(** Modelled from the spec: the member initialisers are in [SkGlyphRun.h].
    The map's size is "the largest universe size requested so far", so a
    freshly constructed set has size 0 and no storage. *)
Definition newGlyphIDSet : SkGlyphIDSet :=
  {| fUniverseToUniqueSize := 0; fUniverseToUnique := [] |}.

Definition kUndefGlyph : N := 0.

(** The variables live across the [for] loop of [uniquifyGlyphIDs]: the
    three arrays it writes and its two cursors. *)
Record UniquifyLoop := mkLoop {
  loopUniverseToUnique : list N;
  loopUniqueGlyphIDs : list N;
  loopDenseIndices : list N;
  uniqueSize : N;
  denseIndicesCursor : N
}.

(** The id a glyph is looked up under: out-of-range ids become the
    undefined glyph. *)
Definition remapGlyphID (universeSize glyphID : N) : N :=
  if universeSize <=? glyphID then kUndefGlyph else glyphID.

(** One iteration of the loop body (lines 103-121).  The [||] of the
    source is short-circuit: [uniqueGlyphIDs[uniqueIndex]] is read only when
    [uniqueIndex < uniqueSize]. *)
Definition uniquify_iter `{BuildConfig} (universeSize : N)
    (st : UniquifyLoop) (glyphID : N) : option UniquifyLoop :=
  let glyphID := remapGlyphID universeSize glyphID in
  uniqueIndex ← load (loopUniverseToUnique st) glyphID;
  isNew ← (if uniqueSize st <=? uniqueIndex then Some true
           else held ← load (loopUniqueGlyphIDs st) uniqueIndex;
                Some (negb (held =? glyphID)));
  if (isNew : bool) then
    uniqueIndex ← SkTo_uint16 (uniqueSize st);
    uniqueGlyphIDs ← store (loopUniqueGlyphIDs st) (uniqueSize st) glyphID;
    universeToUnique ← store (loopUniverseToUnique st) glyphID uniqueIndex;
    denseIndices ← store (loopDenseIndices st) (denseIndicesCursor st) uniqueIndex;
    Some {| loopUniverseToUnique := universeToUnique;
            loopUniqueGlyphIDs := uniqueGlyphIDs;
            loopDenseIndices := denseIndices;
            uniqueSize := uniqueSize st + 1;
            denseIndicesCursor := denseIndicesCursor st + 1 |}
  else
    denseIndices ← store (loopDenseIndices st) (denseIndicesCursor st) uniqueIndex;
    Some {| loopUniverseToUnique := loopUniverseToUnique st;
            loopUniqueGlyphIDs := loopUniqueGlyphIDs st;
            loopDenseIndices := denseIndices;
            uniqueSize := uniqueSize st;
            denseIndicesCursor := denseIndicesCursor st + 1 |}.

Fixpoint uniquify_loop `{BuildConfig} (universeSize : N)
    (glyphIDs : list N) (st : UniquifyLoop) : option UniquifyLoop :=
  match glyphIDs with
  | [] => Some st
  | glyphID :: rest =>
      st' ← uniquify_iter universeSize st glyphID;
      uniquify_loop universeSize rest st'
  end.

(** Lines 88-96: grow and zero the map when the universe is larger. *)
Definition growUniverse (universeSize : N) (s : SkGlyphIDSet) : SkGlyphIDSet :=
  if fUniverseToUniqueSize s <? universeSize
  then {| fUniverseToUniqueSize := universeSize;
          fUniverseToUnique := zeroed universeSize |}
  else s.

(** Lines 123-129: give the storage back once it is above 4096 entries. *)
Definition shrinkUniverse (s : SkGlyphIDSet) : SkGlyphIDSet :=
  if 4096 <? fUniverseToUniqueSize s
  then {| fUniverseToUniqueSize := 4096; fUniverseToUnique := zeroed 4096 |}
  else s.

(** What a call leaves behind: the set, the two caller buffers as written,
    and the returned span [SkSpan(uniqueGlyphIDs, uniqueSize)]. *)
Record Uniquified := mkUniquified {
  setAfter : SkGlyphIDSet;
  uniqueGlyphIDsBuffer : list N;
  denseIndicesBuffer : list N;
  uniqueSpan : list N
}.

Definition uniquifyGlyphIDs `{BuildConfig} (s : SkGlyphIDSet) (universeSize : N)
    (glyphIDs : list N) (uniqueGlyphIDs denseIndices : list N)
    : option Uniquified :=
  let s := growUniverse universeSize s in
  st ← uniquify_loop universeSize glyphIDs
         {| loopUniverseToUnique := fUniverseToUnique s;
            loopUniqueGlyphIDs := uniqueGlyphIDs;
            loopDenseIndices := denseIndices;
            uniqueSize := 0;
            denseIndicesCursor := 0 |};
  Some {| setAfter :=
            shrinkUniverse {| fUniverseToUniqueSize := fUniverseToUniqueSize s;
                              fUniverseToUnique := loopUniverseToUnique st |};
          uniqueGlyphIDsBuffer := loopUniqueGlyphIDs st;
          denseIndicesBuffer := loopDenseIndices st;
          uniqueSpan := take (N.to_nat (uniqueSize st)) (loopUniqueGlyphIDs st) |}.

(** The representation invariant of the set: the recorded size is the
    size of the storage. *)
Definition set_ok (s : SkGlyphIDSet) : Prop :=
  length (fUniverseToUnique s) = N.to_nat (fUniverseToUniqueSize s).

(** ** Reference notions used to state what deduplication computes *)

(** The distinct elements of a sequence, in order of first occurrence. *)
Fixpoint first_occurrences (l : list N) : list N :=
  match l with
  | [] => []
  | x :: l' => x :: filter (λ y, y ≠ x) (first_occurrences l')
  end.

(** Position of the first [x] in [l] ([length l] when absent). *)
Fixpoint index_of (x : N) (l : list N) : nat :=
  match l with
  | [] => O
  | y :: l' => if decide (y = x) then O else S (index_of x l')
  end.

(** ** Scalars and points *)

(** [SkScalar] is a 32-bit float.  Its arithmetic is kept abstract: the
    development assumes no law of it (in particular no associativity), so
    every statement below holds for IEEE arithmetic as it is. *)
Class ScalarOps := {
  SkScalar : Type;
  sk_add : SkScalar → SkScalar → SkScalar;
  sk_sub : SkScalar → SkScalar → SkScalar;
  sk_mul : SkScalar → SkScalar → SkScalar;
  SK_Scalar0 : SkScalar;
  SK_ScalarHalf : SkScalar
}.

Record SkPoint `{ScalarOps} := Make { fX : SkScalar; fY : SkScalar }.
Arguments Make {_} fX fY.
Abbreviation SkVector := SkPoint (only parsing).

(** Modelled from the spec: [SkPoint.h] is not at hand.  Positions and
    advances are 2D vectors; [operator+=], [operator-] / [operator-=] and
    [scale] act on each coordinate. *)
Definition pt_add `{ScalarOps} (p v : SkPoint) : SkPoint :=
  Make (sk_add (fX p) (fX v)) (sk_add (fY p) (fY v)).
Definition pt_sub `{ScalarOps} (p v : SkPoint) : SkPoint :=
  Make (sk_sub (fX p) (fX v)) (sk_sub (fY p) (fY v)).
Definition pt_scale `{ScalarOps} (p : SkPoint) (value : SkScalar) : SkPoint :=
  Make (sk_mul (fX p) value) (sk_mul (fY p) value).

(** ** Paint, typeface, strike *)

Inductive TextEncoding :=
  | kUTF8_TextEncoding | kUTF16_TextEncoding | kUTF32_TextEncoding
  | kGlyphID_TextEncoding.

Inductive Align := kLeft_Align | kCenter_Align | kRight_Align.

Inductive Encoding := kUTF8_Encoding | kUTF16_Encoding | kUTF32_Encoding.

#[global] Instance TextEncoding_eq_dec : EqDecision TextEncoding.
Proof. solve_decision. Defined.
#[global] Instance Align_eq_dec : EqDecision Align.
Proof. solve_decision. Defined.

(** The parts of a paint this file reads or sets; [paintFont] stands for
    everything else (typeface, size, ...), which only the collaborators
    look at. *)
Record SkPaint := mkPaint {
  getTextEncoding : TextEncoding;
  getTextAlign : Align;
  paintFont : N
}.

Definition setTextEncoding (e : TextEncoding) (p : SkPaint) : SkPaint :=
  {| getTextEncoding := e; getTextAlign := getTextAlign p; paintFont := paintFont p |}.
Definition setTextAlign (a : Align) (p : SkPaint) : SkPaint :=
  {| getTextEncoding := getTextEncoding p; getTextAlign := a; paintFont := paintFont p |}.

Definition convert_encoding (encoding : TextEncoding) : Encoding :=
  match encoding with
  | kUTF8_TextEncoding => kUTF8_Encoding
  | kUTF16_TextEncoding => kUTF16_Encoding
  | kUTF32_TextEncoding => kUTF32_Encoding
  | _ => kUTF32_Encoding
  end.

(** A typeface: [countGlyphs] returns an [int]; [charsToGlyphs] gives the
    glyph of the [k]-th character of the text. *)
Record SkTypeface := mkTypeface {
  countGlyphs : Z;
  charsToGlyphs : list byte → Encoding → nat → N
}.

(** A strike: the advance of each glyph id.  [getAdvances] fills one
    advance per id of the span it is given, in order. *)
Record SkGlyphCache `{ScalarOps} := mkGlyphCache { glyphAdvance : N → SkVector }.
Arguments mkGlyphCache {_} glyphAdvance.

Definition getAdvances `{ScalarOps} (cache : SkGlyphCache) (glyphIDs : list N)
    : list SkVector :=
  glyphAdvance cache <$> glyphIDs.

(** The code outside this file that the builder calls, and the contents of
    freshly allocated (uninitialised) cells. *)
Class Collaborators `{ScalarOps} := {
  SkUTFN_CountUnichars : Encoding → list byte → Z;
  GetTypefaceOrDefault : SkPaint → SkTypeface;
  FindOrCreateStrikeExclusive : SkPaint → SkGlyphCache;
  uninit16 : nat → N;
  uninitPoint : nat → SkPoint
}.

(** [SkAutoTMalloc::reset(n)]: [n] cells of unspecified content. *)
Definition malloc16 `{Collaborators} (n : N) : list N :=
  uninit16 <$> seq 0 (N.to_nat n).
Definition mallocPoints `{Collaborators} (n : N) : list SkPoint :=
  uninitPoint <$> seq 0 (N.to_nat n).

(* [std::vector::resize(n)] is stdpp's [resize n fill v]: the first [n]
   elements of [v], extended with value-initialised elements [fill] when
   [v] is shorter. *)

(** [SkSpan{ptr, n}] over an array; a span that reaches past the end of its
    array is a fault. *)
Definition span {A} (buf : list A) (n : N) : option (list A) :=
  if decide (N.to_nat n ≤ length buf)%nat then Some (take (N.to_nat n) buf) else None.

(** Writing a sequence through a cursor that starts at the array's first
    cell. *)
Definition store_span {A} (buf : list A) (src : list A) : option (list A) :=
  if decide (length src ≤ length buf)%nat
  then Some (src ++ drop (length src) buf)
  else None.

Definition SkASSERT `{BuildConfig} (cond : bool) : option unit :=
  if SK_DEBUG && negb cond then None else Some tt.

Definition empty {A} (s : list A) : bool :=
  match s with [] => true | _ => false end.

(** ** SkGlyphRun *)

(** The spans of a run are recorded by content, as they are when the run
    is constructed; they borrow the builder's buffers and are meaningful
    until the next call into the builder. *)
Record SkGlyphRun `{ScalarOps} := mkGlyphRun {
  uniqueGlyphIDIndices : list N;
  positions : list SkPoint;
  temporaryShuntGlyphIDs : list N;
  uniqueGlyphIDs : list N;
  text : list byte;
  clusters : list N;
  runPaint : SkPaint
}.
Arguments mkGlyphRun {_}.

(** ** SkGlyphRunBuilder *)

(** [fScratchGlyphRun] is [None] between the explicit destructor call of
    [initialize] and the next placement-new of [makeGlyphRun]. *)
Record SkGlyphRunBuilder `{ScalarOps} := mkBuilder {
  fUniqueID : N;
  fMaxTotalRunSize : N;
  fUniqueGlyphIDIndices : list N;
  fPositions : list SkPoint;
  fUniqueGlyphIDs : list N;
  fScratchGlyphIDs : list N;
  fScratchAdvances : list SkPoint;
  fScratchGlyphRun : option SkGlyphRun;
  fGlyphIDSet : SkGlyphIDSet
}.
Arguments mkBuilder {_}.

Definition defaultPaint : SkPaint :=
  {| getTextEncoding := kUTF8_TextEncoding; getTextAlign := kLeft_Align; paintFont := 0 |}.

(** Modelled from the spec: the builder's member initialisers are in
    [SkGlyphRun.h].  Buffers are "sized to the high-water mark of run sizes
    seen", so a new builder has no storage; its slot holds a
    default-constructed (empty) run. *)
Definition newBuilder `{ScalarOps} : SkGlyphRunBuilder :=
  {| fUniqueID := 0; fMaxTotalRunSize := 0;
     fUniqueGlyphIDIndices := []; fPositions := []; fUniqueGlyphIDs := [];
     fScratchGlyphIDs := []; fScratchAdvances := [];
     fScratchGlyphRun := Some (mkGlyphRun [] [] [] [] [] [] defaultPaint);
     fGlyphIDSet := newGlyphIDSet |}.

Definition useGlyphRun `{ScalarOps} (b : SkGlyphRunBuilder) : option SkGlyphRun :=
  fScratchGlyphRun b.

Definition builder_ok `{ScalarOps} (b : SkGlyphRunBuilder) : Prop :=
  length (fUniqueGlyphIDIndices b) = N.to_nat (fMaxTotalRunSize b) ∧
  length (fPositions b) = N.to_nat (fMaxTotalRunSize b) ∧
  length (fUniqueGlyphIDs b) = N.to_nat (fMaxTotalRunSize b) ∧
  set_ok (fGlyphIDSet b).

(** [initialize]: reset the id, grow the three buffers to a new high-water
    mark, and destroy the run in the slot. *)
Definition initialize `{Collaborators} (totalRunSize : N)
    (b : SkGlyphRunBuilder) : SkGlyphRunBuilder :=
  let grow := fMaxTotalRunSize b <? totalRunSize in
  {| fUniqueID := 0;
     fMaxTotalRunSize := if grow then totalRunSize else fMaxTotalRunSize b;
     fUniqueGlyphIDIndices :=
       if grow then malloc16 totalRunSize else fUniqueGlyphIDIndices b;
     fPositions := if grow then mallocPoints totalRunSize else fPositions b;
     fUniqueGlyphIDs := if grow then malloc16 totalRunSize else fUniqueGlyphIDs b;
     fScratchGlyphIDs := fScratchGlyphIDs b;
     fScratchAdvances := fScratchAdvances b;
     fScratchGlyphRun := None;
     fGlyphIDSet := fGlyphIDSet b |}.

(** [(const SkGlyphID* )bytes] read as [byteLength / 2] glyph ids (the
    hosts Skia builds for are little-endian). *)
Fixpoint glyphIDsOfBytes (bytes : list byte) : list N :=
  match bytes with
  | lo :: hi :: rest => (Byte.to_N lo + 256 * Byte.to_N hi) :: glyphIDsOfBytes rest
  | _ => []
  end.

(** [textToGlyphIDs]: the typeface writes [runSize] 16-bit glyph ids into
    [fScratchGlyphIDs]; each cell holds the typeface's answer as a
    [uint16_t]. *)
Definition textToGlyphIDs `{Collaborators} (b : SkGlyphRunBuilder)
    (paint : SkPaint) (bytes : list byte) : SkGlyphRunBuilder * list N :=
  let encoding := getTextEncoding paint in
  if decide (encoding ≠ kGlyphID_TextEncoding) then
    let tfEncoding := convert_encoding encoding in
    let utfSize := SkUTFN_CountUnichars tfEncoding bytes in
    if (0 <? utfSize)%Z then
      let runSize := Z.to_nat utfSize in
      let typeface := GetTypefaceOrDefault paint in
      let glyphs :=
        (λ k, charsToGlyphs typeface bytes tfEncoding k mod 65536) <$> seq 0 runSize in
      ({| fUniqueID := fUniqueID b;
          fMaxTotalRunSize := fMaxTotalRunSize b;
          fUniqueGlyphIDIndices := fUniqueGlyphIDIndices b;
          fPositions := fPositions b;
          fUniqueGlyphIDs := fUniqueGlyphIDs b;
          fScratchGlyphIDs := glyphs;
          fScratchAdvances := fScratchAdvances b;
          fScratchGlyphRun := fScratchGlyphRun b;
          fGlyphIDSet := fGlyphIDSet b |}, glyphs)
    else (b, [])
  else (b, glyphIDsOfBytes bytes).

(** [addDenseAndUnique]: deduplicate into the builder's own buffers, unless
    the typeface has no glyphs.  [countGlyphs] is a positive [int] where it
    is passed on, so its conversion to [uint32_t] keeps the value. *)
Definition addDenseAndUnique `{BuildConfig} `{Collaborators}
    (b : SkGlyphRunBuilder) (paint : SkPaint) (glyphIDs : list N)
    : option (SkGlyphRunBuilder * list N) :=
  if empty glyphIDs then Some (b, [])
  else
    let typeface := GetTypefaceOrDefault paint in
    let glyphUniverseSize := countGlyphs typeface in
    if (0 <? glyphUniverseSize)%Z then
      r ← uniquifyGlyphIDs (fGlyphIDSet b) (Z.to_N glyphUniverseSize) glyphIDs
            (fUniqueGlyphIDs b) (fUniqueGlyphIDIndices b);
      Some ({| fUniqueID := fUniqueID b;
               fMaxTotalRunSize := fMaxTotalRunSize b;
               fUniqueGlyphIDIndices := denseIndicesBuffer r;
               fPositions := fPositions b;
               fUniqueGlyphIDs := uniqueGlyphIDsBuffer r;
               fScratchGlyphIDs := fScratchGlyphIDs b;
               fScratchAdvances := fScratchAdvances b;
               fScratchGlyphRun := fScratchGlyphRun b;
               fGlyphIDSet := setAfter r |}, uniqueSpan r)
    else Some (b, []).

(** [makeGlyphRun]: construct the run in the slot, unless it is empty. *)
Definition makeGlyphRun `{ScalarOps} (b : SkGlyphRunBuilder) (runPaint : SkPaint)
    (glyphIDs : list N) (positions : list SkPoint)
    (uniqueGlyphIDIndices uniqueGlyphIDs : list N)
    (text : list byte) (clusters : list N) : SkGlyphRunBuilder :=
  if empty glyphIDs then b
  else
    let glyphRunPaint :=
      setTextAlign kLeft_Align (setTextEncoding kGlyphID_TextEncoding runPaint) in
    {| fUniqueID := fUniqueID b;
       fMaxTotalRunSize := fMaxTotalRunSize b;
       fUniqueGlyphIDIndices := fUniqueGlyphIDIndices b;
       fPositions := fPositions b;
       fUniqueGlyphIDs := fUniqueGlyphIDs b;
       fScratchGlyphIDs := fScratchGlyphIDs b;
       fScratchAdvances := fScratchAdvances b;
       fScratchGlyphRun :=
         Some (mkGlyphRun uniqueGlyphIDIndices positions glyphIDs uniqueGlyphIDs
                          text clusters glyphRunPaint);
       fGlyphIDSet := fGlyphIDSet b |}.

(** The layout loop of [drawText] (lines 264-267), [n] iterations from
    index [i]: returns the positions array and [endOfLastGlyph]. *)
Fixpoint advance_loop `{ScalarOps} (n : nat) (i : N)
    (indices : list N) (advances : list SkVector)
    (positions : list SkPoint) (endOfLastGlyph : SkPoint)
    : option (list SkPoint * SkPoint) :=
  match n with
  | O => Some (positions, endOfLastGlyph)
  | S n' =>
      positions ← store positions i endOfLastGlyph;
      k ← load indices i;
      advance ← load advances k;
      advance_loop n' (i + 1) indices advances positions (pt_add endOfLastGlyph advance)
  end.

(** Lines 269-277: the translation applied for center and right
    alignment. *)
Definition alignmentShift `{ScalarOps} (align : Align)
    (origin endOfLastGlyph : SkPoint) : SkVector :=
  let len := pt_sub endOfLastGlyph origin in
  if decide (align = kCenter_Align) then pt_scale len SK_ScalarHalf else len.

Definition withPositions `{ScalarOps} (b : SkGlyphRunBuilder)
    (ps : list SkPoint) : SkGlyphRunBuilder :=
  {| fUniqueID := fUniqueID b;
     fMaxTotalRunSize := fMaxTotalRunSize b;
     fUniqueGlyphIDIndices := fUniqueGlyphIDIndices b;
     fPositions := ps;
     fUniqueGlyphIDs := fUniqueGlyphIDs b;
     fScratchGlyphIDs := fScratchGlyphIDs b;
     fScratchAdvances := fScratchAdvances b;
     fScratchGlyphRun := fScratchGlyphRun b;
     fGlyphIDSet := fGlyphIDSet b |}.

Definition withAdvances `{ScalarOps} (b : SkGlyphRunBuilder)
    (advances : list SkVector) : SkGlyphRunBuilder :=
  {| fUniqueID := fUniqueID b;
     fMaxTotalRunSize := fMaxTotalRunSize b;
     fUniqueGlyphIDIndices := fUniqueGlyphIDIndices b;
     fPositions := fPositions b;
     fUniqueGlyphIDs := fUniqueGlyphIDs b;
     fScratchGlyphIDs := fScratchGlyphIDs b;
     fScratchAdvances := advances;
     fScratchGlyphRun := fScratchGlyphRun b;
     fGlyphIDSet := fGlyphIDSet b |}.

Definition drawText `{BuildConfig} `{Collaborators} (b : SkGlyphRunBuilder)
    (paint : SkPaint) (glyphIDs : list N) (origin : SkPoint)
    (text : list byte) (clusters : list N) : option SkGlyphRunBuilder :=
  _ ← SkASSERT (negb (empty glyphIDs));
  let runSize := N.of_nat (length glyphIDs) in
  '(b, unqiueGlyphIDs) ← addDenseAndUnique b paint glyphIDs;
  if empty unqiueGlyphIDs then Some b
  else
    let cache := FindOrCreateStrikeExclusive paint in
    advances ← store_span
                 (resize (N.to_nat runSize) (Make SK_Scalar0 SK_Scalar0) (fScratchAdvances b))
                 (getAdvances cache unqiueGlyphIDs);
    let b := withAdvances b advances in
    '(ps, endOfLastGlyph) ← advance_loop (N.to_nat runSize) 0
                              (fUniqueGlyphIDIndices b) (fScratchAdvances b)
                              (fPositions b) origin;
    ps ← (if decide (getTextAlign paint ≠ kLeft_Align) then
            let len := alignmentShift (getTextAlign paint) origin endOfLastGlyph in
            run ← span ps runSize;
            Some (((λ pt, pt_sub pt len) <$> run) ++ drop (N.to_nat runSize) ps)
          else Some ps);
    let b := withPositions b ps in
    runPositions ← span (fPositions b) runSize;
    runIndices ← span (fUniqueGlyphIDIndices b) runSize;
    Some (makeGlyphRun b paint glyphIDs runPositions runIndices unqiueGlyphIDs
                       text clusters).

Definition drawPosTextH `{BuildConfig} `{Collaborators} (b : SkGlyphRunBuilder)
    (paint : SkPaint) (glyphIDs : list N) (xpos : list SkScalar) (constY : SkScalar)
    (text : list byte) (clusters : list N) : option SkGlyphRunBuilder :=
  _ ← SkASSERT (negb (empty glyphIDs));
  let runSize := N.of_nat (length glyphIDs) in
  b ← (if SK_DEBUG then fst <$> addDenseAndUnique b paint glyphIDs else Some b);
  xs ← span xpos runSize;
  ps ← store_span (fPositions b) ((λ x, Make x constY) <$> xs);
  let b := withPositions b ps in
  runPositions ← span (fPositions b) runSize;
  Some (makeGlyphRun b paint glyphIDs runPositions [] [] text clusters).

Definition drawPosText `{BuildConfig} `{Collaborators} (b : SkGlyphRunBuilder)
    (paint : SkPaint) (glyphIDs : list N) (pos : list SkPoint)
    (text : list byte) (clusters : list N) : option SkGlyphRunBuilder :=
  _ ← SkASSERT (negb (empty glyphIDs));
  let runSize := N.of_nat (length glyphIDs) in
  b ← (if SK_DEBUG then fst <$> addDenseAndUnique b paint glyphIDs else Some b);
  runPositions ← span pos runSize;
  Some (makeGlyphRun b paint glyphIDs runPositions [] [] text clusters).

Definition prepareDrawText `{BuildConfig} `{Collaborators} (b : SkGlyphRunBuilder)
    (paint : SkPaint) (bytes : list byte) (origin : SkPoint)
    : option SkGlyphRunBuilder :=
  let '(b, glyphIDs) := textToGlyphIDs b paint bytes in
  if empty glyphIDs then Some b
  else drawText (initialize (N.of_nat (length glyphIDs)) b) paint glyphIDs origin [] [].

Definition prepareDrawPosTextH `{BuildConfig} `{Collaborators} (b : SkGlyphRunBuilder)
    (paint : SkPaint) (bytes : list byte) (xpos : list SkScalar) (constY : SkScalar)
    : option SkGlyphRunBuilder :=
  let '(b, glyphIDs) := textToGlyphIDs b paint bytes in
  if empty glyphIDs then Some b
  else drawPosTextH (initialize (N.of_nat (length glyphIDs)) b) paint glyphIDs
                    xpos constY [] [].

Definition prepareDrawPosText `{BuildConfig} `{Collaborators} (b : SkGlyphRunBuilder)
    (paint : SkPaint) (bytes : list byte) (pos : list SkPoint)
    : option SkGlyphRunBuilder :=
  let '(b, glyphIDs) := textToGlyphIDs b paint bytes in
  if empty glyphIDs then Some b
  else drawPosText (initialize (N.of_nat (length glyphIDs)) b) paint glyphIDs pos [] [].

(** The loop invariant of [uniquifyGlyphIDs], after the (remapped) ids
    [pre] have been consumed, for caller buffers [ub] and [db] and a map of
    [mlen] cells: the unique-id buffer starts with the first occurrences of
    [pre], each of them is mapped to its position, and the dense buffer
    starts with the position of every id of [pre]. *)
Definition loop_inv (mlen : nat) (ub db : list N) (pre : list N)
    (st : UniquifyLoop) : Prop :=
  let F := first_occurrences pre in
  uniqueSize st = N.of_nat (length F) ∧
  denseIndicesCursor st = N.of_nat (length pre) ∧
  loopUniqueGlyphIDs st = F ++ drop (length F) ub ∧
  loopDenseIndices st =
    ((λ g, N.of_nat (index_of g F)) <$> pre) ++ drop (length pre) db ∧
  length (loopUniverseToUnique st) = mlen ∧
  (∀ k g, F !! k = Some g →
          loopUniverseToUnique st !! N.to_nat g = Some (N.of_nat k)).

(** What a call computes from its inputs alone: the unique ids are the
    first occurrences of the remapped ids, and the dense index of an
    occurrence is the position of its remapped id among them. *)
Definition dedupIDs (universeSize : N) (glyphIDs : list N) : list N :=
  first_occurrences (remapGlyphID universeSize <$> glyphIDs).

Definition dedupIndices (universeSize : N) (glyphIDs : list N) : list N :=
  (λ g, N.of_nat (index_of (remapGlyphID universeSize g)
                           (dedupIDs universeSize glyphIDs))) <$> glyphIDs.

(** The pen positions of a run laid out from [cursor]: each glyph sits
    where the previous one ended. *)
Fixpoint penPositions `{ScalarOps} (cursor : SkPoint) (advances : list SkVector)
    : list SkPoint :=
  match advances with
  | [] => []
  | advance :: rest => cursor :: penPositions (pt_add cursor advance) rest
  end.

(** The advance each occurrence contributes: that of its remapped id. *)
Definition occurrenceAdvances `{ScalarOps} (cache : SkGlyphCache)
    (universeSize : N) (glyphIDs : list N) : list SkVector :=
  (λ g, glyphAdvance cache (remapGlyphID universeSize g)) <$> glyphIDs.

(** ** A concrete configuration

    A debug build, rational scalars, text of one character per byte, a
    typeface whose glyph for a character is its byte value (paints with
    [paintFont] 0 use a typeface of 10 glyphs, all others one without
    glyphs), and a strike in which glyph [g] advances by [(g + 1, 0)]. *)
Definition exampleBuild : BuildConfig := {| SK_DEBUG := true |}.

Definition exampleScalar : ScalarOps :=
  {| SkScalar := Q; sk_add := Qplus; sk_sub := Qminus; sk_mul := Qmult;
     SK_Scalar0 := 0%Q; SK_ScalarHalf := (1 # 2)%Q |}.

Definition exampleTypeface (glyphs : Z) : SkTypeface :=
  {| countGlyphs := glyphs;
     charsToGlyphs := λ bytes _ k, from_option Byte.to_N 0 (bytes !! k) |}.

Definition exampleCollaborators : @Collaborators exampleScalar :=
  {| SkUTFN_CountUnichars := λ _ bytes, Z.of_nat (length bytes);
     GetTypefaceOrDefault :=
       λ paint, exampleTypeface (if paintFont paint =? 0 then 10 else 0);
     FindOrCreateStrikeExclusive :=
       λ _, mkGlyphCache (H := exampleScalar)
              (λ g, Make (H := exampleScalar) (inject_Z (Z.of_N g + 1)) 0%Q);
     uninit16 := λ _, 52685;
     uninitPoint := λ _, Make (H := exampleScalar) (7 # 1)%Q (7 # 1)%Q |}.

Definition exampleOrigin : @SkPoint exampleScalar :=
  Make (H := exampleScalar) 0%Q 0%Q.

(** A paint over the 10-glyph typeface and one over the empty typeface. *)
Definition examplePaint (align : Align) : SkPaint :=
  {| getTextEncoding := kUTF8_TextEncoding; getTextAlign := align; paintFont := 0 |}.
Definition noGlyphsPaint : SkPaint :=
  {| getTextEncoding := kUTF8_TextEncoding; getTextAlign := kLeft_Align; paintFont := 1 |}.

(** The text whose characters map to glyphs [3; 7; 3]. *)
Definition exampleText : list byte := [x03; x07; x03]%byte.

(** ** The shunts of a run to a device or a callback *)

(** The memory of a [uint16_t] array seen through a [char] pointer (low
    byte first, as [glyphIDsOfBytes] reads it), and that of an [SkPoint]
    array seen through an [SkScalar] pointer. *)
Definition byteOfN (n : N) : byte := default x00%byte (Byte.of_N (n mod 256)).

Definition glyphIDBytes (glyphIDs : list N) : list byte :=
  mjoin ((λ g, [byteOfN g; byteOfN (g / 256)]) <$> glyphIDs).

Definition scalarsOfPoints `{ScalarOps} (points : list SkPoint) : list SkScalar :=
  mjoin ((λ pt, [fX pt; fY pt]) <$> points).

(** The arguments of one [SkBaseDevice::drawPosText] call. *)
Record DrawPosTextCall `{ScalarOps} := mkDrawPosTextCall {
  callText : list byte;
  callByteLength : N;
  callPos : list SkScalar;
  callScalarsPerPos : N;
  callOffset : SkPoint;
  callPaint : SkPaint
}.
Arguments mkDrawPosTextCall {_}.

(** [temporaryShuntToDrawPosText]: the calls made on the device. *)
Definition temporaryShuntToDrawPosText `{ScalarOps} (run : SkGlyphRun)
    : list DrawPosTextCall :=
  let pos := scalarsOfPoints (positions run) in
  let origin := Make SK_Scalar0 SK_Scalar0 in
  if negb (empty (temporaryShuntGlyphIDs run)) then
    [ mkDrawPosTextCall (glyphIDBytes (temporaryShuntGlyphIDs run))
        (N.of_nat (length (temporaryShuntGlyphIDs run)) * 2)
        pos 2 origin (runPaint run) ]
  else [].

(** [temporaryShuntToCallback]: the arguments the callback is called
    with. *)
Definition temporaryShuntToCallback `{ScalarOps} (run : SkGlyphRun)
    : N * list byte * list SkScalar :=
  let bytes := glyphIDBytes (temporaryShuntGlyphIDs run) in
  let pos := scalarsOfPoints (positions run) in
  (N.of_nat (length (temporaryShuntGlyphIDs run)), bytes, pos).

(** What holds of every run the builder leaves in its slot: one position
    per glyph, 16-bit glyph ids, duplicate-free unique ids that are no more
    than the glyphs, and dense indices that are absent or one per glyph,
    each of them a position in the unique ids. *)
Definition run_ok `{ScalarOps} (run : SkGlyphRun) : Prop :=
  length (positions run) = length (temporaryShuntGlyphIDs run) ∧
  Forall is_u16 (temporaryShuntGlyphIDs run) ∧
  NoDup (uniqueGlyphIDs run) ∧
  (length (uniqueGlyphIDs run) ≤ length (temporaryShuntGlyphIDs run))%nat ∧
  (uniqueGlyphIDIndices run = [] ∨
   length (uniqueGlyphIDIndices run) = length (temporaryShuntGlyphIDs run)) ∧
  Forall (λ d, (N.to_nat d < length (uniqueGlyphIDs run))%nat)
         (uniqueGlyphIDIndices run).

(** What the [draw*] functions leave alone: the capacity, the staging
    buffer and the id; and the set stays within its 4096-entry ceiling. *)
Definition draw_frame `{ScalarOps} (b b' : SkGlyphRunBuilder) : Prop :=
  fMaxTotalRunSize b' = fMaxTotalRunSize b ∧
  fScratchGlyphIDs b' = fScratchGlyphIDs b ∧
  fUniqueID b' = fUniqueID b ∧
  (fUniverseToUniqueSize (fGlyphIDSet b) ≤ 4096 →
   fUniverseToUniqueSize (fGlyphIDSet b') ≤ 4096).

(** The run [prepareDrawText] builds from [exampleText] on the 10-glyph
    typeface. *)
Definition exampleRun : @SkGlyphRun exampleScalar :=
  mkGlyphRun (H := exampleScalar) [0; 1; 0]
    [Make (H := exampleScalar) 0%Q 0%Q;
     Make (H := exampleScalar) 4%Q 0%Q;
     Make (H := exampleScalar) 12%Q 0%Q]
    [3; 7; 3] [3; 7] [] []
    (setTextAlign kLeft_Align
       (setTextEncoding kGlyphID_TextEncoding (examplePaint kLeft_Align))).

(** ** SkSLFunctionDeclaration.h

    The member functions of [SkSL::FunctionDeclaration].  [Type],
    [Variable], [Expression] and [Symbol] are declared in headers that are
    not at hand: a type enters through the operations the functions call on
    it, a variable is its name and type, an argument expression is its
    type, and the declaration's name is the [fName] it inherits from
    [Symbol].  [fModifiers] is read by none of the functions and is left
    out. *)
Class SkSLTypeOps := {
  SkSLType : Type;
  (** [Type::operator!=] *)
  type_ne : SkSLType → SkSLType → bool;
  (** [kind() == Type::kGeneric_Kind] *)
  isGeneric : SkSLType → bool;
  coercibleTypes : SkSLType → list SkSLType;
  canCoerceTo : SkSLType → SkSLType → bool;
  displayName : SkSLType → string
}.

Record SkSLVariable `{SkSLTypeOps} := mkVariable {
  varName : string;
  fType : SkSLType
}.
Arguments mkVariable {_}.

Record FunctionDeclaration `{SkSLTypeOps} := mkFunctionDeclaration {
  fName : string;
  fDefined : bool;
  fBuiltin : bool;
  fParameters : list SkSLVariable;
  fReturnType : SkSLType
}.
Arguments mkFunctionDeclaration {_}.

(** [declaration()]: the loop carries [result] and [separator]. *)
Definition declaration `{SkSLTypeOps} (this : FunctionDeclaration) : string :=
  let result :=
    ((displayName (fReturnType this) +:+ " ") +:+ fName this) +:+ "(" in
  let loop :=
    foldl (λ '(result, separator) p,
             ((result +:+ separator) +:+ varName p, ", "%string))
          (result, ""%string) (fParameters this) in
  loop.1 +:+ ")".

(** The [for] loop of [matches], [n] iterations from index [i]. *)
Fixpoint matches_loop `{SkSLTypeOps} (n i : nat)
    (ps qs : list SkSLVariable) : option bool :=
  match n with
  | O => Some true
  | S n' =>
      p ← ps !! i;
      q ← qs !! i;
      if type_ne (fType p) (fType q) then Some false
      else matches_loop n' (S i) ps qs
  end.

Definition matches `{SkSLTypeOps} (this f : FunctionDeclaration) : option bool :=
  if bool_decide (fName this ≠ fName f) then Some false
  else if bool_decide (length (fParameters this) ≠ length (fParameters f))
  then Some false
  else matches_loop (length (fParameters this)) 0 (fParameters this) (fParameters f).

(** The inner loop of [determineFinalTypes]: the first [j], counted from
    [j0], whose type the argument can be coerced to. *)
Fixpoint firstCoercible `{SkSLTypeOps} (argType : SkSLType)
    (types : list SkSLType) (j0 : nat) : option nat :=
  match types with
  | [] => None
  | t :: rest =>
      if canCoerceTo argType t then Some j0
      else firstCoercible argType rest (S j0)
  end.

(** How the outer loop ends: by [return false], or by running to its end
    with a [genericIndex] ([None] for -1); either way with what has been
    pushed onto [outParameterTypes]. *)
Inductive FinalTypesLoop `{SkSLTypeOps} :=
  | ReturnedFalse (outParameterTypes : list SkSLType)
  | Completed (genericIndex : option nat) (outParameterTypes : list SkSLType).

Fixpoint determine_loop `{SkSLTypeOps} (params : list SkSLVariable)
    (arguments : list SkSLType) (n i : nat) (genericIndex : option nat)
    (out : list SkSLType) : option FinalTypesLoop :=
  match n with
  | O => Some (Completed genericIndex out)
  | S n' =>
      p ← params !! i;
      if isGeneric (fType p) then
        let types := coercibleTypes (fType p) in
        found ← (match genericIndex with
                 | None => a ← arguments !! i; Some (firstCoercible a types 0)
                 | Some j => Some (Some j)
                 end);
        match found with
        | None => Some (ReturnedFalse out)
        | Some j =>
            t ← types !! j;
            determine_loop params arguments n' (S i) (Some j) (out ++ [t])
        end
      else determine_loop params arguments n' (S i) genericIndex (out ++ [fType p])
  end.

(** [determineFinalTypes]: the returned [bool] with the final contents of
    [*outParameterTypes] and [*outReturnType]. *)
Definition determineFinalTypes `{BuildConfig} `{SkSLTypeOps}
    (this : FunctionDeclaration) (arguments : list SkSLType)
    (outParameterTypes : list SkSLType) (outReturnType : SkSLType)
    : option (bool * list SkSLType * SkSLType) :=
  _ ← SkASSERT (bool_decide (length arguments = length (fParameters this)));
  l ← determine_loop (fParameters this) arguments (length arguments) 0 None
        outParameterTypes;
  match l with
  | ReturnedFalse out => Some (false, out, outReturnType)
  | Completed genericIndex out =>
      if isGeneric (fReturnType this) then
        match genericIndex with
        | None => Some (false, out, outReturnType)
        | Some j =>
            t ← coercibleTypes (fReturnType this) !! j;
            Some (true, out, t)
        end
      else Some (true, out, fReturnType this)
  end.

(** A small type universe for examples: [float] (0) and [int] (1) are
    concrete, [$genType] (2) is generic over [float; int]; a type coerces
    only to itself. *)
Definition exampleTypes : SkSLTypeOps :=
  {| SkSLType := N;
     type_ne := λ a b, negb (a =? b);
     isGeneric := λ t, t =? 2;
     coercibleTypes := λ t, if t =? 2 then [0; 1] else [];
     canCoerceTo := λ a b, a =? b;
     displayName := λ t, if t =? 0 then "float"%string
                         else if t =? 1 then "int"%string
                         else "$genType"%string |}.

(** [$genType mix($genType x, $genType y, float a)] *)
Definition exampleMix : @FunctionDeclaration exampleTypes :=
  mkFunctionDeclaration (H := exampleTypes) "mix" false true
    [mkVariable (H := exampleTypes) "x" 2;
     mkVariable (H := exampleTypes) "y" 2;
     mkVariable (H := exampleTypes) "a" 0] 2.

(** [float dot(float x, float y)] *)
Definition exampleDot : @FunctionDeclaration exampleTypes :=
  mkFunctionDeclaration (H := exampleTypes) "dot" false true
    [mkVariable (H := exampleTypes) "x" 0;
     mkVariable (H := exampleTypes) "y" 0] 0.

(** * Properties *)

(** ** First occurrences and positions *)

Lemma elem_of_first_occurrences (l : list N) (x : N) :
  x ∈ first_occurrences l ↔ x ∈ l.
Proof.
  induction l as [|y l IH]; simpl; [done|].
  rewrite !elem_of_cons, list_elem_of_filter, IH.
  destruct (decide (x = y)); tauto.
Qed.

Lemma NoDup_first_occurrences (l : list N) : NoDup (first_occurrences l).
Proof.
  induction l as [|y l IH]; simpl; [constructor|].
  constructor.
  - rewrite list_elem_of_filter. tauto.
  - by apply NoDup_filter.
Qed.

Lemma first_occurrences_snoc (l : list N) (x : N) :
  first_occurrences (l ++ [x]) =
  if decide (x ∈ l) then first_occurrences l else first_occurrences l ++ [x].
Proof.
  induction l as [|y l IH].
  - simpl. destruct (decide (x ∈ [])) as [Hin|]; [|done].
    by apply not_elem_of_nil in Hin.
  - change (first_occurrences ((y :: l) ++ [x]))
      with (y :: filter (λ z, z ≠ y) (first_occurrences (l ++ [x]))).
    rewrite IH.
    destruct (decide (x ∈ l)) as [Hin|Hnin];
      destruct (decide (x ∈ y :: l)) as [Hin'|Hnin']; simpl.
    + done.
    + exfalso. apply Hnin'. by right.
    + apply elem_of_cons in Hin' as [->|]; [|done].
      rewrite filter_app, filter_cons_False by (intros Hy; by apply Hy).
      simpl. by rewrite app_nil_r.
    + rewrite filter_app, filter_cons_True; [done|].
      intros ->. apply Hnin'. by left.
Qed.

Lemma length_first_occurrences (l : list N) :
  (length (first_occurrences l) ≤ length l)%nat.
Proof.
  induction l as [|y l IH]; simpl; [lia|].
  pose proof (length_filter (λ z, z ≠ y) (first_occurrences l)). lia.
Qed.

Lemma filter_ne_absent (l : list N) (x : N) :
  x ∉ l → filter (λ y, y ≠ x) l = l.
Proof.
  induction l as [|y l IH]; [done|].
  rewrite not_elem_of_cons. intros [Hne Hnin].
  rewrite filter_cons_True by done. by rewrite IH.
Qed.

Lemma first_occurrences_NoDup_id (l : list N) :
  NoDup l → first_occurrences l = l.
Proof.
  induction 1 as [|x l Hx Hl IH]; simpl; [done|].
  by rewrite IH, filter_ne_absent.
Qed.

Lemma lookup_index_of (l : list N) (x : N) :
  x ∈ l → l !! index_of x l = Some x.
Proof.
  induction l as [|y l IH]; intros Hin.
  - by apply not_elem_of_nil in Hin.
  - simpl. destruct (decide (y = x)) as [->|Hne]; [done|].
    apply elem_of_cons in Hin as [->|Hin]; [done|]. by apply IH.
Qed.

Lemma index_of_lt (l : list N) (x : N) :
  x ∈ l → (index_of x l < length l)%nat.
Proof.
  intros Hin. apply lookup_lt_is_Some. rewrite lookup_index_of; eauto.
Qed.

Lemma index_of_app_l (l k : list N) (x : N) :
  x ∈ l → index_of x (l ++ k) = index_of x l.
Proof.
  induction l as [|y l IH]; intros Hin.
  - by apply not_elem_of_nil in Hin.
  - simpl. destruct (decide (y = x)) as [->|Hne]; [done|].
    apply elem_of_cons in Hin as [->|Hin]; [done|]. by rewrite IH.
Qed.

Lemma index_of_app_fresh (l : list N) (x : N) :
  x ∉ l → index_of x (l ++ [x]) = length l.
Proof.
  induction l as [|y l IH]; simpl.
  - intros _. by rewrite decide_True.
  - rewrite not_elem_of_cons. intros [Hne Hnin].
    rewrite decide_False by done. by rewrite IH.
Qed.

Lemma index_of_NoDup_lookup (l : list N) (k : nat) (x : N) :
  NoDup l → l !! k = Some x → index_of x l = k.
Proof.
  intros Hnd Hk.
  apply (NoDup_lookup l _ _ x Hnd); [|done].
  apply lookup_index_of. by eapply list_elem_of_lookup_2.
Qed.

Lemma first_occurrences_app_prefix (l k : list N) :
  ∃ t, first_occurrences (l ++ k) = first_occurrences l ++ t.
Proof.
  induction k as [|x k [t IH]] using rev_ind.
  - exists []. by rewrite !app_nil_r.
  - rewrite app_assoc, first_occurrences_snoc, IH.
    destruct (decide (x ∈ l ++ k)).
    + by exists t.
    + exists (t ++ [x]). by rewrite app_assoc.
Qed.

(** An id met for the first time gets, as its position among the first
    occurrences, the number of distinct ids met before it. *)
Lemma index_of_first_occurrence (pre rest : list N) (x : N) :
  x ∉ pre →
  index_of x (first_occurrences (pre ++ x :: rest))
  = length (first_occurrences pre).
Proof.
  intros Hnin.
  destruct (first_occurrences_app_prefix (pre ++ [x]) rest) as [t Ht].
  rewrite <- app_assoc in Ht. cbn [app] in Ht. rewrite Ht.
  rewrite first_occurrences_snoc, decide_False by done.
  rewrite index_of_app_l by (apply elem_of_app; right; by left).
  apply index_of_app_fresh. by rewrite elem_of_first_occurrences.
Qed.

(** There are only 65536 glyph ids, so a duplicate-free sequence of them
    is no longer than that. *)
Lemma u16_NoDup_length (l : list N) :
  NoDup l → Forall is_u16 l → (length l ≤ N.to_nat 65536)%nat.
Proof.
  intros Hnd Hall.
  rewrite <- (List.length_seq (N.to_nat 65536) 0%nat).
  rewrite <- (length_fmap N.of_nat).
  apply submseteq_length, NoDup_submseteq; [done|].
  intros x Hx. rewrite Forall_forall in Hall. specialize (Hall x Hx).
  apply list_elem_of_fmap. exists (N.to_nat x). split; [lia|].
  apply elem_of_seq. unfold is_u16 in Hall. lia.
Qed.

Lemma remapGlyphID_u16 (universeSize g : N) :
  is_u16 g → is_u16 (remapGlyphID universeSize g).
Proof.
  unfold remapGlyphID, kUndefGlyph, is_u16.
  destruct (universeSize <=? g); lia.
Qed.

Lemma remapGlyphID_lt (universeSize g : N) :
  0 < universeSize → remapGlyphID universeSize g < universeSize.
Proof.
  unfold remapGlyphID, kUndefGlyph.
  destruct (N.leb_spec universeSize g); lia.
Qed.

Lemma remapGlyphID_spec (universeSize g : N) :
  remapGlyphID universeSize g = if decide (g < universeSize) then g else 0.
Proof.
  unfold remapGlyphID, kUndefGlyph.
  destruct (N.leb_spec universeSize g); destruct (decide (g < universeSize)); lia.
Qed.

(** ** Raw-array helpers *)

Lemma store_Some {A} (buf : list A) (i : N) (v : A) :
  (N.to_nat i < length buf)%nat →
  store buf i v = Some (<[N.to_nat i := v]> buf).
Proof. intros Hi. unfold store. by rewrite decide_True. Qed.

(** Writing the cell just after an already-written prefix extends the
    prefix. *)
Lemma insert_prefix_end {A} (pre buf : list A) (n : nat) (v : A) :
  length pre = n → (n < length buf)%nat →
  <[n := v]> (pre ++ drop n buf) = (pre ++ [v]) ++ drop (S n) buf.
Proof.
  intros <- Hlt.
  destruct (lookup_lt_is_Some_2 buf (length pre) Hlt) as [x Hx].
  rewrite insert_app_r_alt by lia.
  rewrite Nat.sub_diag, (drop_S _ _ _ Hx). simpl.
  by rewrite <- app_assoc.
Qed.

Lemma length_prefix_drop {A} (pre buf : list A) (n : nat) :
  length pre = n → (n ≤ length buf)%nat →
  length (pre ++ drop n buf) = length buf.
Proof. intros <- Hle. rewrite length_app, length_drop. lia. Qed.

(** ** The deduplication loop *)

Section Uniquify.
Context `{BuildConfig}.

Lemma SkTo_uint16_fits (x : N) : x < 65536 → SkTo_uint16 x = Some x.
Proof.
  intros Hx. unfold SkTo_uint16.
  destruct (N.leb_spec 65536 x); [lia|].
  rewrite andb_false_r. by rewrite N.mod_small.
Qed.

(** The double check of line 113 decides exactly whether the id has been
    seen in this call, whatever the map held before. *)
Lemma double_check_spec (mlen : nat) (ub db pre : list N) (st : UniquifyLoop)
    (g ui : N) :
  loop_inv mlen ub db pre st →
  loopUniverseToUnique st !! N.to_nat g = Some ui →
  (if uniqueSize st <=? ui then Some true
   else held ← load (loopUniqueGlyphIDs st) ui; Some (negb (held =? g)))
  = Some (bool_decide (g ∉ pre)) ∧
  (g ∈ pre → ui = N.of_nat (index_of g (first_occurrences pre))).
Proof.
  intros (Hus & Hc & Hu & Hd & Hm & Hmap) Hui.
  set (F := first_occurrences pre) in *.
  destruct (decide (g ∈ pre)) as [Hin|Hnin].
  - assert (HinF : g ∈ F) by by apply elem_of_first_occurrences.
    pose proof (lookup_index_of F g HinF) as Hk.
    pose proof (index_of_lt F g HinF) as Hlt.
    pose proof (Hmap _ _ Hk) as Hm'. rewrite Hui in Hm'. injection Hm' as ->.
    split; [|done].
    rewrite Hus. destruct (N.leb_spec (N.of_nat (length F)) (N.of_nat (index_of g F))); [lia|].
    unfold load. rewrite Hu, Nat2N.id, lookup_app_l, Hk by done.
    cbn [mbind option_bind]. rewrite N.eqb_refl. cbn [negb].
    by rewrite bool_decide_eq_false_2 by tauto.
  - split; [|done].
    rewrite (bool_decide_eq_true_2 _ Hnin).
    rewrite Hus. destruct (N.leb_spec (N.of_nat (length F)) ui) as [|Hlt]; [done|].
    unfold load. rewrite Hu, lookup_app_l by lia.
    destruct (lookup_lt_is_Some_2 F (N.to_nat ui)) as [held Hheld]; [lia|].
    rewrite Hheld. cbn [mbind option_bind].
    destruct (N.eqb_spec held g) as [->|Hne]; [|done].
    exfalso. apply Hnin, elem_of_first_occurrences.
    by eapply list_elem_of_lookup_2.
Qed.

Lemma uniquify_iter_inv (universeSize : N) (mlen : nat) (ub db pre : list N)
    (st : UniquifyLoop) (g : N) :
  loop_inv mlen ub db pre st →
  Forall is_u16 pre → is_u16 g →
  (N.to_nat (remapGlyphID universeSize g) < mlen)%nat →
  (length pre < length ub)%nat → (length pre < length db)%nat →
  ∃ st', uniquify_iter universeSize st g = Some st' ∧
         loop_inv mlen ub db (pre ++ [remapGlyphID universeSize g]) st'.
Proof.
  intros Hinv Hpre Hg Hmlen Hub Hdb.
  pose proof (remapGlyphID_u16 universeSize g Hg) as Hg'.
  remember (remapGlyphID universeSize g) as g' eqn:Eg'.
  pose proof Hinv as (Hus & Hc & Hu & Hd & Hm & Hmap).
  set (F := first_occurrences pre) in *.
  pose proof (length_first_occurrences pre) as HF. fold F in HF.
  destruct (lookup_lt_is_Some_2 (loopUniverseToUnique st) (N.to_nat g'))
    as [ui Hui]; [lia|].
  destruct (double_check_spec _ _ _ _ _ _ _ Hinv Hui) as [Hcheck Hold].
  unfold uniquify_iter. rewrite <- Eg'. cbn zeta.
  change (load (loopUniverseToUnique st) g' = Some ui) in Hui.
  rewrite Hui. cbn [mbind option_bind].
  rewrite Hcheck. cbn [mbind option_bind].
  set (D := (λ g0, N.of_nat (index_of g0 F)) <$> pre) in *.
  assert (HD : length D = length pre) by (unfold D; by rewrite length_fmap).
  assert (HlenU : length (loopUniqueGlyphIDs st) = length ub)
    by (rewrite Hu; apply length_prefix_drop; [done|lia]).
  assert (HlenD : length (loopDenseIndices st) = length db)
    by (rewrite Hd; apply length_prefix_drop; [done|lia]).
  destruct (decide (g' ∈ pre)) as [Hin|Hnin].
  - rewrite bool_decide_eq_false_2 by tauto.
    rewrite store_Some by (rewrite Hc, HlenD; lia).
    cbn [mbind option_bind]. eexists; split; [done|].
    unfold loop_inv; cbn -[first_occurrences].
    rewrite first_occurrences_snoc, decide_True by done. fold F.
    rewrite length_app. cbn [length].
    repeat split; try done; try lia.
    rewrite Hc, Hd, Nat2N.id, (insert_prefix_end _ _ _ _ HD) by lia.
    rewrite fmap_app, Nat.add_1_r. simpl (_ <$> [_]).
    by rewrite (Hold Hin).
  - rewrite bool_decide_eq_true_2 by done.
    assert (HnF : g' ∉ F) by (unfold F; by rewrite elem_of_first_occurrences).
    assert (Hfit : N.of_nat (length F) < 65536).
    { assert (Hnd : NoDup (F ++ [g'])).
      { apply NoDup_app. split; [apply NoDup_first_occurrences|].
        split; [|apply NoDup_singleton].
        intros x Hx ->%list_elem_of_singleton. done. }
      apply u16_NoDup_length in Hnd.
      - rewrite length_app in Hnd. cbn [length] in Hnd. lia.
      - apply Forall_app. split; [|by apply Forall_singleton].
        rewrite Forall_forall in Hpre |- *. intros x Hx.
        apply Hpre. by apply elem_of_first_occurrences. }
    rewrite Hus, (SkTo_uint16_fits _ Hfit). cbn [mbind option_bind].
    rewrite (store_Some (loopUniqueGlyphIDs st)) by (rewrite HlenU; lia).
    cbn [mbind option_bind].
    rewrite (store_Some (loopUniverseToUnique st)) by lia.
    cbn [mbind option_bind].
    rewrite (store_Some (loopDenseIndices st)) by (rewrite Hc, HlenD; lia).
    cbn [mbind option_bind]. eexists; split; [done|].
    unfold loop_inv; cbn -[first_occurrences].
    rewrite first_occurrences_snoc, decide_False by done. fold F.
    rewrite !length_app. cbn [length].
    split; [lia|]. split; [lia|].
    split.
    { rewrite Hu, Nat2N.id, (insert_prefix_end _ _ _ _ eq_refl) by lia.
      by rewrite Nat.add_1_r. }
    split.
    { rewrite Hc, Hd, Nat2N.id, (insert_prefix_end _ _ _ _ HD) by lia.
      rewrite fmap_app, Nat.add_1_r. simpl (_ <$> [_]).
      rewrite index_of_app_fresh by done.
      do 2 f_equal. unfold D. apply list_fmap_ext. intros i x Hx.
      rewrite index_of_app_l; [done|].
      apply elem_of_first_occurrences. by eapply list_elem_of_lookup_2. }
    split; [by rewrite length_insert|].
    intros k x Hk.
    destruct (decide (k = length F)) as [->|Hne].
    + rewrite list_lookup_middle in Hk by done. injection Hk as <-.
      by rewrite list_lookup_insert_eq by lia.
    + assert (HkF : F !! k = Some x).
      { rewrite lookup_app_l in Hk; [done|].
        apply lookup_lt_Some in Hk. rewrite length_app in Hk.
        cbn [length] in Hk. lia. }
      rewrite list_lookup_insert_ne; [by apply Hmap|].
      intros Heq. apply N2Nat.inj in Heq. subst x.
      apply HnF. by eapply list_elem_of_lookup_2.
Qed.

Lemma uniquify_loop_inv (universeSize : N) (mlen : nat) (ub db gs : list N) :
  0 < universeSize → (N.to_nat universeSize ≤ mlen)%nat →
  Forall is_u16 gs →
  ∀ pre st,
    loop_inv mlen ub db pre st →
    Forall is_u16 pre →
    (length pre + length gs ≤ length ub)%nat →
    (length pre + length gs ≤ length db)%nat →
    ∃ st', uniquify_loop universeSize gs st = Some st' ∧
           loop_inv mlen ub db (pre ++ (remapGlyphID universeSize <$> gs)) st'.
Proof.
  intros HU Hmlen Hgs.
  induction Hgs as [|g gs Hg Hgs IH]; intros pre st Hinv Hpre Hub Hdb.
  - exists st. simpl. by rewrite app_nil_r.
  - cbn [length] in Hub, Hdb.
    pose proof (remapGlyphID_lt universeSize g HU) as Hlt.
    destruct (uniquify_iter_inv universeSize mlen ub db pre st g)
      as (st1 & Hstep & Hinv1); try done; try lia.
    destruct (IH (pre ++ [remapGlyphID universeSize g]) st1)
      as (st2 & Hrest & Hinv2); try done.
    + apply Forall_app. split; [done|].
      apply Forall_singleton. by apply remapGlyphID_u16.
    + rewrite length_app. cbn [length]. lia.
    + rewrite length_app. cbn [length]. lia.
    + exists st2. cbn [uniquify_loop]. rewrite Hstep. cbn [mbind option_bind].
      split; [done|].
      rewrite fmap_cons. by rewrite <- app_assoc in Hinv2.
Qed.

Lemma growUniverse_ok (universeSize : N) (s : SkGlyphIDSet) :
  set_ok s →
  set_ok (growUniverse universeSize s) ∧
  fUniverseToUniqueSize (growUniverse universeSize s)
  = N.max (fUniverseToUniqueSize s) universeSize.
Proof.
  unfold set_ok, growUniverse, zeroed. intros Hs.
  destruct (N.ltb_spec (fUniverseToUniqueSize s) universeSize); cbn.
  - rewrite length_replicate. split; [done|lia].
  - split; [done|lia].
Qed.

Lemma shrinkUniverse_ok (s : SkGlyphIDSet) :
  set_ok s →
  set_ok (shrinkUniverse s) ∧
  fUniverseToUniqueSize (shrinkUniverse s) = N.min (fUniverseToUniqueSize s) 4096.
Proof.
  unfold set_ok, shrinkUniverse, zeroed. intros Hs.
  destruct (N.ltb_spec 4096 (fUniverseToUniqueSize s)); cbn -[N.to_nat].
  - rewrite length_replicate. split; [done|lia].
  - split; [done|lia].
Qed.

(** The whole call, in closed form: it stays in bounds, and what it
    returns and writes depends on the inputs only, not on what the map
    held. *)
Lemma uniquifyGlyphIDs_spec (s : SkGlyphIDSet) (universeSize : N)
    (gs ub db : list N) :
  set_ok s → 0 < universeSize → Forall is_u16 gs →
  (length gs ≤ length ub)%nat → (length gs ≤ length db)%nat →
  ∃ m, length m = N.to_nat (N.max (fUniverseToUniqueSize s) universeSize) ∧
    uniquifyGlyphIDs s universeSize gs ub db =
    Some {| setAfter :=
              shrinkUniverse
                {| fUniverseToUniqueSize := N.max (fUniverseToUniqueSize s) universeSize;
                   fUniverseToUnique := m |};
            uniqueGlyphIDsBuffer :=
              dedupIDs universeSize gs ++ drop (length (dedupIDs universeSize gs)) ub;
            denseIndicesBuffer :=
              dedupIndices universeSize gs ++ drop (length gs) db;
            uniqueSpan := dedupIDs universeSize gs |}.
Proof.
  intros Hs HU Hgs Hub Hdb.
  destruct (growUniverse_ok universeSize s Hs) as [Hgrow Hsize].
  unfold set_ok in Hgrow.
  destruct (uniquify_loop_inv universeSize
              (N.to_nat (N.max (fUniverseToUniqueSize s) universeSize))
              ub db gs HU ltac:(lia) Hgs []
              {| loopUniverseToUnique := fUniverseToUnique (growUniverse universeSize s);
                 loopUniqueGlyphIDs := ub;
                 loopDenseIndices := db;
                 uniqueSize := 0;
                 denseIndicesCursor := 0 |})
    as (st & Hloop & Hinv); try done.
  { unfold loop_inv; cbn. rewrite !drop_0, Hgrow, Hsize.
    repeat split; try done. }
  rewrite app_nil_l in Hinv.
  destruct Hinv as (Hus & Hc & Hu & Hd & Hm & _).
  exists (loopUniverseToUnique st). split; [done|].
  unfold uniquifyGlyphIDs. cbn zeta. rewrite Hloop. cbn [mbind option_bind].
  rewrite Hsize, Hus, Nat2N.id, Hu, Hd.
  rewrite take_app_length, length_fmap.
  unfold dedupIDs, dedupIndices. f_equal. f_equal. f_equal.
  by rewrite <- list_fmap_compose.
Qed.

End Uniquify.

(** ** The layout loop *)

Section Layout.
Context `{ScalarOps}.

Lemma penPositions_length (cursor : SkPoint) (advs : list SkVector) :
  length (penPositions cursor advs) = length advs.
Proof.
  revert cursor. induction advs as [|a advs IH]; intros cursor; simpl; [done|].
  by rewrite IH.
Qed.

(** The [i]-th pen position is the origin plus the advances of the glyphs
    before it, added in order. *)
Lemma penPositions_lookup (cursor : SkPoint) (advs : list SkVector) (i : nat) :
  (i < length advs)%nat →
  penPositions cursor advs !! i = Some (foldl pt_add cursor (take i advs)).
Proof.
  revert cursor i. induction advs as [|a advs IH]; intros cursor i Hi.
  - simpl in Hi. lia.
  - destruct i as [|i]; [done|]. simpl in *. apply IH. lia.
Qed.

Lemma advance_loop_spec (indices : list N) (advances advs : list SkVector) :
  ∀ (n : nat) (i : N) (ps : list SkPoint) (cursor : SkPoint),
    n = length advs →
    (∀ j a, advs !! j = Some a →
       ∃ k, indices !! (N.to_nat i + j)%nat = Some k ∧
            advances !! N.to_nat k = Some a) →
    (N.to_nat i + length advs ≤ length ps)%nat →
    advance_loop n i indices advances ps cursor =
    Some (take (N.to_nat i) ps ++ penPositions cursor advs
            ++ drop (N.to_nat i + length advs) ps,
          foldl pt_add cursor advs).
Proof.
  induction advs as [|a advs IH]; intros n i ps cursor -> Hread Hlen.
  - simpl. rewrite Nat.add_0_r, take_drop. done.
  - cbn [length advance_loop penPositions foldl].
    cbn [length] in Hlen.
    rewrite store_Some by lia. cbn [mbind option_bind].
    destruct (Hread O a eq_refl) as (k & Hk & Ha).
    rewrite Nat.add_0_r in Hk.
    unfold load. rewrite Hk. cbn [mbind option_bind].
    rewrite Ha. cbn [mbind option_bind].
    rewrite IH; [|done|..].
    + f_equal. f_equal.
      replace (N.to_nat (i + 1)) with (S (N.to_nat i)) by lia.
      rewrite (take_S_r _ _ cursor) by (apply list_lookup_insert_eq; lia).
      rewrite take_insert_ge by lia.
      rewrite drop_insert_lt by lia.
      rewrite <- app_assoc. cbn [app].
      by rewrite Nat.add_succ_r.
    + intros j a' Hj. destruct (Hread (S j) a' Hj) as (k' & Hk' & Ha').
      exists k'. split; [|done]. rewrite <- Hk'. f_equal. lia.
    + rewrite length_insert. lia.
Qed.

End Layout.

(** ** The builder *)

Lemma glyphIDsOfBytes_facts (bytes : list byte) :
  (Forall is_u16 (glyphIDsOfBytes bytes) ∧
   length (glyphIDsOfBytes bytes) = (length bytes / 2)%nat) ∧
  ∀ b, Forall is_u16 (glyphIDsOfBytes (b :: bytes)) ∧
       length (glyphIDsOfBytes (b :: bytes)) = (length (b :: bytes) / 2)%nat.
Proof.
  induction bytes as [|hi rest [IH0 IH1]].
  - split; [by split|]. intros b. by split.
  - split; [apply IH1|].
    intros lo. destruct IH0 as [Hall Hlen].
    cbn [glyphIDsOfBytes length]. split.
    + constructor; [|done]. unfold is_u16.
      pose proof (Byte.to_N_bounded lo). pose proof (Byte.to_N_bounded hi). lia.
    + rewrite Hlen.
      change (S (S (length rest))) with (1 * 2 + length rest)%nat.
      by rewrite Nat.div_add_l by done.
Qed.

Lemma SkASSERT_true `{BuildConfig} : SkASSERT true = Some tt.
Proof. unfold SkASSERT. by rewrite andb_false_r. Qed.

Lemma empty_false {A} (l : list A) : l ≠ [] → empty l = false.
Proof. by destruct l. Qed.

Lemma empty_true' {A} (l : list A) : empty l = true → l = [].
Proof. by destruct l. Qed.

Lemma span_Some {A} (buf : list A) (n : N) :
  (N.to_nat n ≤ length buf)%nat → span buf n = Some (take (N.to_nat n) buf).
Proof. intros Hn. unfold span. by rewrite decide_True. Qed.

Lemma store_span_Some {A} (buf src : list A) :
  (length src ≤ length buf)%nat →
  store_span buf src = Some (src ++ drop (length src) buf).
Proof. intros Hn. unfold store_span. by rewrite decide_True. Qed.

Lemma dedupIDs_length (universeSize : N) (gs : list N) :
  (length (dedupIDs universeSize gs) ≤ length gs)%nat.
Proof.
  unfold dedupIDs.
  pose proof (length_first_occurrences (remapGlyphID universeSize <$> gs)) as Hle.
  by rewrite length_fmap in Hle.
Qed.

Lemma dedupIDs_nonempty (universeSize : N) (gs : list N) :
  gs ≠ [] → dedupIDs universeSize gs ≠ [].
Proof. by destruct gs. Qed.

Lemma dedupIndices_length (universeSize : N) (gs : list N) :
  length (dedupIndices universeSize gs) = length gs.
Proof. unfold dedupIndices. by rewrite length_fmap. Qed.

(** Reading the unique-id list through the dense index of an occurrence
    gives back the occurrence's remapped id. *)
Lemma dedup_lookup (universeSize : N) (gs : list N) (i : nat) (g : N) :
  gs !! i = Some g →
  ∃ d, dedupIndices universeSize gs !! i = Some d ∧
       (N.to_nat d < length (dedupIDs universeSize gs))%nat ∧
       dedupIDs universeSize gs !! N.to_nat d = Some (remapGlyphID universeSize g).
Proof.
  intros Hi. eexists. unfold dedupIndices.
  rewrite list_lookup_fmap, Hi. split; [done|].
  assert (Hin : remapGlyphID universeSize g ∈ dedupIDs universeSize gs).
  { apply elem_of_first_occurrences, list_elem_of_fmap.
    exists g. split; [done|]. by eapply list_elem_of_lookup_2. }
  rewrite Nat2N.id. split; [by apply index_of_lt|by apply lookup_index_of].
Qed.

Section Builder.
Context `{BuildConfig} `{Collaborators}.

Lemma textToGlyphIDs_u16 (b : SkGlyphRunBuilder) (paint : SkPaint) (bytes : list byte) :
  Forall is_u16 (textToGlyphIDs b paint bytes).2.
Proof.
  unfold textToGlyphIDs.
  destruct (decide (getTextEncoding paint ≠ kGlyphID_TextEncoding)).
  - destruct (0 <? _)%Z; cbn; [|constructor].
    apply Forall_fmap, Forall_forall. intros k _. unfold is_u16. cbn.
    apply N.mod_lt. done.
  - cbn. apply glyphIDsOfBytes_facts.
Qed.

Lemma textToGlyphIDs_ok (b : SkGlyphRunBuilder) (paint : SkPaint) (bytes : list byte) :
  builder_ok b → builder_ok (textToGlyphIDs b paint bytes).1.
Proof.
  unfold textToGlyphIDs.
  destruct (decide (getTextEncoding paint ≠ kGlyphID_TextEncoding)); [|done].
  by destruct (0 <? _)%Z.
Qed.

(** When no glyph id comes out of the text, the builder is not touched. *)
Lemma textToGlyphIDs_empty (b : SkGlyphRunBuilder) (paint : SkPaint) (bytes : list byte) :
  (textToGlyphIDs b paint bytes).2 = [] → (textToGlyphIDs b paint bytes).1 = b.
Proof.
  unfold textToGlyphIDs.
  destruct (decide (getTextEncoding paint ≠ kGlyphID_TextEncoding)); [|done].
  destruct (Z.ltb_spec 0 (SkUTFN_CountUnichars
             (convert_encoding (getTextEncoding paint)) bytes)) as [Hpos|]; [|done].
  cbn. intros Hnil. apply (f_equal length) in Hnil.
  rewrite length_fmap, List.length_seq in Hnil. cbn in Hnil. lia.
Qed.

Lemma initialize_ok (n : N) (b : SkGlyphRunBuilder) :
  builder_ok b →
  builder_ok (initialize n b) ∧
  n ≤ fMaxTotalRunSize (initialize n b) ∧
  fScratchGlyphRun (initialize n b) = None ∧
  fGlyphIDSet (initialize n b) = fGlyphIDSet b.
Proof.
  intros (Hi & Hp & Hu & Hs). unfold builder_ok, initialize, malloc16, mallocPoints.
  cbn. destruct (N.ltb_spec (fMaxTotalRunSize b) n).
  - rewrite !length_fmap, !List.length_seq. repeat split; done.
  - repeat split; try done.
Qed.

End Builder.

Section BuilderRuns.
Context `{BuildConfig} `{Collaborators}.

Lemma addDenseAndUnique_skipped (b : SkGlyphRunBuilder) (paint : SkPaint) (gs : list N) :
  (countGlyphs (GetTypefaceOrDefault paint) ≤ 0)%Z →
  addDenseAndUnique b paint gs = Some (b, []).
Proof.
  intros Hz. unfold addDenseAndUnique.
  destruct (empty gs); [done|].
  by destruct (Z.ltb_spec 0 (countGlyphs (GetTypefaceOrDefault paint))); [lia|].
Qed.

Lemma addDenseAndUnique_dedup (b : SkGlyphRunBuilder) (paint : SkPaint) (gs : list N) :
  builder_ok b → gs ≠ [] → Forall is_u16 gs →
  (0 < countGlyphs (GetTypefaceOrDefault paint))%Z →
  (length gs ≤ N.to_nat (fMaxTotalRunSize b))%nat →
  let U := Z.to_N (countGlyphs (GetTypefaceOrDefault paint)) in
  ∃ s', set_ok s' ∧
    addDenseAndUnique b paint gs =
    Some ({| fUniqueID := fUniqueID b;
             fMaxTotalRunSize := fMaxTotalRunSize b;
             fUniqueGlyphIDIndices :=
               dedupIndices U gs ++ drop (length gs) (fUniqueGlyphIDIndices b);
             fPositions := fPositions b;
             fUniqueGlyphIDs :=
               dedupIDs U gs ++ drop (length (dedupIDs U gs)) (fUniqueGlyphIDs b);
             fScratchGlyphIDs := fScratchGlyphIDs b;
             fScratchAdvances := fScratchAdvances b;
             fScratchGlyphRun := fScratchGlyphRun b;
             fGlyphIDSet := s' |}, dedupIDs U gs).
Proof.
  intros (Hi & Hp & Hu & Hs) Hne Hgs Hpos Hcap U.
  destruct (uniquifyGlyphIDs_spec (fGlyphIDSet b) U gs
              (fUniqueGlyphIDs b) (fUniqueGlyphIDIndices b))
    as (m & Hm & Hcall); try done; try lia.
  eexists. split; [|].
  2:{ unfold addDenseAndUnique. rewrite (empty_false _ Hne).
      destruct (Z.ltb_spec 0 (countGlyphs (GetTypefaceOrDefault paint))); [|lia].
      cbn zeta. fold U. rewrite Hcall. cbn. reflexivity. }
  by apply shrinkUniverse_ok.
Qed.

(** [drawText] on a typeface that has glyphs: the run it leaves in the
    slot, in closed form. *)
Lemma drawText_run (b : SkGlyphRunBuilder) (paint : SkPaint) (gs : list N)
    (origin : SkPoint) (text : list byte) (clusters : list N) :
  builder_ok b → gs ≠ [] → Forall is_u16 gs →
  (0 < countGlyphs (GetTypefaceOrDefault paint))%Z →
  (length gs ≤ N.to_nat (fMaxTotalRunSize b))%nat →
  let U := Z.to_N (countGlyphs (GetTypefaceOrDefault paint)) in
  let advs := occurrenceAdvances (FindOrCreateStrikeExclusive paint) U gs in
  let shift : SkPoint → SkPoint :=
    if decide (getTextAlign paint ≠ kLeft_Align)
    then λ pt, pt_sub pt (alignmentShift (getTextAlign paint) origin
                                          (foldl pt_add origin advs))
    else id in
  ∃ b', drawText b paint gs origin text clusters = Some b' ∧
        builder_ok b' ∧
        useGlyphRun b' =
        Some {| uniqueGlyphIDIndices := dedupIndices U gs;
                positions := shift <$> penPositions origin advs;
                temporaryShuntGlyphIDs := gs;
                uniqueGlyphIDs := dedupIDs U gs;
                text := text;
                clusters := clusters;
                runPaint := setTextAlign kLeft_Align
                              (setTextEncoding kGlyphID_TextEncoding paint) |}.
Proof.
  intros Hok Hne Hgs Hpos Hcap U advs shift.
  destruct (addDenseAndUnique_dedup b paint gs Hok Hne Hgs Hpos Hcap)
    as (s' & Hs' & Hadd).
  fold U in Hadd.
  destruct Hok as (Hi & Hp & Hu & Hs).
  pose proof (dedupIDs_length U gs) as HF.
  pose proof (dedupIndices_length U gs) as HD.
  assert (Hadvs : length advs = length gs)
    by (unfold advs, occurrenceAdvances; by rewrite length_fmap).
  unfold drawText.
  rewrite (empty_false _ Hne). cbn [negb]. rewrite SkASSERT_true.
  cbn [mbind option_bind]. rewrite Hadd. cbn [mbind option_bind].
  rewrite (empty_false _ (dedupIDs_nonempty U gs Hne)).
  rewrite Nat2N.id.
  rewrite store_span_Some
    by (unfold getAdvances; rewrite length_fmap, length_resize; lia).
  cbn [mbind option_bind].
  unfold withAdvances, withPositions.
  cbn [fUniqueGlyphIDIndices fScratchAdvances fPositions fUniqueID
       fMaxTotalRunSize fUniqueGlyphIDs fScratchGlyphIDs fScratchGlyphRun
       fGlyphIDSet].
  rewrite (advance_loop_spec _ _ advs); [|done|..].
  2:{ intros j a Hj. unfold advs, occurrenceAdvances in Hj.
      rewrite list_lookup_fmap in Hj.
      destruct (gs !! j) as [g|] eqn:Hg; [|done]. injection Hj as <-.
      destruct (dedup_lookup U gs j g Hg) as (d & Hd & Hlt & HdF).
      exists d. split.
      - rewrite lookup_app_l by (apply lookup_lt_is_Some; eauto). done.
      - unfold getAdvances.
        rewrite lookup_app_l by (rewrite length_fmap; lia).
        by rewrite list_lookup_fmap, HdF. }
  2:{ cbn. lia. }
  cbn [mbind option_bind]. rewrite take_0, app_nil_l.
  change (N.to_nat 0 + length advs)%nat with (length advs).
  rewrite Hadvs.
  set (ps0 := penPositions origin advs ++ drop (length gs) (fPositions b)).
  assert (Hps0 : length ps0 = length (fPositions b)).
  { unfold ps0. apply length_prefix_drop; [by rewrite penPositions_length|lia]. }
  assert (Htake : take (length gs) ps0 = penPositions origin advs).
  { unfold ps0. apply take_app_length'. by rewrite penPositions_length. }
  assert (Hidx : take (length gs)
                   (dedupIndices U gs ++ drop (length gs) (fUniqueGlyphIDIndices b))
                 = dedupIndices U gs).
  { apply take_app_length'. lia. }
  assert (Hidxlen : length (dedupIndices U gs
                            ++ drop (length gs) (fUniqueGlyphIDIndices b))
                    = length (fUniqueGlyphIDIndices b)).
  { apply length_prefix_drop; [done|lia]. }
  unfold shift. destruct (decide (getTextAlign paint ≠ kLeft_Align)) as [Hal|Hal].
  - rewrite (span_Some ps0) by (rewrite Nat2N.id; lia).
    cbn [mbind option_bind]. rewrite Nat2N.id, Htake.
    match goal with
    | |- context [(?f <$> penPositions origin advs) ++ ?d] =>
        set (sh := f); set (ps1 := (sh <$> penPositions origin advs) ++ d)
    end.
    assert (Hps1 : length ps1 = length (fPositions b)).
    { unfold ps1. rewrite <- Hps0. apply length_prefix_drop; [|lia].
      by rewrite length_fmap, penPositions_length. }
    rewrite (span_Some ps1) by (rewrite Nat2N.id; lia).
    cbn [mbind option_bind].
    rewrite span_Some by (rewrite Nat2N.id; lia).
    cbn [mbind option_bind]. rewrite Nat2N.id, Hidx.
    assert (Htake1 : take (length gs) ps1 = sh <$> penPositions origin advs).
    { unfold ps1. apply take_app_length'.
      by rewrite length_fmap, penPositions_length. }
    rewrite Htake1.
    eexists. split; [done|].
    unfold makeGlyphRun. rewrite (empty_false _ Hne).
    split; [|done].
    unfold builder_ok; cbn. rewrite Hps1, Hidxlen.
    rewrite length_prefix_drop by (done || lia). done.
  - cbn [mbind option_bind].
    rewrite (span_Some ps0) by (rewrite Nat2N.id; lia).
    cbn [mbind option_bind].
    rewrite span_Some by (rewrite Nat2N.id; lia).
    cbn [mbind option_bind]. rewrite Nat2N.id, Hidx, Htake.
    eexists. split; [done|].
    unfold makeGlyphRun. rewrite (empty_false _ Hne).
    split; [|by rewrite list_fmap_id].
    unfold builder_ok; cbn. rewrite Hps0, Hidxlen.
    rewrite length_prefix_drop by (done || lia). done.
Qed.

End BuilderRuns.

Section PositionedRuns.
Context `{BuildConfig} `{Collaborators}.

(** The debug-only deduplication of the positioned modes stays in bounds
    and leaves the positions buffer, the capacity and the slot alone. *)
Lemma debug_dedup_total (b : SkGlyphRunBuilder) (paint : SkPaint) (gs : list N) :
  builder_ok b → gs ≠ [] → Forall is_u16 gs →
  (length gs ≤ N.to_nat (fMaxTotalRunSize b))%nat →
  ∃ b1, (if SK_DEBUG then fst <$> addDenseAndUnique b paint gs else Some b) = Some b1 ∧
        builder_ok b1 ∧
        fPositions b1 = fPositions b ∧
        fMaxTotalRunSize b1 = fMaxTotalRunSize b ∧
        fScratchGlyphRun b1 = fScratchGlyphRun b ∧
        ((countGlyphs (GetTypefaceOrDefault paint) ≤ 0)%Z → b1 = b).
Proof.
  intros Hok Hne Hgs Hcap.
  destruct SK_DEBUG; [|by exists b].
  destruct (Z.ltb_spec 0 (countGlyphs (GetTypefaceOrDefault paint))) as [Hpos|Hz].
  - destruct (addDenseAndUnique_dedup b paint gs Hok Hne Hgs Hpos Hcap)
      as (s' & Hs' & ->).
    eexists. split; [done|]. cbn.
    destruct Hok as (Hi & Hp & Hu & Hs).
    pose proof (dedupIDs_length (Z.to_N (countGlyphs (GetTypefaceOrDefault paint))) gs).
    unfold builder_ok; cbn.
    rewrite !length_prefix_drop
      by (done || lia || apply dedupIndices_length).
    repeat split; try done. lia.
  - rewrite addDenseAndUnique_skipped by done. by exists b.
Qed.

Lemma drawPosTextH_run (b : SkGlyphRunBuilder) (paint : SkPaint) (gs : list N)
    (xpos : list SkScalar) (constY : SkScalar) (text : list byte) (clusters : list N) :
  builder_ok b → gs ≠ [] → Forall is_u16 gs →
  (length gs ≤ N.to_nat (fMaxTotalRunSize b))%nat →
  (length gs ≤ length xpos)%nat →
  ∃ b', drawPosTextH b paint gs xpos constY text clusters = Some b' ∧
        builder_ok b' ∧
        ((countGlyphs (GetTypefaceOrDefault paint) ≤ 0)%Z →
         fGlyphIDSet b' = fGlyphIDSet b) ∧
        useGlyphRun b' =
        Some {| uniqueGlyphIDIndices := [];
                positions := (λ x, Make x constY) <$> take (length gs) xpos;
                temporaryShuntGlyphIDs := gs;
                uniqueGlyphIDs := [];
                text := text;
                clusters := clusters;
                runPaint := setTextAlign kLeft_Align
                              (setTextEncoding kGlyphID_TextEncoding paint) |}.
Proof.
  intros Hok Hne Hgs Hcap Hx.
  destruct (debug_dedup_total b paint gs Hok Hne Hgs Hcap)
    as (b1 & Hdbg & Hok1 & Hps & Hmax & Hslot & Hskip).
  unfold drawPosTextH.
  rewrite (empty_false _ Hne). cbn [negb]. rewrite SkASSERT_true.
  cbn [mbind option_bind]. rewrite Hdbg. cbn [mbind option_bind].
  rewrite span_Some by (rewrite Nat2N.id; lia).
  cbn [mbind option_bind]. rewrite Nat2N.id.
  destruct Hok1 as (Hi & Hp & Hu & Hs).
  set (pts := (λ x, Make x constY) <$> take (length gs) xpos).
  assert (Hpts : length pts = length gs).
  { unfold pts. rewrite length_fmap, length_take. lia. }
  rewrite store_span_Some by lia.
  cbn [mbind option_bind]. unfold withPositions. cbn [fPositions].
  rewrite span_Some
    by (rewrite Nat2N.id, length_prefix_drop; (done || lia)).
  cbn [mbind option_bind].
  rewrite Nat2N.id, take_app_length' by done.
  eexists. split; [done|].
  unfold makeGlyphRun. rewrite (empty_false _ Hne).
  split; [|split; [|done]].
  - unfold builder_ok; cbn.
    rewrite length_prefix_drop by (done || lia). done.
  - intros Hz. cbn. by rewrite (Hskip Hz).
Qed.

Lemma drawPosText_run (b : SkGlyphRunBuilder) (paint : SkPaint) (gs : list N)
    (pos : list SkPoint) (text : list byte) (clusters : list N) :
  builder_ok b → gs ≠ [] → Forall is_u16 gs →
  (length gs ≤ N.to_nat (fMaxTotalRunSize b))%nat →
  (length gs ≤ length pos)%nat →
  ∃ b', drawPosText b paint gs pos text clusters = Some b' ∧
        builder_ok b' ∧
        ((countGlyphs (GetTypefaceOrDefault paint) ≤ 0)%Z →
         fGlyphIDSet b' = fGlyphIDSet b) ∧
        useGlyphRun b' =
        Some {| uniqueGlyphIDIndices := [];
                positions := take (length gs) pos;
                temporaryShuntGlyphIDs := gs;
                uniqueGlyphIDs := [];
                text := text;
                clusters := clusters;
                runPaint := setTextAlign kLeft_Align
                              (setTextEncoding kGlyphID_TextEncoding paint) |}.
Proof.
  intros Hok Hne Hgs Hcap Hx.
  destruct (debug_dedup_total b paint gs Hok Hne Hgs Hcap)
    as (b1 & Hdbg & Hok1 & Hps & Hmax & Hslot & Hskip).
  unfold drawPosText.
  rewrite (empty_false _ Hne). cbn [negb]. rewrite SkASSERT_true.
  cbn [mbind option_bind]. rewrite Hdbg. cbn [mbind option_bind].
  rewrite span_Some by (rewrite Nat2N.id; lia).
  cbn [mbind option_bind]. rewrite Nat2N.id.
  eexists. split; [done|].
  unfold makeGlyphRun. rewrite (empty_false _ Hne).
  split; [by destruct Hok1|]. split; [|done].
  intros Hz. cbn. by rewrite (Hskip Hz).
Qed.

(** What every [prepare*] entry point hands to its [draw*] function:
    glyph ids that fit 16 bits, and a builder whose buffers hold them. *)
Lemma prepared_builder (b : SkGlyphRunBuilder) (paint : SkPaint) (bytes : list byte) :
  builder_ok b →
  let gs := (textToGlyphIDs b paint bytes).2 in
  let b1 := initialize (N.of_nat (length gs)) (textToGlyphIDs b paint bytes).1 in
  Forall is_u16 gs ∧ builder_ok b1 ∧
  (length gs ≤ N.to_nat (fMaxTotalRunSize b1))%nat.
Proof.
  intros Hok gs b1.
  split; [apply textToGlyphIDs_u16|].
  destruct (initialize_ok (N.of_nat (length gs)) (textToGlyphIDs b paint bytes).1)
    as (Hok1 & Hcap & _); [by apply textToGlyphIDs_ok|].
  split; [done|]. fold b1 in Hcap. lia.
Qed.

End PositionedRuns.

(** ** The representation invariants are kept *)

Lemma newGlyphIDSet_ok : set_ok newGlyphIDSet.
Proof. reflexivity. Qed.

Lemma uniquifyGlyphIDs_keeps_set_ok `{BuildConfig} (s : SkGlyphIDSet)
    (universeSize : N) (gs ub db : list N) :
  set_ok s → 0 < universeSize → Forall is_u16 gs →
  (length gs ≤ length ub)%nat → (length gs ≤ length db)%nat →
  ∃ r, uniquifyGlyphIDs s universeSize gs ub db = Some r ∧ set_ok (setAfter r).
Proof.
  intros Hs HU Hgs Hub Hdb.
  destruct (uniquifyGlyphIDs_spec s universeSize gs ub db)
    as (m & Hm & Hcall); try done.
  eexists. split; [exact Hcall|]. cbn [setAfter]. by apply shrinkUniverse_ok.
Qed.

Lemma newBuilder_ok `{ScalarOps} : builder_ok newBuilder.
Proof. by repeat split. Qed.

Section BuilderInvariant.
Context `{BuildConfig} `{Collaborators}.

Lemma prepare_keeps_builder_ok (b : SkGlyphRunBuilder) (paint : SkPaint)
    (bytes : list byte) (origin : SkPoint)
    (xpos : list SkScalar) (constY : SkScalar) (pos : list SkPoint) :
  builder_ok b →
  (∀ b', prepareDrawText b paint bytes origin = Some b' → builder_ok b') ∧
  (∀ b', prepareDrawPosTextH b paint bytes xpos constY = Some b' → builder_ok b') ∧
  (∀ b', prepareDrawPosText b paint bytes pos = Some b' → builder_ok b').
Proof.
  intros Hok.
  destruct (prepared_builder b paint bytes Hok) as (Hgs & Hok1 & Hcap).
  pose proof (textToGlyphIDs_ok b paint bytes Hok) as Hok0.
  unfold prepareDrawText, prepareDrawPosTextH, prepareDrawPosText.
  destruct (textToGlyphIDs b paint bytes) as [b0 gs].
  cbn [fst snd] in *.
  destruct gs as [|g gs']; [by split; [|split]; intros b' [= <-]|].
  set (gs := g :: gs') in *.
  assert (Hne : gs ≠ []) by done.
  rewrite (empty_false _ Hne).
  split; [|split]; intros b' Hcall.
  - destruct (Z.ltb_spec 0 (countGlyphs (GetTypefaceOrDefault paint))) as [Hpos|Hz].
    + destruct (drawText_run _ paint gs origin [] [] Hok1 Hne Hgs Hpos Hcap)
        as (b'' & Hrun & Hok'' & _).
      rewrite Hrun in Hcall. by injection Hcall as <-.
    + unfold drawText in Hcall. rewrite (empty_false _ Hne) in Hcall.
      cbn [negb] in Hcall. rewrite SkASSERT_true in Hcall.
      cbn [mbind option_bind] in Hcall.
      rewrite addDenseAndUnique_skipped in Hcall by done.
      cbn in Hcall. by injection Hcall as <-.
  - destruct (decide (length gs ≤ length xpos)%nat) as [Hx|Hx].
    + destruct (drawPosTextH_run _ paint gs xpos constY [] [] Hok1 Hne Hgs Hcap Hx)
        as (b'' & Hrun & Hok'' & _).
      rewrite Hrun in Hcall. by injection Hcall as <-.
    + destruct (debug_dedup_total _ paint gs Hok1 Hne Hgs Hcap) as (b1 & Hdbg & _).
      unfold drawPosTextH in Hcall. rewrite (empty_false _ Hne) in Hcall.
      cbn [negb] in Hcall. rewrite SkASSERT_true in Hcall.
      cbn [mbind option_bind] in Hcall. rewrite Hdbg in Hcall.
      cbn [mbind option_bind] in Hcall. unfold span in Hcall.
      rewrite decide_False in Hcall by (rewrite Nat2N.id; lia). done.
  - destruct (decide (length gs ≤ length pos)%nat) as [Hx|Hx].
    + destruct (drawPosText_run _ paint gs pos [] [] Hok1 Hne Hgs Hcap Hx)
        as (b'' & Hrun & Hok'' & _).
      rewrite Hrun in Hcall. by injection Hcall as <-.
    + destruct (debug_dedup_total _ paint gs Hok1 Hne Hgs Hcap) as (b1 & Hdbg & _).
      unfold drawPosText in Hcall. rewrite (empty_false _ Hne) in Hcall.
      cbn [negb] in Hcall. rewrite SkASSERT_true in Hcall.
      cbn [mbind option_bind] in Hcall. rewrite Hdbg in Hcall.
      cbn [mbind option_bind] in Hcall. unfold span in Hcall.
      rewrite decide_False in Hcall by (rewrite Nat2N.id; lia). done.
Qed.

End BuilderInvariant.


(** * Main theorems *)

Section DedupClaims.
Context `{BuildConfig}.

(** C1 (dedup correctness).  For a set in a consistent state, a universe
    size of at least 1, 16-bit glyph ids and output buffers at least as long
    as the input, [uniquifyGlyphIDs] returns; the returned unique ids are
    duplicate free, no more than the input, and lie at the start of the
    unique-id buffer; exactly [length glyphIDs] dense indices are written
    (the rest of that buffer is untouched); reading the unique ids through
    the dense index of occurrence [i] gives [glyphIDs[i]] when it is below
    the universe size and 0 otherwise; and every out-of-range occurrence
    shares its dense index with every other out-of-range occurrence and
    with every occurrence of id 0. *)
Theorem uniquifyGlyphIDs_dedup_correct (s : SkGlyphIDSet) (universeSize : N)
    (glyphIDs ub db : list N) :
  set_ok s → 1 ≤ universeSize → Forall is_u16 glyphIDs →
  (length glyphIDs ≤ length ub)%nat → (length glyphIDs ≤ length db)%nat →
  ∃ r, uniquifyGlyphIDs s universeSize glyphIDs ub db = Some r ∧
       NoDup (uniqueSpan r) ∧
       (length (uniqueSpan r) ≤ length glyphIDs)%nat ∧
       uniqueSpan r = take (length (uniqueSpan r)) (uniqueGlyphIDsBuffer r) ∧
       length (denseIndicesBuffer r) = length db ∧
       drop (length glyphIDs) (denseIndicesBuffer r) = drop (length glyphIDs) db ∧
       (∀ i g, glyphIDs !! i = Some g →
          ∃ d, denseIndicesBuffer r !! i = Some d ∧
               uniqueSpan r !! N.to_nat d
               = Some (if decide (g < universeSize) then g else 0)) ∧
       (∀ i j gi gj, glyphIDs !! i = Some gi → glyphIDs !! j = Some gj →
          universeSize ≤ gi → universeSize ≤ gj ∨ gj = 0 →
          denseIndicesBuffer r !! i = denseIndicesBuffer r !! j).
Proof.
  intros Hs HU Hgs Hub Hdb.
  destruct (uniquifyGlyphIDs_spec s universeSize glyphIDs ub db)
    as (m & Hm & Hcall); try done; try lia.
  eexists. split; [exact Hcall|]. cbn.
  pose proof (dedupIndices_length universeSize glyphIDs) as HD.
  split; [apply NoDup_first_occurrences|].
  split; [apply dedupIDs_length|].
  split; [by rewrite take_app_length|].
  split; [apply length_prefix_drop; [done|lia]|].
  split; [by rewrite drop_app_length' by done|].
  split.
  - intros i g Hi.
    destruct (dedup_lookup universeSize glyphIDs i g Hi) as (d & Hd & Hlt & HdF).
    exists d. split.
    + rewrite lookup_app_l by (apply lookup_lt_is_Some; eauto). done.
    + by rewrite HdF, remapGlyphID_spec.
  - intros i j gi gj Hi Hj Hgi Hgj.
    rewrite !lookup_app_l
      by (rewrite HD; apply lookup_lt_is_Some; eauto).
    unfold dedupIndices. rewrite !list_lookup_fmap, Hi, Hj. cbn.
    do 3 f_equal. rewrite !remapGlyphID_spec.
    rewrite decide_False by lia.
    destruct Hgj as [Hgj| ->]; [by rewrite decide_False by lia|].
    by destruct (decide (0 < universeSize)).
Qed.

(** C10 (first-occurrence order).  Under the same conditions the returned
    unique ids are the distinct remapped ids in order of first occurrence;
    the dense index of every occurrence is the position of its remapped id
    in that list; and an occurrence that brings a new id gets the number of
    distinct ids met before it, so dense indices are handed out 0, 1, 2, ...
    in first-occurrence order. *)
Theorem uniquifyGlyphIDs_first_occurrence_order (s : SkGlyphIDSet)
    (universeSize : N) (glyphIDs ub db : list N) :
  set_ok s → 1 ≤ universeSize → Forall is_u16 glyphIDs →
  (length glyphIDs ≤ length ub)%nat → (length glyphIDs ≤ length db)%nat →
  ∃ r, uniquifyGlyphIDs s universeSize glyphIDs ub db = Some r ∧
       uniqueSpan r = first_occurrences (remapGlyphID universeSize <$> glyphIDs) ∧
       take (length glyphIDs) (denseIndicesBuffer r)
       = (λ g, N.of_nat (index_of (remapGlyphID universeSize g) (uniqueSpan r)))
           <$> glyphIDs ∧
       (∀ i g, glyphIDs !! i = Some g →
          remapGlyphID universeSize g
            ∉ (remapGlyphID universeSize <$> take i glyphIDs) →
          denseIndicesBuffer r !! i
          = Some (N.of_nat (length (first_occurrences
                     (remapGlyphID universeSize <$> take i glyphIDs)))) ∧
          uniqueSpan r !! length (first_occurrences
                     (remapGlyphID universeSize <$> take i glyphIDs))
          = Some (remapGlyphID universeSize g)).
Proof.
  intros Hs HU Hgs Hub Hdb.
  destruct (uniquifyGlyphIDs_spec s universeSize glyphIDs ub db)
    as (m & Hm & Hcall); try done; try lia.
  eexists. split; [exact Hcall|].
  cbn [uniqueSpan denseIndicesBuffer uniqueGlyphIDsBuffer].
  pose proof (dedupIndices_length universeSize glyphIDs) as HD.
  split; [done|].
  split; [by rewrite take_app_length' by done|].
  intros i g Hi Hnew.
  assert (Hidx : index_of (remapGlyphID universeSize g)
                   (dedupIDs universeSize glyphIDs)
                 = length (first_occurrences
                     (remapGlyphID universeSize <$> take i glyphIDs))).
  { unfold dedupIDs.
    rewrite <- (take_drop_middle glyphIDs i g Hi) at 1.
    rewrite fmap_app, fmap_cons.
    by apply index_of_first_occurrence. }
  destruct (dedup_lookup universeSize glyphIDs i g Hi) as (d & Hd & Hlt & HdF).
  rewrite lookup_app_l by (rewrite HD; apply lookup_lt_is_Some; eauto).
  rewrite Hd.
  unfold dedupIndices in Hd. rewrite list_lookup_fmap, Hi in Hd.
  injection Hd as <-. rewrite Nat2N.id, Hidx in HdF.
  by rewrite Hidx.
Qed.

(** C2 (no-clear correctness).  Take any consistent set and make two calls
    in sequence on it, with any universe sizes of at least 1, any 16-bit
    ids, and any large enough buffers.  Both calls return, and the second
    one returns the same span and leaves the same contents in both output
    buffers as the same call made on a freshly constructed set. *)
Theorem uniquifyGlyphIDs_stale_state_harmless (s : SkGlyphIDSet)
    (universe1 universe2 : N) (ids1 ub1 db1 ids2 ub2 db2 : list N) :
  set_ok s → 1 ≤ universe1 → 1 ≤ universe2 →
  Forall is_u16 ids1 → Forall is_u16 ids2 →
  (length ids1 ≤ length ub1)%nat → (length ids1 ≤ length db1)%nat →
  (length ids2 ≤ length ub2)%nat → (length ids2 ≤ length db2)%nat →
  ∃ r1 r2 fresh,
    uniquifyGlyphIDs s universe1 ids1 ub1 db1 = Some r1 ∧
    uniquifyGlyphIDs (setAfter r1) universe2 ids2 ub2 db2 = Some r2 ∧
    uniquifyGlyphIDs newGlyphIDSet universe2 ids2 ub2 db2 = Some fresh ∧
    uniqueSpan r2 = uniqueSpan fresh ∧
    uniqueGlyphIDsBuffer r2 = uniqueGlyphIDsBuffer fresh ∧
    denseIndicesBuffer r2 = denseIndicesBuffer fresh.
Proof.
  intros Hs HU1 HU2 Hids1 Hids2 Hub1 Hdb1 Hub2 Hdb2.
  destruct (uniquifyGlyphIDs_spec s universe1 ids1 ub1 db1)
    as (m1 & Hm1 & Hcall1); try done; try lia.
  assert (Hs1 : set_ok (shrinkUniverse
                  {| fUniverseToUniqueSize := N.max (fUniverseToUniqueSize s) universe1;
                     fUniverseToUnique := m1 |}))
    by (by apply shrinkUniverse_ok).
  destruct (uniquifyGlyphIDs_spec _ universe2 ids2 ub2 db2 Hs1)
    as (m2 & Hm2 & Hcall2); try done; try lia.
  destruct (uniquifyGlyphIDs_spec newGlyphIDSet universe2 ids2 ub2 db2)
    as (m3 & Hm3 & Hcall3); try done; try lia.
  do 3 eexists. split; [exact Hcall1|]. cbn [setAfter].
  split; [exact Hcall2|]. split; [exact Hcall3|]. done.
Qed.

(** C6 (shrink bound).  A call with a universe above 4096 returns with
    the set's recorded size and its storage both at 4096 entries; while
    the loop ran, the storage had at least [universeSize] entries. *)
Theorem uniquifyGlyphIDs_shrinks_to_4096 (s : SkGlyphIDSet) (universeSize : N)
    (glyphIDs ub db : list N) :
  set_ok s → 4096 < universeSize → Forall is_u16 glyphIDs →
  (length glyphIDs ≤ length ub)%nat → (length glyphIDs ≤ length db)%nat →
  (N.to_nat universeSize
     ≤ length (fUniverseToUnique (growUniverse universeSize s)))%nat ∧
  ∃ r, uniquifyGlyphIDs s universeSize glyphIDs ub db = Some r ∧
       fUniverseToUniqueSize (setAfter r) = 4096 ∧
       length (fUniverseToUnique (setAfter r)) = N.to_nat 4096.
Proof.
  intros Hs HU Hgs Hub Hdb.
  split.
  { destruct (growUniverse_ok universeSize s Hs) as [Hok Hsize].
    unfold set_ok in Hok. lia. }
  destruct (uniquifyGlyphIDs_spec s universeSize glyphIDs ub db)
    as (m & Hm & Hcall); try done; try lia.
  eexists. split; [exact Hcall|]. cbn [setAfter].
  destruct (shrinkUniverse_ok
              {| fUniverseToUniqueSize := N.max (fUniverseToUniqueSize s) universeSize;
                 fUniverseToUnique := m |} Hm) as [Hok Hsize].
  unfold set_ok in Hok. cbn [fUniverseToUniqueSize] in Hsize.
  rewrite Hok, Hsize. split; [lia|]. f_equal. lia.
Qed.

End DedupClaims.

Section BuilderClaims.
Context `{BuildConfig} `{Collaborators}.

Lemma zero_code_points_no_glyphs (b : SkGlyphRunBuilder) (paint : SkPaint)
    (bytes : list byte) :
  getTextEncoding paint ≠ kGlyphID_TextEncoding →
  (SkUTFN_CountUnichars (convert_encoding (getTextEncoding paint)) bytes ≤ 0)%Z →
  (textToGlyphIDs b paint bytes).2 = [].
Proof.
  intros Henc Hz. unfold textToGlyphIDs.
  rewrite decide_True by done.
  by destruct (Z.ltb_spec 0 (SkUTFN_CountUnichars
                 (convert_encoding (getTextEncoding paint)) bytes)); [lia|].
Qed.

(** C7 (empty input).  When the text decodes to no code point, or no
    glyph id comes out of it, each of the three [prepare*] entry points
    returns normally and leaves the builder exactly as it was: the slot
    holds what it held (no new run), and no buffer or counter changed
    ([initialize] did not run). *)
Theorem prepare_empty_input_leaves_builder (b : SkGlyphRunBuilder)
    (paint : SkPaint) (bytes : list byte) (origin : SkPoint)
    (xpos : list SkScalar) (constY : SkScalar) (pos : list SkPoint) :
  (getTextEncoding paint ≠ kGlyphID_TextEncoding ∧
   (SkUTFN_CountUnichars (convert_encoding (getTextEncoding paint)) bytes ≤ 0)%Z)
  ∨ (textToGlyphIDs b paint bytes).2 = [] →
  prepareDrawText b paint bytes origin = Some b ∧
  prepareDrawPosTextH b paint bytes xpos constY = Some b ∧
  prepareDrawPosText b paint bytes pos = Some b.
Proof.
  intros Hempty.
  assert (Hgs : (textToGlyphIDs b paint bytes).2 = []).
  { destruct Hempty as [[Henc Hz]|Hgs]; [|done].
    by apply zero_code_points_no_glyphs. }
  pose proof (textToGlyphIDs_empty b paint bytes Hgs) as Hb.
  unfold prepareDrawText, prepareDrawPosTextH, prepareDrawPosText.
  destruct (textToGlyphIDs b paint bytes) as [b0 gs].
  cbn in Hgs, Hb. subst. done.
Qed.

(** C3, as the code has it (typeface without glyphs).  With a non-empty
    glyph sequence and a typeface that reports 0 glyphs, deduplication is
    skipped in every mode (the set is left as it was).  The two positioned
    modes still produce a run, whose unique-id data is empty;
    [prepareDrawText] returns without producing a run. *)
Theorem zero_universe_runs (b : SkGlyphRunBuilder) (paint : SkPaint)
    (bytes : list byte) (origin : SkPoint)
    (xpos : list SkScalar) (constY : SkScalar) (pos : list SkPoint) :
  builder_ok b →
  (textToGlyphIDs b paint bytes).2 ≠ [] →
  countGlyphs (GetTypefaceOrDefault paint) = 0%Z →
  (length (textToGlyphIDs b paint bytes).2 ≤ length xpos)%nat →
  (length (textToGlyphIDs b paint bytes).2 ≤ length pos)%nat →
  (∃ b', prepareDrawText b paint bytes origin = Some b' ∧
         useGlyphRun b' = None ∧
         fGlyphIDSet b' = fGlyphIDSet b) ∧
  (∃ b' run, prepareDrawPosTextH b paint bytes xpos constY = Some b' ∧
         useGlyphRun b' = Some run ∧
         temporaryShuntGlyphIDs run = (textToGlyphIDs b paint bytes).2 ∧
         uniqueGlyphIDs run = [] ∧ uniqueGlyphIDIndices run = [] ∧
         fGlyphIDSet b' = fGlyphIDSet b) ∧
  (∃ b' run, prepareDrawPosText b paint bytes pos = Some b' ∧
         useGlyphRun b' = Some run ∧
         temporaryShuntGlyphIDs run = (textToGlyphIDs b paint bytes).2 ∧
         uniqueGlyphIDs run = [] ∧ uniqueGlyphIDIndices run = [] ∧
         fGlyphIDSet b' = fGlyphIDSet b).
Proof.
  intros Hok Hne Hzero Hx Hp.
  destruct (prepared_builder b paint bytes Hok) as (Hgs & Hok1 & Hcap).
  assert (Hset : fGlyphIDSet (initialize
                   (N.of_nat (length (textToGlyphIDs b paint bytes).2))
                   (textToGlyphIDs b paint bytes).1) = fGlyphIDSet b).
  { unfold textToGlyphIDs.
    destruct (decide (getTextEncoding paint ≠ kGlyphID_TextEncoding)); [|done].
    by destruct (0 <? _)%Z. }
  unfold prepareDrawText, prepareDrawPosTextH, prepareDrawPosText.
  destruct (textToGlyphIDs b paint bytes) as [b0 gs].
  cbn [fst snd] in *. rewrite (empty_false _ Hne).
  split; [|split].
  - unfold drawText. rewrite (empty_false _ Hne). cbn [negb].
    rewrite SkASSERT_true. cbn [mbind option_bind].
    rewrite addDenseAndUnique_skipped by lia. cbn.
    eexists. split; [done|]. split; [done|]. exact Hset.
  - destruct (drawPosTextH_run _ paint gs xpos constY [] [] Hok1 Hne Hgs Hcap Hx)
      as (b' & Hrun & _ & Hskip & Hslot).
    do 2 eexists. split; [exact Hrun|]. split; [exact Hslot|]. cbn.
    repeat split; try done. rewrite Hskip by lia. exact Hset.
  - destruct (drawPosText_run _ paint gs pos [] [] Hok1 Hne Hgs Hcap Hp)
      as (b' & Hrun & _ & Hskip & Hslot).
    do 2 eexists. split; [exact Hrun|]. split; [exact Hslot|]. cbn.
    repeat split; try done. rewrite Hskip by lia. exact Hset.
Qed.

(** C8, as the code has it (universe size 0).  A universe size of 0 does
    not reach [uniquifyGlyphIDs]: when the typeface reports 0 glyphs,
    [addDenseAndUnique] returns normally for any input, hands back the
    empty span and leaves the builder (and with it the set and its map)
    exactly as it was. *)
Theorem addDenseAndUnique_guards_zero_universe (b : SkGlyphRunBuilder)
    (paint : SkPaint) (glyphIDs : list N) :
  countGlyphs (GetTypefaceOrDefault paint) = 0%Z →
  addDenseAndUnique b paint glyphIDs = Some (b, []).
Proof.
  intros Hzero. unfold addDenseAndUnique.
  destruct (empty glyphIDs); [done|].
  cbn zeta. by rewrite Hzero.
Qed.

(** C9 (positioned modes).  For a non-empty glyph sequence and position
    arrays that cover it, [prepareDrawPosTextH] produces a run whose
    positions are [(xpos[i], constY)] and [prepareDrawPosText] one whose
    positions are the given points; in both, and in debug as in release
    builds, the run's unique-id and dense-index spans are empty. *)
Theorem positioned_runs_keep_positions (b : SkGlyphRunBuilder) (paint : SkPaint)
    (bytes : list byte) (xpos : list SkScalar) (constY : SkScalar)
    (pos : list SkPoint) :
  builder_ok b →
  (textToGlyphIDs b paint bytes).2 ≠ [] →
  length xpos = length (textToGlyphIDs b paint bytes).2 →
  length pos = length (textToGlyphIDs b paint bytes).2 →
  (∃ b' run, prepareDrawPosTextH b paint bytes xpos constY = Some b' ∧
         useGlyphRun b' = Some run ∧
         temporaryShuntGlyphIDs run = (textToGlyphIDs b paint bytes).2 ∧
         positions run = (λ x, Make x constY) <$> xpos ∧
         uniqueGlyphIDs run = [] ∧ uniqueGlyphIDIndices run = []) ∧
  (∃ b' run, prepareDrawPosText b paint bytes pos = Some b' ∧
         useGlyphRun b' = Some run ∧
         temporaryShuntGlyphIDs run = (textToGlyphIDs b paint bytes).2 ∧
         positions run = pos ∧
         uniqueGlyphIDs run = [] ∧ uniqueGlyphIDIndices run = []).
Proof.
  intros Hok Hne Hx Hp.
  destruct (prepared_builder b paint bytes Hok) as (Hgs & Hok1 & Hcap).
  unfold prepareDrawPosTextH, prepareDrawPosText.
  destruct (textToGlyphIDs b paint bytes) as [b0 gs].
  cbn [fst snd] in *. rewrite (empty_false _ Hne).
  split.
  - destruct (drawPosTextH_run _ paint gs xpos constY [] [] Hok1 Hne Hgs Hcap)
      as (b' & Hrun & _ & _ & Hslot); [lia|].
    do 2 eexists. split; [exact Hrun|]. split; [exact Hslot|]. cbn.
    repeat split; try done. by rewrite <- Hx, firstn_all.
  - destruct (drawPosText_run _ paint gs pos [] [] Hok1 Hne Hgs Hcap)
      as (b' & Hrun & _ & _ & Hslot); [lia|].
    do 2 eexists. split; [exact Hrun|]. split; [exact Hslot|]. cbn.
    repeat split; try done. by rewrite <- Hp, firstn_all.
Qed.

End BuilderClaims.

Section LayoutClaims.
Context `{BuildConfig} `{Collaborators}.

(** [prepareDrawText] on a typeface that has glyphs: the run, in closed
    form. *)
Lemma prepareDrawText_run (b : SkGlyphRunBuilder) (paint : SkPaint)
    (bytes : list byte) (origin : SkPoint) :
  builder_ok b →
  (textToGlyphIDs b paint bytes).2 ≠ [] →
  (0 < countGlyphs (GetTypefaceOrDefault paint))%Z →
  let gs := (textToGlyphIDs b paint bytes).2 in
  let U := Z.to_N (countGlyphs (GetTypefaceOrDefault paint)) in
  let advs := occurrenceAdvances (FindOrCreateStrikeExclusive paint) U gs in
  let shift : SkPoint → SkPoint :=
    if decide (getTextAlign paint ≠ kLeft_Align)
    then λ pt, pt_sub pt (alignmentShift (getTextAlign paint) origin
                                          (foldl pt_add origin advs))
    else id in
  ∃ b', prepareDrawText b paint bytes origin = Some b' ∧
        builder_ok b' ∧
        useGlyphRun b' =
        Some {| uniqueGlyphIDIndices := dedupIndices U gs;
                positions := shift <$> penPositions origin advs;
                temporaryShuntGlyphIDs := gs;
                uniqueGlyphIDs := dedupIDs U gs;
                text := [];
                clusters := [];
                runPaint := setTextAlign kLeft_Align
                              (setTextEncoding kGlyphID_TextEncoding paint) |}.
Proof.
  intros Hok Hne Hpos.
  destruct (prepared_builder b paint bytes Hok) as (Hgs & Hok1 & Hcap).
  unfold prepareDrawText.
  destruct (textToGlyphIDs b paint bytes) as [b0 gs].
  cbn [fst snd] in *. rewrite (empty_false _ Hne).
  by apply drawText_run.
Qed.

(** C4 (advance layout).  With left alignment, a typeface that has
    glyphs and a non-empty glyph sequence, [prepareDrawText] produces a
    run carrying the deduplicated ids and their dense indices.  The strike
    is asked for one advance per unique id; the advance of each occurrence
    is the entry of that array at the occurrence's dense index; and the
    position of glyph [i] is the origin plus the advances of glyphs
    [0 .. i-1], added in order. *)
Theorem prepareDrawText_advance_layout (b : SkGlyphRunBuilder) (paint : SkPaint)
    (bytes : list byte) (origin : SkPoint) :
  builder_ok b →
  getTextAlign paint = kLeft_Align →
  (textToGlyphIDs b paint bytes).2 ≠ [] →
  (0 < countGlyphs (GetTypefaceOrDefault paint))%Z →
  let gs := (textToGlyphIDs b paint bytes).2 in
  let U := Z.to_N (countGlyphs (GetTypefaceOrDefault paint)) in
  ∃ b' run (advances perGlyph : list SkVector),
    prepareDrawText b paint bytes origin = Some b' ∧
    useGlyphRun b' = Some run ∧
    temporaryShuntGlyphIDs run = gs ∧
    uniqueGlyphIDs run = dedupIDs U gs ∧
    uniqueGlyphIDIndices run = dedupIndices U gs ∧
    advances = getAdvances (FindOrCreateStrikeExclusive paint) (uniqueGlyphIDs run) ∧
    length advances = length (uniqueGlyphIDs run) ∧
    Forall2 (λ d a, advances !! N.to_nat d = Some a)
            (uniqueGlyphIDIndices run) perGlyph ∧
    length (positions run) = length gs ∧
    (∀ i, (i < length gs)%nat →
          positions run !! i = Some (foldl pt_add origin (take i perGlyph))).
Proof.
  intros Hok Hleft Hne Hpos gs U.
  destruct (prepareDrawText_run b paint bytes origin Hok Hne Hpos)
    as (b' & Hrun & _ & Hslot).
  fold gs U in Hslot. rewrite Hleft in Hslot.
  rewrite decide_False in Hslot by (intros Hc; by apply Hc).
  rewrite list_fmap_id in Hslot.
  set (cache := FindOrCreateStrikeExclusive paint) in *.
  exists b'. eexists. exists (getAdvances cache (dedupIDs U gs)).
  exists (occurrenceAdvances cache U gs).
  split; [exact Hrun|]. split; [exact Hslot|]. cbn.
  assert (Hlen : length (occurrenceAdvances cache U gs) = length gs)
    by (unfold occurrenceAdvances; by rewrite length_fmap).
  do 4 (split; [done|]).
  split; [unfold getAdvances; by rewrite length_fmap|].
  split.
  - unfold dedupIndices, occurrenceAdvances.
    apply Forall2_fmap, Forall_Forall2_diag, Forall_forall.
    intros g Hg. unfold getAdvances.
    rewrite Nat2N.id, list_lookup_fmap, lookup_index_of; [done|].
    apply elem_of_first_occurrences, list_elem_of_fmap. by exists g.
  - split; [by rewrite penPositions_length|].
    intros i Hi. apply penPositions_lookup. lia.
Qed.

Lemma textToGlyphIDs_align (b : SkGlyphRunBuilder) (paint : SkPaint)
    (bytes : list byte) (align : Align) :
  GetTypefaceOrDefault (setTextAlign align paint) = GetTypefaceOrDefault paint →
  textToGlyphIDs b (setTextAlign align paint) bytes = textToGlyphIDs b paint bytes.
Proof. intros Htf. unfold textToGlyphIDs. cbn. by rewrite Htf. Qed.

(** C5 (alignment).  Let the collaborators (typeface and strike) not
    depend on the paint's alignment.  For a typeface that has glyphs and a
    non-empty glyph sequence, [prepareDrawText] produces a run under every
    alignment, with the same glyph ids, unique ids and dense indices; with
    the total advance taken as the end of the last glyph minus the origin,
    the positions under left alignment are untranslated, those under
    center alignment are the left-aligned ones minus half the total
    advance, and those under right alignment are the left-aligned ones
    minus the total advance. *)
Theorem prepareDrawText_alignment_translates (b : SkGlyphRunBuilder)
    (paint : SkPaint) (bytes : list byte) (origin : SkPoint) :
  builder_ok b →
  (∀ a, GetTypefaceOrDefault (setTextAlign a paint) = GetTypefaceOrDefault paint) →
  (∀ a, FindOrCreateStrikeExclusive (setTextAlign a paint)
        = FindOrCreateStrikeExclusive paint) →
  (textToGlyphIDs b paint bytes).2 ≠ [] →
  (0 < countGlyphs (GetTypefaceOrDefault paint))%Z →
  let gs := (textToGlyphIDs b paint bytes).2 in
  let U := Z.to_N (countGlyphs (GetTypefaceOrDefault paint)) in
  let endOfLastGlyph :=
    foldl pt_add origin
          (occurrenceAdvances (FindOrCreateStrikeExclusive paint) U gs) in
  let totalAdvance := pt_sub endOfLastGlyph origin in
  let translation (align : Align) : SkPoint → SkPoint :=
    match align with
    | kLeft_Align => λ pt, pt
    | kCenter_Align => λ pt, pt_sub pt (pt_scale totalAdvance SK_ScalarHalf)
    | kRight_Align => λ pt, pt_sub pt totalAdvance
    end in
  ∃ bL runL,
    prepareDrawText b (setTextAlign kLeft_Align paint) bytes origin = Some bL ∧
    useGlyphRun bL = Some runL ∧
    positions runL = penPositions origin
                       (occurrenceAdvances (FindOrCreateStrikeExclusive paint) U gs) ∧
    ∀ align, ∃ bA runA,
      prepareDrawText b (setTextAlign align paint) bytes origin = Some bA ∧
      useGlyphRun bA = Some runA ∧
      positions runA = translation align <$> positions runL ∧
      temporaryShuntGlyphIDs runA = temporaryShuntGlyphIDs runL ∧
      uniqueGlyphIDs runA = uniqueGlyphIDs runL ∧
      uniqueGlyphIDIndices runA = uniqueGlyphIDIndices runL.
Proof.
  intros Hok Htf Hstrike Hne Hpos gs U endOfLastGlyph totalAdvance translation.
  assert (Hrun : ∀ align, ∃ b',
            prepareDrawText b (setTextAlign align paint) bytes origin = Some b' ∧
            useGlyphRun b' =
            Some {| uniqueGlyphIDIndices := dedupIndices U gs;
                    positions :=
                      translation align
                        <$> penPositions origin
                              (occurrenceAdvances (FindOrCreateStrikeExclusive paint) U gs);
                    temporaryShuntGlyphIDs := gs;
                    uniqueGlyphIDs := dedupIDs U gs;
                    text := [];
                    clusters := [];
                    runPaint := setTextAlign kLeft_Align
                                  (setTextEncoding kGlyphID_TextEncoding
                                     (setTextAlign align paint)) |}).
  { intros align.
    destruct (prepareDrawText_run b (setTextAlign align paint) bytes origin Hok)
      as (b' & Hcall & _ & Hslot).
    - by rewrite textToGlyphIDs_align.
    - by rewrite Htf.
    - exists b'. split; [exact Hcall|].
      rewrite Hslot, textToGlyphIDs_align, Htf, Hstrike by done.
      fold gs U. do 2 f_equal.
      unfold translation, totalAdvance, endOfLastGlyph, alignmentShift.
      destruct align; cbn [getTextAlign setTextAlign].
      + by rewrite decide_False by (intros Hc; by apply Hc).
      + by rewrite !decide_True by done.
      + by rewrite decide_True, decide_False by done. }
  destruct (Hrun kLeft_Align) as (bL & HcallL & HslotL).
  do 2 eexists. split; [exact HcallL|]. split; [exact HslotL|].
  cbn. split; [by rewrite list_fmap_id|].
  intros align. destruct (Hrun align) as (bA & HcallA & HslotA).
  do 2 eexists. split; [exact HcallA|]. split; [exact HslotA|].
  cbn. by rewrite list_fmap_id.
Qed.

End LayoutClaims.

(** * The theorems on concrete inputs *)

Ltac u16_list := repeat (constructor; [unfold is_u16; lia|]); constructor.

Lemma uniquifyGlyphIDs_dedup_correct_witness :
  set_ok newGlyphIDSet ∧ 1 ≤ 10 ∧ Forall is_u16 [3; 7; 3; 12; 0] ∧
  ∃ r, @uniquifyGlyphIDs exampleBuild newGlyphIDSet 10 [3; 7; 3; 12; 0]
         [9; 9; 9; 9; 9] [8; 8; 8; 8; 8] = Some r ∧
       NoDup (uniqueSpan r) ∧
       (length (uniqueSpan r) ≤ 5)%nat ∧
       length (denseIndicesBuffer r) = 5%nat.
Proof.
  assert (Hs : set_ok newGlyphIDSet) by reflexivity.
  assert (HU : 1 ≤ 10) by lia.
  assert (Hgs : Forall is_u16 [3; 7; 3; 12; 0]) by u16_list.
  split; [exact Hs|]. split; [exact HU|]. split; [exact Hgs|].
  destruct (@uniquifyGlyphIDs_dedup_correct exampleBuild newGlyphIDSet 10
              [3; 7; 3; 12; 0] [9; 9; 9; 9; 9] [8; 8; 8; 8; 8] Hs HU Hgs)
    as (r & Hcall & Hnd & Hlen & _ & Hdlen & _); [cbn; lia|cbn; lia|].
  exists r. split; [exact Hcall|]. split; [exact Hnd|].
  split; [exact Hlen|exact Hdlen].
Defined.

Lemma uniquifyGlyphIDs_first_occurrence_order_witness :
  set_ok newGlyphIDSet ∧ 1 ≤ 10 ∧ Forall is_u16 [3; 7; 3; 12; 0] ∧
  ∃ r, @uniquifyGlyphIDs exampleBuild newGlyphIDSet 10 [3; 7; 3; 12; 0]
         [9; 9; 9; 9; 9] [8; 8; 8; 8; 8] = Some r ∧
       uniqueSpan r = first_occurrences (remapGlyphID 10 <$> [3; 7; 3; 12; 0]).
Proof.
  assert (Hs : set_ok newGlyphIDSet) by reflexivity.
  assert (HU : 1 ≤ 10) by lia.
  assert (Hgs : Forall is_u16 [3; 7; 3; 12; 0]) by u16_list.
  split; [exact Hs|]. split; [exact HU|]. split; [exact Hgs|].
  destruct (@uniquifyGlyphIDs_first_occurrence_order exampleBuild newGlyphIDSet 10
              [3; 7; 3; 12; 0] [9; 9; 9; 9; 9] [8; 8; 8; 8; 8] Hs HU Hgs)
    as (r & Hcall & Hspan & _); [cbn; lia|cbn; lia|].
  exists r. split; [exact Hcall|exact Hspan].
Defined.

(** The second call reuses the buffers as the first call left them. *)
Lemma uniquifyGlyphIDs_stale_state_harmless_witness :
  set_ok newGlyphIDSet ∧ 1 ≤ 5000 ∧ 1 ≤ 10 ∧
  Forall is_u16 [4999; 1; 4999] ∧ Forall is_u16 [3; 7; 3] ∧
  ∃ r1 r2 fresh,
    @uniquifyGlyphIDs exampleBuild newGlyphIDSet 5000 [4999; 1; 4999]
      [0; 0; 0] [0; 0; 0] = Some r1 ∧
    @uniquifyGlyphIDs exampleBuild (setAfter r1) 10 [3; 7; 3]
      [4999; 1; 0] [0; 1; 0] = Some r2 ∧
    @uniquifyGlyphIDs exampleBuild newGlyphIDSet 10 [3; 7; 3]
      [4999; 1; 0] [0; 1; 0] = Some fresh ∧
    uniqueSpan r2 = uniqueSpan fresh ∧
    denseIndicesBuffer r2 = denseIndicesBuffer fresh.
Proof.
  assert (Hs : set_ok newGlyphIDSet) by reflexivity.
  assert (HU1 : 1 ≤ 5000) by lia.
  assert (HU2 : 1 ≤ 10) by lia.
  assert (H1 : Forall is_u16 [4999; 1; 4999]) by u16_list.
  assert (H2 : Forall is_u16 [3; 7; 3]) by u16_list.
  do 5 (split; [assumption|]).
  destruct (@uniquifyGlyphIDs_stale_state_harmless exampleBuild newGlyphIDSet
              5000 10 [4999; 1; 4999] [0; 0; 0] [0; 0; 0] [3; 7; 3]
              [4999; 1; 0] [0; 1; 0] Hs HU1 HU2 H1 H2)
    as (r1 & r2 & fresh & Hc1 & Hc2 & Hc3 & Hspan & _ & Hdense);
    [cbn; lia|cbn; lia|cbn; lia|cbn; lia|].
  exists r1, r2, fresh. by repeat split.
Defined.

Lemma uniquifyGlyphIDs_shrinks_to_4096_witness :
  set_ok newGlyphIDSet ∧ 4096 < 5000 ∧ Forall is_u16 [4999; 1; 4999] ∧
  ∃ r, @uniquifyGlyphIDs exampleBuild newGlyphIDSet 5000 [4999; 1; 4999]
         [0; 0; 0] [0; 0; 0] = Some r ∧
       fUniverseToUniqueSize (setAfter r) = 4096.
Proof.
  assert (Hs : set_ok newGlyphIDSet) by reflexivity.
  assert (HU : 4096 < 5000) by lia.
  assert (Hgs : Forall is_u16 [4999; 1; 4999]) by u16_list.
  do 3 (split; [assumption|]).
  destruct (@uniquifyGlyphIDs_shrinks_to_4096 exampleBuild newGlyphIDSet 5000
              [4999; 1; 4999] [0; 0; 0] [0; 0; 0] Hs HU Hgs)
    as (_ & r & Hcall & Hsize & _); [cbn; lia|cbn; lia|].
  exists r. split; [exact Hcall|exact Hsize].
Defined.

Example uniquify_reuse_example :
  ∃ r1, @uniquifyGlyphIDs exampleBuild newGlyphIDSet 5000 [4999; 1; 4999]
          [0; 0; 0] [0; 0; 0] = Some r1 ∧
        uniqueGlyphIDsBuffer r1 = [4999; 1; 0] ∧
        denseIndicesBuffer r1 = [0; 1; 0] ∧
        uniqueSpan r1 = [4999; 1] ∧
        fUniverseToUniqueSize (setAfter r1) = 4096.
Proof. eexists. split; [vm_compute; reflexivity|]. by repeat split. Qed.

(** Out-of-range ids ([12], with 10 glyphs) share the slot of id 0. *)
Example uniquify_remap_example :
  @uniquifyGlyphIDs exampleBuild newGlyphIDSet 10 [3; 7; 3; 12; 0]
    [9; 9; 9; 9; 9] [8; 8; 8; 8; 8]
  = Some {| setAfter := {| fUniverseToUniqueSize := 10;
                           fUniverseToUnique := [2; 0; 0; 0; 0; 0; 0; 1; 0; 0] |};
            uniqueGlyphIDsBuffer := [3; 7; 0; 9; 9];
            denseIndicesBuffer := [0; 1; 0; 2; 2];
            uniqueSpan := [3; 7; 0] |}.
Proof. vm_compute. reflexivity. Qed.

(** C8 does not hold of [uniquifyGlyphIDs] itself: on a freshly
    constructed set, a call with universe size 0 and one glyph id reads
    cell 0 of an empty map and faults, in debug and in release builds. *)
Lemma uniquifyGlyphIDs_zero_universe_faults :
  @uniquifyGlyphIDs {| SK_DEBUG := true |} newGlyphIDSet 0 [5] [0] [0] = None ∧
  @uniquifyGlyphIDs {| SK_DEBUG := false |} newGlyphIDSet 0 [5] [0] [0] = None.
Proof. split; vm_compute; reflexivity. Qed.

Lemma addDenseAndUnique_guards_zero_universe_witness :
  countGlyphs (@GetTypefaceOrDefault _ exampleCollaborators noGlyphsPaint) = 0%Z ∧
  @addDenseAndUnique exampleBuild _ exampleCollaborators newBuilder noGlyphsPaint [5]
  = Some (newBuilder, []).
Proof.
  assert (Hz : countGlyphs (@GetTypefaceOrDefault _ exampleCollaborators noGlyphsPaint)
               = 0%Z) by reflexivity.
  split; [exact Hz|].
  exact (@addDenseAndUnique_guards_zero_universe exampleBuild _ exampleCollaborators
           newBuilder noGlyphsPaint [5] Hz).
Defined.

(** C3 does not hold of [prepareDrawText]: with a typeface without
    glyphs, a three-glyph text produces no run. *)
Lemma zero_universe_prepareDrawText_no_run :
  (@textToGlyphIDs _ exampleCollaborators newBuilder noGlyphsPaint exampleText).2
    = [3; 7; 3] ∧
  countGlyphs (@GetTypefaceOrDefault _ exampleCollaborators noGlyphsPaint) = 0%Z ∧
  ¬ ∃ b' run,
      @prepareDrawText exampleBuild _ exampleCollaborators newBuilder noGlyphsPaint
        exampleText exampleOrigin = Some b' ∧
      useGlyphRun b' = Some run.
Proof.
  split; [vm_compute; reflexivity|]. split; [reflexivity|].
  intros (b' & run & Hcall & Hrun).
  vm_compute in Hcall. injection Hcall as <-. discriminate Hrun.
Qed.

Lemma zero_universe_runs_witness :
  builder_ok (H := exampleScalar) newBuilder ∧
  (@textToGlyphIDs _ exampleCollaborators newBuilder noGlyphsPaint exampleText).2 ≠ [] ∧
  countGlyphs (@GetTypefaceOrDefault _ exampleCollaborators noGlyphsPaint) = 0%Z ∧
  (∃ b', @prepareDrawText exampleBuild _ exampleCollaborators newBuilder noGlyphsPaint
           exampleText exampleOrigin = Some b' ∧
         useGlyphRun b' = None) ∧
  (∃ b' run, @prepareDrawPosText exampleBuild _ exampleCollaborators newBuilder
           noGlyphsPaint exampleText [exampleOrigin; exampleOrigin; exampleOrigin]
           = Some b' ∧
         useGlyphRun b' = Some run ∧ uniqueGlyphIDs run = []).
Proof.
  assert (Hok : builder_ok (H := exampleScalar) newBuilder) by (by repeat split).
  assert (Hne : (@textToGlyphIDs _ exampleCollaborators newBuilder noGlyphsPaint
                   exampleText).2 ≠ []) by (vm_compute; discriminate).
  assert (Hz : countGlyphs (@GetTypefaceOrDefault _ exampleCollaborators noGlyphsPaint)
               = 0%Z) by reflexivity.
  do 3 (split; [assumption|]).
  destruct (@zero_universe_runs exampleBuild _ exampleCollaborators newBuilder
              noGlyphsPaint exampleText exampleOrigin
              [0%Q; 0%Q; 0%Q] 0%Q [exampleOrigin; exampleOrigin; exampleOrigin]
              Hok Hne Hz)
    as ((b1 & Hc1 & Hr1 & _) & _ & (b3 & run3 & Hc3 & Hr3 & _ & Hu3 & _));
    [vm_compute; lia|vm_compute; lia|].
  split; [by exists b1|]. by exists b3, run3.
Defined.

Lemma prepare_empty_input_leaves_builder_witness :
  (@textToGlyphIDs _ exampleCollaborators newBuilder (examplePaint kLeft_Align) []).2 = [] ∧
  @prepareDrawText exampleBuild _ exampleCollaborators newBuilder
    (examplePaint kLeft_Align) [] exampleOrigin = Some newBuilder ∧
  @prepareDrawPosTextH exampleBuild _ exampleCollaborators newBuilder
    (examplePaint kLeft_Align) [] [] 0%Q = Some newBuilder ∧
  @prepareDrawPosText exampleBuild _ exampleCollaborators newBuilder
    (examplePaint kLeft_Align) [] [] = Some newBuilder.
Proof.
  assert (Hnil : (@textToGlyphIDs _ exampleCollaborators newBuilder
                    (examplePaint kLeft_Align) []).2 = []) by reflexivity.
  split; [exact Hnil|].
  exact (@prepare_empty_input_leaves_builder exampleBuild _ exampleCollaborators
           newBuilder (examplePaint kLeft_Align) [] exampleOrigin [] 0%Q []
           (or_intror Hnil)).
Defined.

Lemma positioned_runs_keep_positions_witness :
  builder_ok (H := exampleScalar) newBuilder ∧
  (@textToGlyphIDs _ exampleCollaborators newBuilder (examplePaint kLeft_Align)
     exampleText).2 ≠ [] ∧
  (∃ b' run, @prepareDrawPosTextH exampleBuild _ exampleCollaborators newBuilder
           (examplePaint kLeft_Align) exampleText [1%Q; 2%Q; 5%Q] 9%Q = Some b' ∧
         useGlyphRun b' = Some run ∧
         positions run = [Make (H := exampleScalar) 1%Q 9%Q;
                          Make (H := exampleScalar) 2%Q 9%Q;
                          Make (H := exampleScalar) 5%Q 9%Q] ∧
         uniqueGlyphIDs run = [] ∧ uniqueGlyphIDIndices run = []).
Proof.
  assert (Hok : builder_ok (H := exampleScalar) newBuilder) by (by repeat split).
  assert (Hne : (@textToGlyphIDs _ exampleCollaborators newBuilder
                   (examplePaint kLeft_Align) exampleText).2 ≠ [])
    by (vm_compute; discriminate).
  do 2 (split; [assumption|]).
  destruct (@positioned_runs_keep_positions exampleBuild _ exampleCollaborators
              newBuilder (examplePaint kLeft_Align) exampleText
              [1%Q; 2%Q; 5%Q] 9%Q [exampleOrigin; exampleOrigin; exampleOrigin]
              Hok Hne)
    as ((b' & run & Hcall & Hrun & _ & Hpos & Hu & Hi) & _);
    [reflexivity|reflexivity|].
  exists b', run. by repeat split.
Defined.

Lemma prepareDrawText_advance_layout_witness :
  builder_ok (H := exampleScalar) newBuilder ∧
  getTextAlign (examplePaint kLeft_Align) = kLeft_Align ∧
  (@textToGlyphIDs _ exampleCollaborators newBuilder (examplePaint kLeft_Align)
     exampleText).2 ≠ [] ∧
  (0 < countGlyphs (@GetTypefaceOrDefault _ exampleCollaborators
                      (examplePaint kLeft_Align)))%Z ∧
  ∃ b' run, @prepareDrawText exampleBuild _ exampleCollaborators newBuilder
              (examplePaint kLeft_Align) exampleText exampleOrigin = Some b' ∧
            useGlyphRun b' = Some run ∧
            length (positions run) = 3%nat.
Proof.
  assert (Hok : builder_ok (H := exampleScalar) newBuilder) by (by repeat split).
  assert (Hleft : getTextAlign (examplePaint kLeft_Align) = kLeft_Align)
    by reflexivity.
  assert (Hne : (@textToGlyphIDs _ exampleCollaborators newBuilder
                   (examplePaint kLeft_Align) exampleText).2 ≠ [])
    by (vm_compute; discriminate).
  assert (Hpos : (0 < countGlyphs (@GetTypefaceOrDefault _ exampleCollaborators
                                     (examplePaint kLeft_Align)))%Z)
    by reflexivity.
  do 4 (split; [assumption|]).
  destruct (@prepareDrawText_advance_layout exampleBuild _ exampleCollaborators
              newBuilder (examplePaint kLeft_Align) exampleText exampleOrigin
              Hok Hleft Hne Hpos)
    as (b' & run & advances & perGlyph & Hcall & Hrun
        & _ & _ & _ & _ & _ & _ & Hlen & _).
  exists b', run. by repeat split.
Defined.

(** The layout of glyphs [3; 7; 3] from the origin, with advances
    [a3 = (4,0)] and [a7 = (8,0)] fetched once per unique id:
    [(0,0); (a3,0); (a3+a7,0)]. *)
Example advance_layout_example :
  ∃ b' run, @prepareDrawText exampleBuild _ exampleCollaborators newBuilder
              (examplePaint kLeft_Align) exampleText exampleOrigin = Some b' ∧
            useGlyphRun b' = Some run ∧
            uniqueGlyphIDs run = [3; 7] ∧
            uniqueGlyphIDIndices run = [0; 1; 0] ∧
            positions run = [Make (H := exampleScalar) 0%Q 0%Q;
                             Make (H := exampleScalar) 4%Q 0%Q;
                             Make (H := exampleScalar) 12%Q 0%Q].
Proof.
  do 2 eexists. split; [vm_compute; reflexivity|]. by repeat split.
Qed.

Lemma prepareDrawText_alignment_translates_witness :
  builder_ok (H := exampleScalar) newBuilder ∧
  (∀ a, @GetTypefaceOrDefault _ exampleCollaborators
          (setTextAlign a (examplePaint kLeft_Align))
        = @GetTypefaceOrDefault _ exampleCollaborators (examplePaint kLeft_Align)) ∧
  (∀ a, @FindOrCreateStrikeExclusive _ exampleCollaborators
          (setTextAlign a (examplePaint kLeft_Align))
        = @FindOrCreateStrikeExclusive _ exampleCollaborators
            (examplePaint kLeft_Align)) ∧
  ∃ bL runL bC runC,
    @prepareDrawText exampleBuild _ exampleCollaborators newBuilder
      (setTextAlign kLeft_Align (examplePaint kLeft_Align)) exampleText exampleOrigin
      = Some bL ∧
    useGlyphRun bL = Some runL ∧
    @prepareDrawText exampleBuild _ exampleCollaborators newBuilder
      (setTextAlign kCenter_Align (examplePaint kLeft_Align)) exampleText exampleOrigin
      = Some bC ∧
    useGlyphRun bC = Some runC ∧
    length (positions runC) = length (positions runL).
Proof.
  assert (Hok : builder_ok (H := exampleScalar) newBuilder) by (by repeat split).
  assert (Htf : ∀ a, @GetTypefaceOrDefault _ exampleCollaborators
                       (setTextAlign a (examplePaint kLeft_Align))
                     = @GetTypefaceOrDefault _ exampleCollaborators
                         (examplePaint kLeft_Align))
    by (intros a; reflexivity).
  assert (Hst : ∀ a, @FindOrCreateStrikeExclusive _ exampleCollaborators
                       (setTextAlign a (examplePaint kLeft_Align))
                     = @FindOrCreateStrikeExclusive _ exampleCollaborators
                         (examplePaint kLeft_Align))
    by (intros a; reflexivity).
  do 3 (split; [assumption|]).
  destruct (@prepareDrawText_alignment_translates exampleBuild _ exampleCollaborators
              newBuilder (examplePaint kLeft_Align) exampleText exampleOrigin
              Hok Htf Hst)
    as (bL & runL & HcallL & HrunL & _ & Hall);
    [vm_compute; discriminate|reflexivity|].
  destruct (Hall kCenter_Align) as (bC & runC & HcallC & HrunC & Hpos & _).
  exists bL, runL, bC, runC. repeat split; try assumption.
  rewrite Hpos. apply length_fmap.
Defined.

(** The same text, left, centered and right aligned: the total advance is
    [(16,0)], so the centered run is moved by [(-8,0)] and the right-aligned
    one by [(-16,0)]. *)
Example alignment_example :
  ∃ bL runL bC runC bR runR,
    @prepareDrawText exampleBuild _ exampleCollaborators newBuilder
      (examplePaint kLeft_Align) exampleText exampleOrigin = Some bL ∧
    @prepareDrawText exampleBuild _ exampleCollaborators newBuilder
      (examplePaint kCenter_Align) exampleText exampleOrigin = Some bC ∧
    @prepareDrawText exampleBuild _ exampleCollaborators newBuilder
      (examplePaint kRight_Align) exampleText exampleOrigin = Some bR ∧
    useGlyphRun bL = Some runL ∧ useGlyphRun bC = Some runC ∧
    useGlyphRun bR = Some runR ∧
    Forall2 (λ p q : @SkPoint exampleScalar,
               Qeq (fX p) (fX q - 8)%Q ∧ Qeq (fY p) (fY q))
            (positions runC) (positions runL) ∧
    Forall2 (λ p q : @SkPoint exampleScalar,
               Qeq (fX p) (fX q - 16)%Q ∧ Qeq (fY p) (fY q))
            (positions runR) (positions runL).
Proof.
  do 6 eexists.
  split; [vm_compute; reflexivity|].
  split; [vm_compute; reflexivity|].
  split; [vm_compute; reflexivity|].
  split; [reflexivity|]. split; [reflexivity|]. split; [reflexivity|].
  split; repeat (constructor; [split; reflexivity|]); constructor.
Qed.

(** * Further properties of the set *)

Section SparseSet.
Context `{BuildConfig}.

Lemma store_inv {A} (buf buf' : list A) (i : N) (v : A) :
  store buf i v = Some buf' → buf' = <[N.to_nat i := v]> buf.
Proof. unfold store. destruct (decide _); [|done]. by intros [= <-]. Qed.

(** An iteration writes no map cell but that of the id it looks up. *)
Lemma uniquify_iter_frame (universeSize : N) (st st' : UniquifyLoop) (g : N) :
  uniquify_iter universeSize st g = Some st' →
  ∀ j, j ≠ N.to_nat (remapGlyphID universeSize g) →
       loopUniverseToUnique st' !! j = loopUniverseToUnique st !! j.
Proof.
  intros Hit j Hj. unfold uniquify_iter in Hit. cbn zeta in Hit.
  destruct (load (loopUniverseToUnique st) (remapGlyphID universeSize g))
    as [ui|]; [|done].
  cbn [mbind option_bind] in Hit.
  destruct (if uniqueSize st <=? ui then Some true else _) as [[|]|];
    cbn [mbind option_bind] in Hit; [| |done].
  - destruct (SkTo_uint16 (uniqueSize st)) as [d|]; [|done].
    cbn [mbind option_bind] in Hit.
    destruct (store (loopUniqueGlyphIDs st) _ _) as [u|]; [|done].
    cbn [mbind option_bind] in Hit.
    destruct (store (loopUniverseToUnique st) _ _) as [m|] eqn:Hm; [|done].
    cbn [mbind option_bind] in Hit.
    destruct (store (loopDenseIndices st) _ _) as [dn|]; [|done].
    cbn [mbind option_bind] in Hit. injection Hit as <-. cbn.
    apply store_inv in Hm as ->.
    by rewrite list_lookup_insert_ne.
  - destruct (store (loopDenseIndices st) _ _) as [dn|]; [|done].
    cbn [mbind option_bind] in Hit. by injection Hit as <-.
Qed.

Lemma uniquify_loop_frame (universeSize : N) (gs : list N) :
  ∀ st st', uniquify_loop universeSize gs st = Some st' →
    ∀ j, (∀ g, g ∈ gs → j ≠ N.to_nat (remapGlyphID universeSize g)) →
         loopUniverseToUnique st' !! j = loopUniverseToUnique st !! j.
Proof.
  induction gs as [|g gs IH]; intros st st' Hloop j Hj.
  - by injection Hloop as <-.
  - cbn [uniquify_loop] in Hloop.
    destruct (uniquify_iter universeSize st g) as [st1|] eqn:Hit; [|done].
    cbn [mbind option_bind] in Hloop.
    rewrite (IH _ _ Hloop) by (intros g' Hg'; apply Hj; by right).
    apply (uniquify_iter_frame _ _ _ _ Hit). apply Hj. by left.
Qed.

Lemma uniquify_loop_inv_bounds (universeSize : N) (mlen : nat) (ub db gs : list N) :
  Forall is_u16 gs →
  Forall (λ g, (N.to_nat (remapGlyphID universeSize g) < mlen)%nat) gs →
  ∀ pre st,
    loop_inv mlen ub db pre st →
    Forall is_u16 pre →
    (length pre + length gs ≤ length ub)%nat →
    (length pre + length gs ≤ length db)%nat →
    ∃ st', uniquify_loop universeSize gs st = Some st' ∧
           loop_inv mlen ub db (pre ++ (remapGlyphID universeSize <$> gs)) st'.
Proof.
  intros Hgs. induction Hgs as [|g gs Hg Hgs IH];
    intros Hbound pre st Hinv Hpre Hub Hdb.
  - exists st. simpl. by rewrite app_nil_r.
  - cbn [length] in Hub, Hdb. apply Forall_cons in Hbound as [Hlt Hbound].
    destruct (uniquify_iter_inv universeSize mlen ub db pre st g)
      as (st1 & Hstep & Hinv1); try done; try lia.
    destruct (IH Hbound (pre ++ [remapGlyphID universeSize g]) st1)
      as (st2 & Hrest & Hinv2); try done.
    + apply Forall_app. split; [done|].
      apply Forall_singleton. by apply remapGlyphID_u16.
    + rewrite length_app. cbn [length]. lia.
    + rewrite length_app. cbn [length]. lia.
    + exists st2. cbn [uniquify_loop]. rewrite Hstep. cbn [mbind option_bind].
      split; [done|].
      rewrite fmap_cons. by rewrite <- app_assoc in Hinv2.
Qed.

(** The call in closed form, with what it leaves in the map: the call is
    in bounds as soon as the map has a cell once grown (or there is nothing
    to look up); each unique id is mapped to its position; the cells of ids
    that do not occur are as after the growth step. *)
Lemma uniquifyGlyphIDs_spec_map (s : SkGlyphIDSet) (universeSize : N)
    (gs ub db : list N) :
  set_ok s →
  gs = [] ∨ 0 < N.max (fUniverseToUniqueSize s) universeSize →
  Forall is_u16 gs →
  (length gs ≤ length ub)%nat → (length gs ≤ length db)%nat →
  ∃ m, length m = N.to_nat (N.max (fUniverseToUniqueSize s) universeSize) ∧
    (∀ k g, dedupIDs universeSize gs !! k = Some g →
            m !! N.to_nat g = Some (N.of_nat k)) ∧
    (∀ j, (∀ g, g ∈ gs → j ≠ N.to_nat (remapGlyphID universeSize g)) →
          m !! j = fUniverseToUnique (growUniverse universeSize s) !! j) ∧
    uniquifyGlyphIDs s universeSize gs ub db =
    Some {| setAfter :=
              shrinkUniverse
                {| fUniverseToUniqueSize := N.max (fUniverseToUniqueSize s) universeSize;
                   fUniverseToUnique := m |};
            uniqueGlyphIDsBuffer :=
              dedupIDs universeSize gs ++ drop (length (dedupIDs universeSize gs)) ub;
            denseIndicesBuffer :=
              dedupIndices universeSize gs ++ drop (length gs) db;
            uniqueSpan := dedupIDs universeSize gs |}.
Proof.
  intros Hs Hbound Hgs Hub Hdb.
  destruct (growUniverse_ok universeSize s Hs) as [Hgrow Hsize].
  unfold set_ok in Hgrow.
  set (st0 := {| loopUniverseToUnique := fUniverseToUnique (growUniverse universeSize s);
                 loopUniqueGlyphIDs := ub;
                 loopDenseIndices := db;
                 uniqueSize := 0;
                 denseIndicesCursor := 0 |}).
  destruct (uniquify_loop_inv_bounds universeSize
              (N.to_nat (N.max (fUniverseToUniqueSize s) universeSize))
              ub db gs Hgs) with (pre := @nil N) (st := st0)
    as (st & Hloop & Hinv); try done.
  { destruct Hbound as [->|Hpos]; [constructor|].
    apply Forall_forall. intros g _. unfold remapGlyphID, kUndefGlyph.
    destruct (N.leb_spec universeSize g); lia. }
  { unfold loop_inv, st0; cbn. rewrite !drop_0, Hgrow, Hsize.
    repeat split; try done. }
  rewrite app_nil_l in Hinv.
  destruct Hinv as (Hus & Hc & Hu & Hd & Hm & Hmap).
  exists (loopUniverseToUnique st). split; [done|].
  split; [exact Hmap|].
  split.
  { intros j Hj. by rewrite (uniquify_loop_frame _ _ _ _ Hloop j Hj). }
  unfold uniquifyGlyphIDs. cbn zeta. fold st0. rewrite Hloop.
  cbn [mbind option_bind].
  rewrite Hsize, Hus, Nat2N.id, Hu, Hd.
  rewrite take_app_length, length_fmap.
  unfold dedupIDs, dedupIndices. f_equal. f_equal. f_equal.
  by rewrite <- list_fmap_compose.
Qed.

End SparseSet.

Lemma index_of_NoDup_seq (l : list N) :
  NoDup l → (λ g, index_of g l) <$> l = seq 0 (length l).
Proof.
  intros Hnd. apply list_eq. intros i. rewrite list_lookup_fmap.
  destruct (l !! i) as [g|] eqn:Hi; cbn.
  - rewrite (index_of_NoDup_lookup l i g Hnd Hi).
    symmetry. apply lookup_seq. split; [done|].
    apply lookup_lt_is_Some. eauto.
  - symmetry. apply lookup_seq_ge. by apply lookup_ge_None.
Qed.

Lemma remapGlyphID_in_range (universeSize : N) (gs : list N) :
  Forall (λ g, g < universeSize) gs → remapGlyphID universeSize <$> gs = gs.
Proof.
  intros Hall. rewrite <- (list_fmap_id gs) at 2.
  apply Forall_fmap_ext_1. eapply Forall_impl; [exact Hall|].
  intros g Hg. cbn. rewrite remapGlyphID_spec. by rewrite decide_True.
Qed.

Lemma dedup_distinct_input (universeSize : N) (gs : list N) :
  NoDup gs → Forall (λ g, g < universeSize) gs →
  dedupIDs universeSize gs = gs ∧
  dedupIndices universeSize gs = N.of_nat <$> seq 0 (length gs).
Proof.
  intros Hnd Hall.
  assert (Hids : dedupIDs universeSize gs = gs).
  { unfold dedupIDs. rewrite remapGlyphID_in_range by done.
    by apply first_occurrences_NoDup_id. }
  split; [done|].
  unfold dedupIndices. rewrite Hids.
  rewrite <- (index_of_NoDup_seq gs Hnd), <- list_fmap_compose.
  apply Forall_fmap_ext_1. eapply Forall_impl; [exact Hall|].
  intros g Hg. cbn. rewrite remapGlyphID_spec. by rewrite decide_True.
Qed.

Lemma first_occurrences_replicate (n : nat) (x : N) :
  first_occurrences (replicate (S n) x) = [x].
Proof.
  induction n as [|n IH]; [done|].
  change (replicate (S (S n)) x) with (x :: replicate (S n) x).
  cbn [first_occurrences]. rewrite IH.
  by rewrite filter_cons_False by (intros Hx; by apply Hx).
Qed.

Section SparseSetTheorems.
Context `{BuildConfig}.

(** X1.  A sequence without duplicates whose ids are all inside the
    universe is returned as it is, with dense indices 0, 1, 2, ... *)
Theorem uniquifyGlyphIDs_distinct_input (s : SkGlyphIDSet) (universeSize : N)
    (glyphIDs ub db : list N) :
  set_ok s → NoDup glyphIDs →
  Forall (λ g, g < universeSize) glyphIDs → Forall is_u16 glyphIDs →
  (length glyphIDs ≤ length ub)%nat → (length glyphIDs ≤ length db)%nat →
  ∃ r, uniquifyGlyphIDs s universeSize glyphIDs ub db = Some r ∧
       uniqueSpan r = glyphIDs ∧
       take (length glyphIDs) (denseIndicesBuffer r)
       = N.of_nat <$> seq 0 (length glyphIDs).
Proof.
  intros Hs Hnd Hin Hgs Hub Hdb.
  destruct (uniquifyGlyphIDs_spec_map s universeSize glyphIDs ub db)
    as (m & _ & _ & _ & Hcall); try done.
  { destruct glyphIDs as [|g gs]; [by left|right].
    apply Forall_cons in Hin as [Hg _]. lia. }
  destruct (dedup_distinct_input universeSize glyphIDs Hnd Hin) as [Hids Hidx].
  eexists. split; [exact Hcall|]. cbn [uniqueSpan denseIndicesBuffer].
  split; [done|].
  rewrite Hidx. apply take_app_length'.
  by rewrite length_fmap, List.length_seq.
Qed.

(** X2.  Deduplicating the unique ids a call returned, on the same set,
    gives them back unchanged with dense indices 0, 1, 2, ... *)
Theorem uniquifyGlyphIDs_unique_ids_are_fixed (s : SkGlyphIDSet)
    (universeSize : N) (glyphIDs ub db ub2 db2 : list N) :
  set_ok s → 1 ≤ universeSize → Forall is_u16 glyphIDs →
  (length glyphIDs ≤ length ub)%nat → (length glyphIDs ≤ length db)%nat →
  (length glyphIDs ≤ length ub2)%nat → (length glyphIDs ≤ length db2)%nat →
  ∃ r1 r2,
    uniquifyGlyphIDs s universeSize glyphIDs ub db = Some r1 ∧
    uniquifyGlyphIDs (setAfter r1) universeSize (uniqueSpan r1) ub2 db2 = Some r2 ∧
    uniqueSpan r2 = uniqueSpan r1 ∧
    take (length (uniqueSpan r1)) (denseIndicesBuffer r2)
    = N.of_nat <$> seq 0 (length (uniqueSpan r1)).
Proof.
  intros Hs HU Hgs Hub Hdb Hub2 Hdb2.
  destruct (uniquifyGlyphIDs_spec s universeSize glyphIDs ub db)
    as (m1 & Hm1 & Hcall1); try done; try lia.
  set (F := dedupIDs universeSize glyphIDs) in *.
  pose proof (dedupIDs_length universeSize glyphIDs) as HF. fold F in HF.
  assert (Hnd : NoDup F) by apply NoDup_first_occurrences.
  assert (Hin : Forall (λ g, g < universeSize) F).
  { apply Forall_forall. intros g Hg.
    apply elem_of_first_occurrences, list_elem_of_fmap in Hg as (g0 & -> & _).
    apply remapGlyphID_lt. lia. }
  assert (Hu16 : Forall is_u16 F).
  { apply Forall_forall. intros g Hg.
    apply elem_of_first_occurrences, list_elem_of_fmap in Hg as (g0 & -> & Hg0).
    apply remapGlyphID_u16. rewrite Forall_forall in Hgs. by apply Hgs. }
  assert (Hs1 : set_ok (shrinkUniverse
                  {| fUniverseToUniqueSize := N.max (fUniverseToUniqueSize s) universeSize;
                     fUniverseToUnique := m1 |}))
    by (by apply shrinkUniverse_ok).
  destruct (uniquifyGlyphIDs_spec _ universeSize F ub2 db2 Hs1)
    as (m2 & Hm2 & Hcall2); try done; try lia.
  destruct (dedup_distinct_input universeSize F Hnd Hin) as [Hids Hidx].
  do 2 eexists. split; [exact Hcall1|]. cbn [setAfter uniqueSpan].
  split; [exact Hcall2|]. cbn [uniqueSpan denseIndicesBuffer].
  split; [done|].
  rewrite Hidx. apply take_app_length'.
  by rewrite length_fmap, List.length_seq.
Qed.

(** X3.  After a call that stays within the 4096-entry ceiling, the map
    inverts the returned span: the cell of the [k]-th unique id holds
    [k]. *)
Theorem uniquifyGlyphIDs_map_inverts_span (s : SkGlyphIDSet) (universeSize : N)
    (glyphIDs ub db : list N) :
  set_ok s → 1 ≤ universeSize →
  N.max (fUniverseToUniqueSize s) universeSize ≤ 4096 →
  Forall is_u16 glyphIDs →
  (length glyphIDs ≤ length ub)%nat → (length glyphIDs ≤ length db)%nat →
  ∃ r, uniquifyGlyphIDs s universeSize glyphIDs ub db = Some r ∧
       ∀ k g, uniqueSpan r !! k = Some g →
              load (fUniverseToUnique (setAfter r)) g = Some (N.of_nat k).
Proof.
  intros Hs HU Hmax Hgs Hub Hdb.
  destruct (uniquifyGlyphIDs_spec_map s universeSize glyphIDs ub db)
    as (m & _ & Hmap & _ & Hcall); try done; [right; lia|].
  eexists. split; [exact Hcall|]. cbn [setAfter uniqueSpan].
  intros k g Hk. unfold shrinkUniverse. cbn [fUniverseToUniqueSize].
  destruct (N.ltb_spec 4096 (N.max (fUniverseToUniqueSize s) universeSize)); [lia|].
  cbn [fUniverseToUnique]. by apply Hmap.
Qed.

(** X4.  A call that neither grows nor shrinks the map writes only the
    cells of the ids it returns: every other cell keeps its content. *)
Theorem uniquifyGlyphIDs_writes_only_seen_cells (s : SkGlyphIDSet)
    (universeSize : N) (glyphIDs ub db : list N) :
  set_ok s → 1 ≤ universeSize →
  universeSize ≤ fUniverseToUniqueSize s → fUniverseToUniqueSize s ≤ 4096 →
  Forall is_u16 glyphIDs →
  (length glyphIDs ≤ length ub)%nat → (length glyphIDs ≤ length db)%nat →
  ∃ r, uniquifyGlyphIDs s universeSize glyphIDs ub db = Some r ∧
       fUniverseToUniqueSize (setAfter r) = fUniverseToUniqueSize s ∧
       ∀ g, g ∉ uniqueSpan r →
            load (fUniverseToUnique (setAfter r)) g = load (fUniverseToUnique s) g.
Proof.
  intros Hs HU Hfit Hcap Hgs Hub Hdb.
  destruct (uniquifyGlyphIDs_spec_map s universeSize glyphIDs ub db)
    as (m & _ & _ & Hframe & Hcall); try done; [right; lia|].
  eexists. split; [exact Hcall|]. cbn [setAfter uniqueSpan].
  unfold shrinkUniverse. cbn [fUniverseToUniqueSize].
  destruct (N.ltb_spec 4096 (N.max (fUniverseToUniqueSize s) universeSize)); [lia|].
  cbn [fUniverseToUnique fUniverseToUniqueSize]. split; [lia|].
  intros g Hg. unfold load. rewrite Hframe.
  - unfold growUniverse.
    by destruct (N.ltb_spec (fUniverseToUniqueSize s) universeSize); [lia|].
  - intros g' Hg' Heq. apply N2Nat.inj in Heq. subst g.
    apply Hg, elem_of_first_occurrences, list_elem_of_fmap. by exists g'.
Qed.

(** X5.  Whenever the call is in bounds, it leaves the set consistent and
    with [min (max oldSize universeSize) 4096] cells: never more than 4096,
    and never fewer than before while the set is within that ceiling. *)
Theorem uniquifyGlyphIDs_size_law (s : SkGlyphIDSet) (universeSize : N)
    (glyphIDs ub db : list N) :
  set_ok s →
  glyphIDs = [] ∨ 0 < N.max (fUniverseToUniqueSize s) universeSize →
  Forall is_u16 glyphIDs →
  (length glyphIDs ≤ length ub)%nat → (length glyphIDs ≤ length db)%nat →
  ∃ r, uniquifyGlyphIDs s universeSize glyphIDs ub db = Some r ∧
       set_ok (setAfter r) ∧
       fUniverseToUniqueSize (setAfter r)
       = N.min (N.max (fUniverseToUniqueSize s) universeSize) 4096 ∧
       fUniverseToUniqueSize (setAfter r) ≤ 4096 ∧
       (fUniverseToUniqueSize s ≤ 4096 →
        fUniverseToUniqueSize s ≤ fUniverseToUniqueSize (setAfter r)).
Proof.
  intros Hs Hbound Hgs Hub Hdb.
  destruct (uniquifyGlyphIDs_spec_map s universeSize glyphIDs ub db)
    as (m & Hm & _ & _ & Hcall); try done.
  eexists. split; [exact Hcall|]. cbn [setAfter].
  destruct (shrinkUniverse_ok
              {| fUniverseToUniqueSize := N.max (fUniverseToUniqueSize s) universeSize;
                 fUniverseToUnique := m |} Hm) as [Hok Hsize].
  cbn [fUniverseToUniqueSize] in Hsize.
  split; [done|]. rewrite Hsize. repeat split; lia.
Qed.

(** X6.  Universe size 0 with a non-empty input: on a set without
    storage the first lookup is out of bounds; on a set that has storage
    every id collapses onto the undefined glyph, so the span is [[0]] and
    every dense index is 0. *)
Theorem uniquifyGlyphIDs_zero_universe_edge (s : SkGlyphIDSet)
    (glyphIDs ub db : list N) :
  set_ok s → glyphIDs ≠ [] → Forall is_u16 glyphIDs →
  (length glyphIDs ≤ length ub)%nat → (length glyphIDs ≤ length db)%nat →
  (fUniverseToUniqueSize s = 0 →
   uniquifyGlyphIDs s 0 glyphIDs ub db = None) ∧
  (0 < fUniverseToUniqueSize s →
   ∃ r, uniquifyGlyphIDs s 0 glyphIDs ub db = Some r ∧
        uniqueSpan r = [0] ∧
        take (length glyphIDs) (denseIndicesBuffer r)
        = replicate (length glyphIDs) 0).
Proof.
  intros Hs Hne Hgs Hub Hdb. split.
  - intros Hzero. unfold set_ok in Hs. rewrite Hzero in Hs.
    apply nil_length_inv in Hs.
    destruct glyphIDs as [|g gs]; [done|].
    unfold uniquifyGlyphIDs, growUniverse. rewrite Hzero. cbn [N.ltb N.compare].
    rewrite Hs. reflexivity.
  - intros Hpos.
    destruct (uniquifyGlyphIDs_spec_map s 0 glyphIDs ub db)
      as (m & _ & _ & _ & Hcall); try done; [right; lia|].
    eexists. split; [exact Hcall|]. cbn [uniqueSpan denseIndicesBuffer].
    assert (Hremap : remapGlyphID 0 <$> glyphIDs = replicate (length glyphIDs) 0).
    { clear. induction glyphIDs as [|g gs IH]; [done|].
      rewrite fmap_cons, IH. cbn [length replicate]. f_equal.
      unfold remapGlyphID. by destruct g. }
    assert (Hids : dedupIDs 0 glyphIDs = [0]).
    { unfold dedupIDs. rewrite Hremap.
      destruct glyphIDs as [|g gs]; [done|]. apply first_occurrences_replicate. }
    split; [done|].
    rewrite take_app_length' by (by rewrite dedupIndices_length).
    unfold dedupIndices. rewrite Hids. clear.
    induction glyphIDs as [|g gs IH]; [done|].
    rewrite fmap_cons, IH. cbn [length replicate]. f_equal.
    unfold remapGlyphID. by destruct g.
Qed.

End SparseSetTheorems.

(** * Further properties of the builder *)

Lemma shrinkUniverse_size (s : SkGlyphIDSet) :
  fUniverseToUniqueSize (shrinkUniverse s) = N.min (fUniverseToUniqueSize s) 4096.
Proof.
  unfold shrinkUniverse.
  destruct (N.ltb_spec 4096 (fUniverseToUniqueSize s)); cbn; lia.
Qed.

Lemma uniquifyGlyphIDs_capped `{BuildConfig} (s : SkGlyphIDSet) (universeSize : N)
    (gs ub db : list N) (r : Uniquified) :
  uniquifyGlyphIDs s universeSize gs ub db = Some r →
  fUniverseToUniqueSize (setAfter r) ≤ 4096.
Proof.
  unfold uniquifyGlyphIDs. cbn zeta.
  destruct (uniquify_loop _ _ _) as [st|]; [|done].
  cbn [mbind option_bind]. intros [= <-]. cbn [setAfter].
  rewrite shrinkUniverse_size. lia.
Qed.

Section BuilderFrames.
Context `{BuildConfig} `{Collaborators}.

Lemma addDenseAndUnique_frame (b b' : SkGlyphRunBuilder) (paint : SkPaint)
    (gs u : list N) :
  addDenseAndUnique b paint gs = Some (b', u) →
  draw_frame b b' ∧ fPositions b' = fPositions b ∧
  fScratchAdvances b' = fScratchAdvances b ∧
  fScratchGlyphRun b' = fScratchGlyphRun b.
Proof.
  unfold addDenseAndUnique, draw_frame.
  destruct (empty gs); [by intros [= <- <-]|].
  destruct (0 <? _)%Z; [|by intros [= <- <-]].
  destruct (uniquifyGlyphIDs _ _ _ _ _) as [r|] eqn:Hcall; [|done].
  cbn [mbind option_bind]. intros [= <- <-]. cbn.
  repeat split; try done. intros _. by eapply uniquifyGlyphIDs_capped.
Qed.

Lemma makeGlyphRun_frame (b : SkGlyphRunBuilder) (paint : SkPaint)
    (gs : list N) (ps : list SkPoint) (idx u : list N) (t : list byte) (c : list N) :
  draw_frame b (makeGlyphRun b paint gs ps idx u t c).
Proof. unfold makeGlyphRun, draw_frame. by destruct (empty gs). Qed.

Lemma draw_frame_trans (b1 b2 b3 : SkGlyphRunBuilder) :
  draw_frame b1 b2 → draw_frame b2 b3 → draw_frame b1 b3.
Proof.
  intros (Hm1 & Hg1 & Hu1 & Hs1) (Hm2 & Hg2 & Hu2 & Hs2).
  unfold draw_frame. repeat split; [congruence..|auto].
Qed.

Lemma drawText_frame (b b' : SkGlyphRunBuilder) (paint : SkPaint) (gs : list N)
    (origin : SkPoint) (t : list byte) (c : list N) :
  drawText b paint gs origin t c = Some b' → draw_frame b b'.
Proof.
  unfold drawText.
  destruct (SkASSERT _) as [[]|]; [|done]. cbn [mbind option_bind].
  destruct (addDenseAndUnique b paint gs) as [[b1 u]|] eqn:Hadd; [|done].
  cbn [mbind option_bind].
  apply addDenseAndUnique_frame in Hadd as (Hfr & _).
  destruct (empty u); [by intros [= <-]|].
  destruct (store_span _ _) as [adv|]; [|done]. cbn [mbind option_bind].
  destruct (advance_loop _ _ _ _ _ _) as [[ps e]|]; [|done].
  cbn [mbind option_bind].
  match goal with
  | |- (?m ≫= _) = _ → _ => destruct m as [ps'|]; [|done]
  end.
  cbn [mbind option_bind].
  destruct (span (fPositions _) _) as [rp|]; [|done]. cbn [mbind option_bind].
  destruct (span (fUniqueGlyphIDIndices _) _) as [ri|]; [|done].
  cbn [mbind option_bind].
  intros [= <-].
  eapply draw_frame_trans; [exact Hfr|].
  eapply draw_frame_trans; [|apply makeGlyphRun_frame].
  by unfold draw_frame.
Qed.

Lemma debug_dedup_frame (b b1 : SkGlyphRunBuilder) (paint : SkPaint) (gs : list N) :
  (if SK_DEBUG then fst <$> addDenseAndUnique b paint gs else Some b) = Some b1 →
  draw_frame b b1.
Proof.
  destruct SK_DEBUG; [|by intros [= <-]].
  destruct (addDenseAndUnique b paint gs) as [[b2 u]|] eqn:Hadd; [|done].
  cbn. intros [= <-]. by apply addDenseAndUnique_frame in Hadd as (Hfr & _).
Qed.

Lemma drawPosTextH_frame (b b' : SkGlyphRunBuilder) (paint : SkPaint) (gs : list N)
    (xpos : list SkScalar) (constY : SkScalar) (t : list byte) (c : list N) :
  drawPosTextH b paint gs xpos constY t c = Some b' → draw_frame b b'.
Proof.
  unfold drawPosTextH.
  destruct (SkASSERT _) as [[]|]; [|done]. cbn [mbind option_bind].
  match goal with
  | |- (?m ≫= _) = _ → _ => destruct m as [b1|] eqn:Hdbg; [|done]
  end.
  cbn [mbind option_bind]. apply debug_dedup_frame in Hdbg.
  destruct (span xpos _) as [xs|]; [|done]. cbn [mbind option_bind].
  destruct (store_span _ _) as [ps|]; [|done]. cbn [mbind option_bind].
  destruct (span _ _) as [rp|]; [|done]. cbn [mbind option_bind].
  intros [= <-].
  eapply draw_frame_trans; [exact Hdbg|].
  eapply draw_frame_trans; [|apply makeGlyphRun_frame].
  by unfold draw_frame.
Qed.

Lemma drawPosText_frame (b b' : SkGlyphRunBuilder) (paint : SkPaint) (gs : list N)
    (pos : list SkPoint) (t : list byte) (c : list N) :
  drawPosText b paint gs pos t c = Some b' → draw_frame b b'.
Proof.
  unfold drawPosText.
  destruct (SkASSERT _) as [[]|]; [|done]. cbn [mbind option_bind].
  match goal with
  | |- (?m ≫= _) = _ → _ => destruct m as [b1|] eqn:Hdbg; [|done]
  end.
  cbn [mbind option_bind]. apply debug_dedup_frame in Hdbg.
  destruct (span pos _) as [rp|]; [|done]. cbn [mbind option_bind].
  intros [= <-].
  eapply draw_frame_trans; [exact Hdbg|]. apply makeGlyphRun_frame.
Qed.

End BuilderFrames.

Section PrepareCases.
Context `{BuildConfig} `{Collaborators}.

(** Every way a [prepare*] call can end, with the slot it leaves. *)
Lemma prepare_slot (b : SkGlyphRunBuilder) (paint : SkPaint) (bytes : list byte)
    (origin : SkPoint) (xpos : list SkScalar) (constY : SkScalar)
    (pos : list SkPoint) :
  builder_ok b →
  let gs := (textToGlyphIDs b paint bytes).2 in
  let U := Z.to_N (countGlyphs (GetTypefaceOrDefault paint)) in
  let advs := occurrenceAdvances (FindOrCreateStrikeExclusive paint) U gs in
  let shift : SkPoint → SkPoint :=
    if decide (getTextAlign paint ≠ kLeft_Align)
    then λ pt, pt_sub pt (alignmentShift (getTextAlign paint) origin
                                          (foldl pt_add origin advs))
    else id in
  let forced := setTextAlign kLeft_Align
                  (setTextEncoding kGlyphID_TextEncoding paint) in
  (∃ b', prepareDrawText b paint bytes origin = Some b' ∧
     ((gs = [] ∧ b' = b) ∨
      (gs ≠ [] ∧ (countGlyphs (GetTypefaceOrDefault paint) ≤ 0)%Z ∧
       useGlyphRun b' = None) ∨
      (gs ≠ [] ∧ (0 < countGlyphs (GetTypefaceOrDefault paint))%Z ∧
       useGlyphRun b' =
       Some (mkGlyphRun (dedupIndices U gs) (shift <$> penPositions origin advs)
                        gs (dedupIDs U gs) [] [] forced)))) ∧
  (∀ b', prepareDrawPosTextH b paint bytes xpos constY = Some b' →
     (gs = [] ∧ b' = b) ∨
     (gs ≠ [] ∧ (length gs ≤ length xpos)%nat ∧
      useGlyphRun b' =
      Some (mkGlyphRun [] ((λ x, Make x constY) <$> take (length gs) xpos)
                       gs [] [] [] forced))) ∧
  (∀ b', prepareDrawPosText b paint bytes pos = Some b' →
     (gs = [] ∧ b' = b) ∨
     (gs ≠ [] ∧ (length gs ≤ length pos)%nat ∧
      useGlyphRun b' =
      Some (mkGlyphRun [] (take (length gs) pos) gs [] [] [] forced))).
Proof.
  intros Hok.
  destruct (prepared_builder b paint bytes Hok) as (Hgs & Hok1 & Hcap).
  pose proof (textToGlyphIDs_empty b paint bytes) as Hnil.
  pose proof (prepareDrawText_run b paint bytes origin Hok) as Hrun.
  unfold prepareDrawText, prepareDrawPosTextH, prepareDrawPosText in *.
  destruct (textToGlyphIDs b paint bytes) as [b0 gs].
  cbn [fst snd] in *.
  destruct gs as [|g gs'].
  { rewrite (Hnil eq_refl).
    split; [exists b; split; [done|]; by left|].
    split; intros b' [= <-]; by left. }
  clear Hnil. set (gs := g :: gs') in *.
  assert (Hne : gs ≠ []) by done.
  rewrite (empty_false _ Hne) in *.
  split; [|split].
  - destruct (Z.ltb_spec 0 (countGlyphs (GetTypefaceOrDefault paint))) as [Hpos|Hz].
    + destruct (Hrun Hne Hpos) as (b' & Hcall & _ & Hslot).
      exists b'. split; [done|]. right; right. done.
    + unfold drawText. rewrite (empty_false _ Hne). cbn [negb].
      rewrite SkASSERT_true. cbn [mbind option_bind].
      rewrite addDenseAndUnique_skipped by done. cbn.
      eexists. split; [done|]. right; left. done.
  - intros b' Hcall.
    destruct (decide (length gs ≤ length xpos)%nat) as [Hx|Hx].
    + destruct (drawPosTextH_run _ paint gs xpos constY [] [] Hok1 Hne Hgs Hcap Hx)
        as (b'' & Hrun' & _ & _ & Hslot).
      rewrite Hrun' in Hcall. injection Hcall as <-. by right.
    + destruct (debug_dedup_total _ paint gs Hok1 Hne Hgs Hcap) as (b1 & Hdbg & _).
      unfold drawPosTextH in Hcall. rewrite (empty_false _ Hne) in Hcall.
      cbn [negb] in Hcall. rewrite SkASSERT_true in Hcall.
      cbn [mbind option_bind] in Hcall. rewrite Hdbg in Hcall.
      cbn [mbind option_bind] in Hcall. unfold span in Hcall.
      rewrite decide_False in Hcall by (rewrite Nat2N.id; lia). done.
  - intros b' Hcall.
    destruct (decide (length gs ≤ length pos)%nat) as [Hx|Hx].
    + destruct (drawPosText_run _ paint gs pos [] [] Hok1 Hne Hgs Hcap Hx)
        as (b'' & Hrun' & _ & _ & Hslot).
      rewrite Hrun' in Hcall. injection Hcall as <-. by right.
    + destruct (debug_dedup_total _ paint gs Hok1 Hne Hgs Hcap) as (b1 & Hdbg & _).
      unfold drawPosText in Hcall. rewrite (empty_false _ Hne) in Hcall.
      cbn [negb] in Hcall. rewrite SkASSERT_true in Hcall.
      cbn [mbind option_bind] in Hcall. rewrite Hdbg in Hcall.
      cbn [mbind option_bind] in Hcall. unfold span in Hcall.
      rewrite decide_False in Hcall by (rewrite Nat2N.id; lia). done.
Qed.

Lemma dedup_run_ok (universeSize : N) (gs : list N) (ps : list SkPoint)
    (t : list byte) (c : list N) (paint : SkPaint) :
  Forall is_u16 gs → length ps = length gs →
  run_ok (mkGlyphRun (dedupIndices universeSize gs) ps gs
                     (dedupIDs universeSize gs) t c paint).
Proof.
  intros Hgs Hps. unfold run_ok. cbn.
  split; [done|]. split; [done|].
  split; [apply NoDup_first_occurrences|].
  split; [apply dedupIDs_length|].
  split; [right; apply dedupIndices_length|].
  apply Forall_forall. intros d Hd.
  apply list_elem_of_lookup in Hd as [i Hi].
  assert (Hi' : is_Some (gs !! i)).
  { apply lookup_lt_is_Some. rewrite <- (dedupIndices_length universeSize).
    apply lookup_lt_is_Some. eauto. }
  destruct Hi' as [g Hg].
  destruct (dedup_lookup universeSize gs i g Hg) as (d' & Hd' & Hlt' & _).
  rewrite Hi in Hd'. by injection Hd' as <-.
Qed.

Lemma positioned_run_ok (gs : list N) (ps : list SkPoint)
    (t : list byte) (c : list N) (paint : SkPaint) :
  Forall is_u16 gs → length ps = length gs →
  run_ok (mkGlyphRun [] ps gs [] t c paint).
Proof.
  intros Hgs Hps. unfold run_ok. cbn.
  repeat split; try done; [constructor|lia|by left].
Qed.

End PrepareCases.

(** ** Glyph ids as bytes *)

Lemma byteOfN_to_N (n : N) : Byte.to_N (byteOfN n) = n mod 256.
Proof.
  unfold byteOfN.
  destruct (Byte.of_N (n mod 256)) as [x|] eqn:Hx; cbn.
  - by apply Byte.to_of_N.
  - apply Byte.of_N_None_iff in Hx.
    pose proof (N.mod_lt n 256). lia.
Qed.

Lemma u16_bytes (g : N) :
  is_u16 g → Byte.to_N (byteOfN g) + 256 * Byte.to_N (byteOfN (g / 256)) = g.
Proof.
  unfold is_u16. intros Hg. rewrite !byteOfN_to_N.
  assert (Hhi : g / 256 < 256) by (apply N.Div0.div_lt_upper_bound; lia).
  rewrite (N.mod_small (g / 256)) by done.
  pose proof (N.div_mod g 256). lia.
Qed.

Lemma glyphIDBytes_cons (g : N) (gs : list N) :
  glyphIDBytes (g :: gs) = byteOfN g :: byteOfN (g / 256) :: glyphIDBytes gs.
Proof. reflexivity. Qed.

Lemma glyphIDBytes_length (gs : list N) :
  length (glyphIDBytes gs) = (2 * length gs)%nat.
Proof.
  induction gs as [|g gs IH]; [done|].
  rewrite glyphIDBytes_cons. cbn [length]. lia.
Qed.

Lemma glyphIDsOfBytes_glyphIDBytes (gs : list N) (tail : list byte) :
  Forall is_u16 gs → (length tail ≤ 1)%nat →
  glyphIDsOfBytes (glyphIDBytes gs ++ tail) = gs.
Proof.
  intros Hgs Htail. induction Hgs as [|g gs Hg Hgs IH].
  - destruct tail as [|x [|y tail]]; [done|done|]. cbn in Htail. lia.
  - rewrite glyphIDBytes_cons. cbn [app glyphIDsOfBytes].
    by rewrite IH, u16_bytes.
Qed.

Lemma scalarsOfPoints_length `{ScalarOps} (ps : list SkPoint) :
  length (scalarsOfPoints ps) = (2 * length ps)%nat.
Proof.
  induction ps as [|p ps IH]; [done|].
  change (scalarsOfPoints (p :: ps)) with (fX p :: fY p :: scalarsOfPoints ps).
  cbn [length]. lia.
Qed.

Lemma scalarsOfPoints_lookup `{ScalarOps} (ps : list SkPoint) (i : nat) (p : SkPoint) :
  ps !! i = Some p →
  scalarsOfPoints ps !! (2 * i)%nat = Some (fX p) ∧
  scalarsOfPoints ps !! (2 * i + 1)%nat = Some (fY p).
Proof.
  revert i. induction ps as [|q ps IH]; intros i Hi; [done|].
  change (scalarsOfPoints (q :: ps)) with (fX q :: fY q :: scalarsOfPoints ps).
  destruct i as [|i].
  - injection Hi as ->. by split.
  - replace (2 * S i)%nat with (S (S (2 * i))) by lia.
    cbn [Nat.add]. by apply IH.
Qed.

Section BuilderTheorems.
Context `{BuildConfig} `{Collaborators}.

(** X7.  On a consistent builder [prepareDrawText] stays in bounds for
    every paint, text and origin, and leaves the builder consistent. *)
Theorem prepareDrawText_in_bounds (b : SkGlyphRunBuilder) (paint : SkPaint)
    (bytes : list byte) (origin : SkPoint) :
  builder_ok b →
  ∃ b', prepareDrawText b paint bytes origin = Some b' ∧ builder_ok b'.
Proof.
  intros Hok.
  destruct (prepare_slot b paint bytes origin [] SK_Scalar0 [] Hok)
    as ((b' & Hcall & _) & _).
  exists b'. split; [done|].
  destruct (prepare_keeps_builder_ok b paint bytes origin [] SK_Scalar0 [] Hok)
    as (HokT & _).
  by apply HokT.
Qed.


(** X9.  The run invariant is kept: if the run in the slot (when there is
    one) has one position per glyph, 16-bit glyph ids, duplicate-free unique
    ids no more than the glyphs, and dense indices that are absent or one
    per glyph and inside the unique ids, then so has the run in the slot
    after any [prepare*] call that returns. *)
Theorem prepare_keeps_run_ok (b : SkGlyphRunBuilder) (paint : SkPaint)
    (bytes : list byte) (origin : SkPoint) (xpos : list SkScalar)
    (constY : SkScalar) (pos : list SkPoint) :
  builder_ok b →
  (∀ r, useGlyphRun b = Some r → run_ok r) →
  (∃ b', prepareDrawText b paint bytes origin = Some b' ∧
         ∀ r, useGlyphRun b' = Some r → run_ok r) ∧
  (∀ b', prepareDrawPosTextH b paint bytes xpos constY = Some b' →
         ∀ r, useGlyphRun b' = Some r → run_ok r) ∧
  (∀ b', prepareDrawPosText b paint bytes pos = Some b' →
         ∀ r, useGlyphRun b' = Some r → run_ok r).
Proof.
  intros Hok Hrun.
  pose proof (textToGlyphIDs_u16 b paint bytes) as Hgs.
  destruct (prepare_slot b paint bytes origin xpos constY pos Hok)
    as ((bT & HcallT & HslotT) & HslotH & HslotP).
  split; [|split].
  - exists bT. split; [done|]. intros r Hr.
    destruct HslotT as [[_ ->]|[(_ & _ & Hnone)|(_ & _ & Hsome)]].
    + by apply Hrun.
    + by rewrite Hnone in Hr.
    + rewrite Hsome in Hr. injection Hr as <-.
      apply dedup_run_ok; [done|].
      rewrite length_fmap, penPositions_length.
      unfold occurrenceAdvances. by rewrite length_fmap.
  - intros b' Hcall r Hr.
    destruct (HslotH b' Hcall) as [[_ ->]|(_ & Hx & Hsome)].
    + by apply Hrun.
    + rewrite Hsome in Hr. injection Hr as <-.
      apply positioned_run_ok; [done|].
      rewrite length_fmap, length_take. lia.
  - intros b' Hcall r Hr.
    destruct (HslotP b' Hcall) as [[_ ->]|(_ & Hx & Hsome)].
    + by apply Hrun.
    + rewrite Hsome in Hr. injection Hr as <-.
      apply positioned_run_ok; [done|].
      rewrite length_take. lia.
Qed.

(** X10.  A [prepare*] call that finds glyphs never leaves the previous
    run in the slot.  The slot then holds a run with exactly the glyph ids
    of the text, no text or cluster span, and the caller's paint with the
    encoding forced to glyph ids and the alignment to left; or, for
    [prepareDrawText] on a typeface without glyphs only, no run. *)
Theorem prepare_replaces_run (b : SkGlyphRunBuilder) (paint : SkPaint)
    (bytes : list byte) (origin : SkPoint) (xpos : list SkScalar)
    (constY : SkScalar) (pos : list SkPoint) :
  builder_ok b →
  (textToGlyphIDs b paint bytes).2 ≠ [] →
  let fresh (r : SkGlyphRun) : Prop :=
    temporaryShuntGlyphIDs r = (textToGlyphIDs b paint bytes).2 ∧
    text r = [] ∧ clusters r = [] ∧
    getTextEncoding (runPaint r) = kGlyphID_TextEncoding ∧
    getTextAlign (runPaint r) = kLeft_Align ∧
    paintFont (runPaint r) = paintFont paint in
  (∃ b', prepareDrawText b paint bytes origin = Some b' ∧
         if decide (0 < countGlyphs (GetTypefaceOrDefault paint))%Z
         then ∃ r, useGlyphRun b' = Some r ∧ fresh r
         else useGlyphRun b' = None) ∧
  (∀ b', prepareDrawPosTextH b paint bytes xpos constY = Some b' →
         ∃ r, useGlyphRun b' = Some r ∧ fresh r) ∧
  (∀ b', prepareDrawPosText b paint bytes pos = Some b' →
         ∃ r, useGlyphRun b' = Some r ∧ fresh r).
Proof.
  intros Hok Hne fresh.
  destruct (prepare_slot b paint bytes origin xpos constY pos Hok)
    as ((bT & HcallT & HslotT) & HslotH & HslotP).
  split; [|split].
  - exists bT. split; [done|].
    destruct HslotT as [[Hnil _]|[(_ & Hz & Hnone)|(_ & Hpos & Hsome)]]; [done|..].
    + by rewrite decide_False by lia.
    + rewrite decide_True by done. eexists. split; [exact Hsome|]. done.
  - intros b' Hcall.
    destruct (HslotH b' Hcall) as [[Hnil _]|(_ & _ & Hsome)]; [done|].
    eexists. split; [exact Hsome|]. done.
  - intros b' Hcall.
    destruct (HslotP b' Hcall) as [[Hnil _]|(_ & _ & Hsome)]; [done|].
    eexists. split; [exact Hsome|]. done.
Qed.

Lemma textToGlyphIDs_capacity (b : SkGlyphRunBuilder) (paint : SkPaint)
    (bytes : list byte) :
  fMaxTotalRunSize (textToGlyphIDs b paint bytes).1 = fMaxTotalRunSize b ∧
  fGlyphIDSet (textToGlyphIDs b paint bytes).1 = fGlyphIDSet b.
Proof.
  unfold textToGlyphIDs.
  destruct (decide (getTextEncoding paint ≠ kGlyphID_TextEncoding)); [|done].
  by destruct (0 <? _)%Z.
Qed.

(** X11.  Scratch storage follows the high-water mark: after a
    [prepare*] call that returns, the capacity is the larger of the
    previous capacity and the number of glyphs of the text, the three
    buffers have exactly that many cells, and a set that was within the
    4096-entry ceiling still is. *)
Theorem prepare_capacity_high_water (b : SkGlyphRunBuilder) (paint : SkPaint)
    (bytes : list byte) (origin : SkPoint) (xpos : list SkScalar)
    (constY : SkScalar) (pos : list SkPoint) :
  builder_ok b →
  fUniverseToUniqueSize (fGlyphIDSet b) ≤ 4096 →
  let n := N.of_nat (length (textToGlyphIDs b paint bytes).2) in
  let grown (b' : SkGlyphRunBuilder) : Prop :=
    fMaxTotalRunSize b' = N.max (fMaxTotalRunSize b) n ∧
    length (fUniqueGlyphIDIndices b') = N.to_nat (fMaxTotalRunSize b') ∧
    length (fPositions b') = N.to_nat (fMaxTotalRunSize b') ∧
    length (fUniqueGlyphIDs b') = N.to_nat (fMaxTotalRunSize b') ∧
    fUniverseToUniqueSize (fGlyphIDSet b') ≤ 4096 in
  (∀ b', prepareDrawText b paint bytes origin = Some b' → grown b') ∧
  (∀ b', prepareDrawPosTextH b paint bytes xpos constY = Some b' → grown b') ∧
  (∀ b', prepareDrawPosText b paint bytes pos = Some b' → grown b').
Proof.
  intros Hok Hcap n grown.
  destruct (prepare_keeps_builder_ok b paint bytes origin xpos constY pos Hok)
    as (HokT & HokH & HokP).
  destruct (textToGlyphIDs_capacity b paint bytes) as [Hmax0 Hset0].
  pose proof (textToGlyphIDs_empty b paint bytes) as Hnil.
  assert (Hgrown : ∀ b',
            draw_frame (initialize n (textToGlyphIDs b paint bytes).1) b' →
            builder_ok b' → grown b').
  { intros b' (Hm & _ & _ & Hs) (Hi & Hp & Hu & _). unfold grown.
    repeat split; try done.
    - rewrite Hm. unfold initialize. cbn [fMaxTotalRunSize]. rewrite Hmax0.
      destruct (N.ltb_spec (fMaxTotalRunSize b) n); lia.
    - apply Hs. unfold initialize. cbn [fGlyphIDSet]. by rewrite Hset0. }
  assert (Hsame : (textToGlyphIDs b paint bytes).2 = [] → grown b).
  { intros Hgs. destruct Hok as (Hi & Hp & Hu & _). unfold grown, n.
    rewrite Hgs. cbn [length]. repeat split; try done. lia. }
  unfold prepareDrawText, prepareDrawPosTextH, prepareDrawPosText in *.
  destruct (textToGlyphIDs b paint bytes) as [b0 gs].
  cbn [fst snd] in *.
  destruct (empty gs) eqn:Hempty.
  { apply empty_true' in Hempty. rewrite (Hnil Hempty) in *.
    split; [|split]; intros b' [= <-]; by apply Hsame. }
  split; [|split]; intros b' Hcall; apply Hgrown; auto.
  - by eapply drawText_frame.
  - by eapply drawPosTextH_frame.
  - by eapply drawPosText_frame.
Qed.

End BuilderTheorems.

Section TextAndShunts.
Context `{Collaborators}.

(** X12.  Glyph ids written out as bytes and read back under the
    glyph-id encoding are the same glyph ids, whether or not an odd byte
    trails them; the builder is not touched. *)
Theorem textToGlyphIDs_glyph_bytes_round_trip (b : SkGlyphRunBuilder)
    (paint : SkPaint) (glyphIDs : list N) (tail : list byte) :
  getTextEncoding paint = kGlyphID_TextEncoding →
  Forall is_u16 glyphIDs → (length tail ≤ 1)%nat →
  textToGlyphIDs b paint (glyphIDBytes glyphIDs ++ tail) = (b, glyphIDs).
Proof.
  intros Henc Hgs Htail. unfold textToGlyphIDs.
  rewrite decide_False by (intros Hc; by apply Hc).
  by rewrite glyphIDsOfBytes_glyphIDBytes.
Qed.

(** X13.  The run size: under the glyph-id encoding a text of [n] bytes
    gives [n / 2] glyph ids and leaves the builder alone; under a UTF
    encoding it gives as many glyph ids as the text has code points (none
    when the count is not positive), staged in [fScratchGlyphIDs].  In
    both cases every id fits 16 bits and capacity and set are untouched. *)
Theorem textToGlyphIDs_count (b : SkGlyphRunBuilder) (paint : SkPaint)
    (bytes : list byte) :
  let b' := (textToGlyphIDs b paint bytes).1 in
  let gs := (textToGlyphIDs b paint bytes).2 in
  let utfSize :=
    SkUTFN_CountUnichars (convert_encoding (getTextEncoding paint)) bytes in
  (getTextEncoding paint = kGlyphID_TextEncoding →
   length gs = (length bytes / 2)%nat ∧ b' = b) ∧
  (getTextEncoding paint ≠ kGlyphID_TextEncoding →
   length gs = Z.to_nat utfSize ∧
   (gs ≠ [] → fScratchGlyphIDs b' = gs) ∧
   (gs = [] → b' = b)) ∧
  Forall is_u16 gs ∧
  fMaxTotalRunSize b' = fMaxTotalRunSize b ∧
  fGlyphIDSet b' = fGlyphIDSet b ∧
  fScratchGlyphRun b' = fScratchGlyphRun b.
Proof.
  cbn zeta.
  pose proof (textToGlyphIDs_u16 b paint bytes) as Hu16.
  pose proof (textToGlyphIDs_empty b paint bytes) as Hnil.
  destruct (textToGlyphIDs_capacity b paint bytes) as [Hmax Hset].
  split; [|split; [|split; [done|split; [done|split; [done|]]]]].
  - intros Henc. unfold textToGlyphIDs.
    rewrite decide_False by (intros Hc; by apply Hc). cbn.
    split; [apply glyphIDsOfBytes_facts|done].
  - intros Henc. split; [|split; [|done]].
    + unfold textToGlyphIDs. rewrite decide_True by done.
      destruct (Z.ltb_spec 0 (SkUTFN_CountUnichars
                  (convert_encoding (getTextEncoding paint)) bytes)); cbn.
      * by rewrite length_fmap, List.length_seq.
      * lia.
    + unfold textToGlyphIDs. rewrite decide_True by done.
      by destruct (0 <? _)%Z.
  - unfold textToGlyphIDs.
    destruct (decide (getTextEncoding paint ≠ kGlyphID_TextEncoding)); [|done].
    by destruct (0 <? _)%Z.
Qed.

(** X14.  [temporaryShuntToDrawPosText] makes no device call for a run
    without glyphs.  For a run of the builder (run invariant, paint with
    glyph-id encoding) with glyphs it makes exactly one call: twice as many
    text bytes as glyphs, two scalars per glyph, the run's paint, and text
    that [textToGlyphIDs], under that paint, reads back as the run's glyph
    ids. *)
Theorem temporaryShuntToDrawPosText_call (run : SkGlyphRun) (b : SkGlyphRunBuilder) :
  run_ok run →
  getTextEncoding (runPaint run) = kGlyphID_TextEncoding →
  (temporaryShuntGlyphIDs run = [] → temporaryShuntToDrawPosText run = []) ∧
  (temporaryShuntGlyphIDs run ≠ [] →
   ∃ call, temporaryShuntToDrawPosText run = [call] ∧
     callByteLength call = 2 * N.of_nat (length (temporaryShuntGlyphIDs run)) ∧
     length (callText call) = N.to_nat (callByteLength call) ∧
     callScalarsPerPos call = 2 ∧
     length (callPos call) = (2 * length (temporaryShuntGlyphIDs run))%nat ∧
     callPaint call = runPaint run ∧
     textToGlyphIDs b (callPaint call) (callText call)
     = (b, temporaryShuntGlyphIDs run)).
Proof.
  intros (Hps & Hu16 & _) Henc. unfold temporaryShuntToDrawPosText. split.
  - by intros ->.
  - intros Hne. rewrite (empty_false _ Hne). cbn [negb].
    eexists. split; [done|]. cbn.
    split; [lia|]. split; [rewrite glyphIDBytes_length; lia|].
    split; [done|]. split; [by rewrite scalarsOfPoints_length, Hps|].
    split; [done|].
    unfold textToGlyphIDs. rewrite decide_False by (intros Hc; by apply Hc).
    rewrite <- (app_nil_r (glyphIDBytes _)).
    by rewrite glyphIDsOfBytes_glyphIDBytes by (done || cbn; lia).
Qed.

(** X15.  [temporaryShuntToCallback] calls back for every run, empty or
    not, with the glyph count, bytes that decode to the run's glyph ids, and
    the positions flattened: scalars [2i] and [2i+1] are the coordinates
    of position [i]. *)
Theorem temporaryShuntToCallback_layout (run : SkGlyphRun) :
  run_ok run →
  ∃ count bytes pos,
    temporaryShuntToCallback run = (count, bytes, pos) ∧
    count = N.of_nat (length (temporaryShuntGlyphIDs run)) ∧
    length bytes = (2 * N.to_nat count)%nat ∧
    glyphIDsOfBytes bytes = temporaryShuntGlyphIDs run ∧
    length pos = (2 * N.to_nat count)%nat ∧
    ∀ i p, positions run !! i = Some p →
           pos !! (2 * i)%nat = Some (fX p) ∧ pos !! (2 * i + 1)%nat = Some (fY p).
Proof.
  intros (Hps & Hu16 & _). unfold temporaryShuntToCallback.
  do 3 eexists. split; [done|]. split; [done|].
  rewrite Nat2N.id.
  split; [apply glyphIDBytes_length|].
  split.
  { rewrite <- (app_nil_r (glyphIDBytes _)).
    apply glyphIDsOfBytes_glyphIDBytes; [done|cbn; lia]. }
  split; [by rewrite scalarsOfPoints_length, Hps|].
  apply scalarsOfPoints_lookup.
Qed.

End TextAndShunts.

(** * The further properties on concrete inputs *)

Lemma uniquifyGlyphIDs_distinct_input_witness :
  set_ok newGlyphIDSet ∧ NoDup [3; 7; 5] ∧ Forall (λ g, g < 10) [3; 7; 5] ∧
  ∃ r, @uniquifyGlyphIDs exampleBuild newGlyphIDSet 10 [3; 7; 5]
         [9; 9; 9] [8; 8; 8] = Some r ∧
       uniqueSpan r = [3; 7; 5] ∧
       take 3 (denseIndicesBuffer r) = [0; 1; 2].
Proof.
  assert (Hs : set_ok newGlyphIDSet) by reflexivity.
  assert (Hnd : NoDup [3; 7; 5]) by compute_done.
  assert (Hin : Forall (λ g, g < 10) [3; 7; 5])
    by (repeat (constructor; [lia|]); constructor).
  assert (Hgs : Forall is_u16 [3; 7; 5]) by u16_list.
  do 3 (split; [assumption|]).
  exact (@uniquifyGlyphIDs_distinct_input exampleBuild newGlyphIDSet 10 [3; 7; 5]
           [9; 9; 9] [8; 8; 8] Hs Hnd Hin Hgs
           ltac:(cbn; lia) ltac:(cbn; lia)).
Defined.

Lemma uniquifyGlyphIDs_unique_ids_are_fixed_witness :
  set_ok newGlyphIDSet ∧ 1 ≤ 10 ∧ Forall is_u16 [3; 7; 3; 12; 0] ∧
  ∃ r1 r2,
    @uniquifyGlyphIDs exampleBuild newGlyphIDSet 10 [3; 7; 3; 12; 0]
      [9; 9; 9; 9; 9] [8; 8; 8; 8; 8] = Some r1 ∧
    @uniquifyGlyphIDs exampleBuild (setAfter r1) 10 (uniqueSpan r1)
      [9; 9; 9; 9; 9] [8; 8; 8; 8; 8] = Some r2 ∧
    uniqueSpan r2 = uniqueSpan r1.
Proof.
  assert (Hs : set_ok newGlyphIDSet) by reflexivity.
  assert (HU : 1 ≤ 10) by lia.
  assert (Hgs : Forall is_u16 [3; 7; 3; 12; 0]) by u16_list.
  do 3 (split; [assumption|]).
  destruct (@uniquifyGlyphIDs_unique_ids_are_fixed exampleBuild newGlyphIDSet 10
              [3; 7; 3; 12; 0] [9; 9; 9; 9; 9] [8; 8; 8; 8; 8]
              [9; 9; 9; 9; 9] [8; 8; 8; 8; 8] Hs HU Hgs)
    as (r1 & r2 & Hc1 & Hc2 & Hspan & _); [cbn; lia..|].
  exists r1, r2. split; [exact Hc1|]. split; [exact Hc2|exact Hspan].
Defined.

Lemma uniquifyGlyphIDs_map_inverts_span_witness :
  set_ok newGlyphIDSet ∧ 1 ≤ 10 ∧
  N.max (fUniverseToUniqueSize newGlyphIDSet) 10 ≤ 4096 ∧
  Forall is_u16 [3; 7; 3; 12; 0] ∧
  ∃ r, @uniquifyGlyphIDs exampleBuild newGlyphIDSet 10 [3; 7; 3; 12; 0]
         [9; 9; 9; 9; 9] [8; 8; 8; 8; 8] = Some r ∧
       ∀ k g, uniqueSpan r !! k = Some g →
              load (fUniverseToUnique (setAfter r)) g = Some (N.of_nat k).
Proof.
  assert (Hs : set_ok newGlyphIDSet) by reflexivity.
  assert (HU : 1 ≤ 10) by lia.
  assert (Hmax : N.max (fUniverseToUniqueSize newGlyphIDSet) 10 ≤ 4096)
    by (cbn; lia).
  assert (Hgs : Forall is_u16 [3; 7; 3; 12; 0]) by u16_list.
  do 4 (split; [assumption|]).
  exact (@uniquifyGlyphIDs_map_inverts_span exampleBuild newGlyphIDSet 10
           [3; 7; 3; 12; 0] [9; 9; 9; 9; 9] [8; 8; 8; 8; 8] Hs HU Hmax Hgs
           ltac:(cbn; lia) ltac:(cbn; lia)).
Defined.

Lemma uniquifyGlyphIDs_writes_only_seen_cells_witness :
  set_ok (mkGlyphIDSet 4 [3; 3; 3; 3]) ∧ 1 ≤ 4 ∧ Forall is_u16 [2; 2] ∧
  ∃ r, @uniquifyGlyphIDs exampleBuild (mkGlyphIDSet 4 [3; 3; 3; 3]) 4 [2; 2]
         [9; 9] [8; 8] = Some r ∧
       load (fUniverseToUnique (setAfter r)) 1 = Some 3.
Proof.
  assert (Hs : set_ok (mkGlyphIDSet 4 [3; 3; 3; 3])) by reflexivity.
  assert (HU : 1 ≤ 4) by lia.
  assert (Hgs : Forall is_u16 [2; 2]) by u16_list.
  do 3 (split; [assumption|]).
  destruct (@uniquifyGlyphIDs_writes_only_seen_cells exampleBuild
              (mkGlyphIDSet 4 [3; 3; 3; 3]) 4 [2; 2] [9; 9] [8; 8] Hs HU)
    as (r & Hcall & _ & Hframe); [cbn; lia|cbn; lia|done|cbn; lia|cbn; lia|].
  exists r. split; [exact Hcall|].
  rewrite Hframe; [reflexivity|].
  assert (Hspan : uniqueSpan r = [2]).
  { revert Hcall. vm_compute. by intros [= <-]. }
  rewrite Hspan. compute_done.
Defined.

Lemma uniquifyGlyphIDs_size_law_witness :
  set_ok newGlyphIDSet ∧ 0 < N.max (fUniverseToUniqueSize newGlyphIDSet) 5000 ∧
  Forall is_u16 [4999; 1] ∧
  ∃ r, @uniquifyGlyphIDs exampleBuild newGlyphIDSet 5000 [4999; 1]
         [0; 0] [0; 0] = Some r ∧
       fUniverseToUniqueSize (setAfter r) ≤ 4096.
Proof.
  assert (Hs : set_ok newGlyphIDSet) by reflexivity.
  assert (Hb : 0 < N.max (fUniverseToUniqueSize newGlyphIDSet) 5000) by (cbn; lia).
  assert (Hgs : Forall is_u16 [4999; 1]) by u16_list.
  do 3 (split; [assumption|]).
  destruct (@uniquifyGlyphIDs_size_law exampleBuild newGlyphIDSet 5000 [4999; 1]
              [0; 0] [0; 0] Hs (or_intror Hb) Hgs)
    as (r & Hcall & _ & _ & Hcap & _); [cbn; lia|cbn; lia|].
  exists r. split; [exact Hcall|exact Hcap].
Defined.

Lemma uniquifyGlyphIDs_zero_universe_edge_witness :
  set_ok (mkGlyphIDSet 2 [0; 0]) ∧ [5; 9] ≠ [] ∧ Forall is_u16 [5; 9] ∧
  ∃ r, @uniquifyGlyphIDs exampleBuild (mkGlyphIDSet 2 [0; 0]) 0 [5; 9]
         [7; 7] [7; 7] = Some r ∧
       uniqueSpan r = [0] ∧ take 2 (denseIndicesBuffer r) = [0; 0].
Proof.
  assert (Hs : set_ok (mkGlyphIDSet 2 [0; 0])) by reflexivity.
  assert (Hne : [5; 9] ≠ ([] : list N)) by discriminate.
  assert (Hgs : Forall is_u16 [5; 9]) by u16_list.
  do 3 (split; [assumption|]).
  destruct (@uniquifyGlyphIDs_zero_universe_edge exampleBuild
              (mkGlyphIDSet 2 [0; 0]) [5; 9] [7; 7] [7; 7] Hs Hne Hgs)
    as (_ & Hsome); [cbn; lia|cbn; lia|].
  apply Hsome. cbn. lia.
Defined.

Lemma newBuilder_run_ok `{ScalarOps} :
  ∀ r, useGlyphRun newBuilder = Some r → run_ok r.
Proof.
  intros r [= <-]. unfold run_ok. cbn.
  split; [done|]. split; [constructor|]. split; [constructor|].
  split; [lia|]. split; [by left|constructor].
Qed.

Lemma exampleRun_ok : run_ok exampleRun.
Proof.
  unfold run_ok, exampleRun. cbn.
  split; [done|]. split; [u16_list|]. split; [compute_done|].
  split; [lia|]. split; [by right|].
  repeat (constructor; [lia|]). constructor.
Qed.

Lemma prepareDrawText_in_bounds_witness :
  builder_ok (H := exampleScalar) newBuilder ∧
  ∃ b', @prepareDrawText exampleBuild _ exampleCollaborators newBuilder
          (examplePaint kCenter_Align) exampleText exampleOrigin = Some b' ∧
        builder_ok b'.
Proof.
  assert (Hok : builder_ok (H := exampleScalar) newBuilder) by (by repeat split).
  split; [exact Hok|].
  exact (@prepareDrawText_in_bounds exampleBuild _ exampleCollaborators newBuilder
           (examplePaint kCenter_Align) exampleText exampleOrigin Hok).
Defined.


Lemma prepare_keeps_run_ok_witness :
  builder_ok (H := exampleScalar) newBuilder ∧
  (∀ r, useGlyphRun (H := exampleScalar) newBuilder = Some r → run_ok r) ∧
  ∃ b', @prepareDrawText exampleBuild _ exampleCollaborators newBuilder
          (examplePaint kRight_Align) exampleText exampleOrigin = Some b' ∧
        ∀ r, useGlyphRun b' = Some r → run_ok r.
Proof.
  assert (Hok : builder_ok (H := exampleScalar) newBuilder) by (by repeat split).
  pose proof (@newBuilder_run_ok exampleScalar) as Hrun.
  split; [exact Hok|]. split; [exact Hrun|].
  destruct (@prepare_keeps_run_ok exampleBuild _ exampleCollaborators newBuilder
              (examplePaint kRight_Align) exampleText exampleOrigin [] 0%Q []
              Hok Hrun) as (HT & _).
  exact HT.
Defined.

Lemma prepare_replaces_run_witness :
  builder_ok (H := exampleScalar) newBuilder ∧
  (@textToGlyphIDs _ exampleCollaborators newBuilder (examplePaint kCenter_Align)
     exampleText).2 ≠ [] ∧
  ∃ b' r, @prepareDrawText exampleBuild _ exampleCollaborators newBuilder
            (examplePaint kCenter_Align) exampleText exampleOrigin = Some b' ∧
          useGlyphRun b' = Some r ∧
          getTextAlign (runPaint r) = kLeft_Align.
Proof.
  assert (Hok : builder_ok (H := exampleScalar) newBuilder) by (by repeat split).
  assert (Hne : (@textToGlyphIDs _ exampleCollaborators newBuilder
                   (examplePaint kCenter_Align) exampleText).2 ≠ [])
    by (vm_compute; discriminate).
  do 2 (split; [assumption|]).
  destruct (@prepare_replaces_run exampleBuild _ exampleCollaborators newBuilder
              (examplePaint kCenter_Align) exampleText exampleOrigin [] 0%Q []
              Hok Hne) as ((b' & Hcall & Hslot) & _).
  rewrite decide_True in Hslot by reflexivity.
  destruct Hslot as (r & Hr & _ & _ & _ & _ & Halign & _).
  exists b', r. split; [exact Hcall|]. split; [exact Hr|exact Halign].
Defined.

Lemma prepare_capacity_high_water_witness :
  builder_ok (H := exampleScalar) newBuilder ∧
  fUniverseToUniqueSize (fGlyphIDSet (H := exampleScalar) newBuilder) ≤ 4096 ∧
  ∃ b', @prepareDrawText exampleBuild _ exampleCollaborators newBuilder
          (examplePaint kLeft_Align) exampleText exampleOrigin = Some b' ∧
        fMaxTotalRunSize b' = 3 ∧ length (fPositions b') = 3%nat.
Proof.
  assert (Hok : builder_ok (H := exampleScalar) newBuilder) by (by repeat split).
  assert (Hcap : fUniverseToUniqueSize (fGlyphIDSet (H := exampleScalar) newBuilder)
                 ≤ 4096) by (cbn; lia).
  do 2 (split; [assumption|]).
  destruct (@prepare_slot exampleBuild _ exampleCollaborators newBuilder
              (examplePaint kLeft_Align) exampleText exampleOrigin [] 0%Q [] Hok)
    as ((b' & Hcall & _) & _).
  destruct (@prepare_capacity_high_water exampleBuild _ exampleCollaborators
              newBuilder (examplePaint kLeft_Align) exampleText exampleOrigin
              [] 0%Q [] Hok Hcap) as (HT & _).
  destruct (HT b' Hcall) as (Hmax & _ & Hlen & _).
  exists b'. split; [exact Hcall|]. rewrite Hlen, Hmax. by split.
Defined.

Lemma textToGlyphIDs_glyph_bytes_round_trip_witness :
  getTextEncoding (runPaint exampleRun) = kGlyphID_TextEncoding ∧
  Forall is_u16 [3; 7; 300] ∧
  @textToGlyphIDs _ exampleCollaborators newBuilder (runPaint exampleRun)
    (glyphIDBytes [3; 7; 300] ++ [x2a%byte]) = (newBuilder, [3; 7; 300]).
Proof.
  assert (Henc : getTextEncoding (runPaint exampleRun) = kGlyphID_TextEncoding)
    by reflexivity.
  assert (Hgs : Forall is_u16 [3; 7; 300]) by u16_list.
  do 2 (split; [assumption|]).
  exact (@textToGlyphIDs_glyph_bytes_round_trip _ exampleCollaborators newBuilder
           (runPaint exampleRun) [3; 7; 300] [x2a%byte] Henc Hgs
           ltac:(cbn; lia)).
Defined.

Lemma temporaryShuntToDrawPosText_call_witness :
  run_ok exampleRun ∧
  getTextEncoding (runPaint exampleRun) = kGlyphID_TextEncoding ∧
  ∃ call, temporaryShuntToDrawPosText exampleRun = [call] ∧
          callByteLength call = 6.
Proof.
  pose proof exampleRun_ok as Hrun.
  assert (Henc : getTextEncoding (runPaint exampleRun) = kGlyphID_TextEncoding)
    by reflexivity.
  do 2 (split; [assumption|]).
  destruct (@temporaryShuntToDrawPosText_call _ exampleCollaborators exampleRun
              newBuilder Hrun Henc) as (_ & Hcall).
  destruct Hcall as (call & Hcalls & Hlen & _); [discriminate|].
  exists call. split; [exact Hcalls|]. rewrite Hlen. reflexivity.
Defined.

Lemma temporaryShuntToCallback_layout_witness :
  run_ok exampleRun ∧
  ∃ count bytes pos,
    temporaryShuntToCallback exampleRun = (count, bytes, pos) ∧
    count = 3 ∧ glyphIDsOfBytes bytes = [3; 7; 3].
Proof.
  pose proof exampleRun_ok as Hrun.
  split; [exact Hrun|].
  destruct (temporaryShuntToCallback_layout exampleRun Hrun)
    as (count & bytes & pos & Hcall & Hcount & _ & Hbytes & _).
  exists count, bytes, pos.
  split; [exact Hcall|]. split; [exact Hcount|exact Hbytes].
Defined.

(** * SkSL function declarations *)

Lemma string_append_assoc (a b c : string) : (a +:+ b) +:+ c = a +:+ (b +:+ c).
Proof.
  induction a as [|x a IH]; [reflexivity|].
  change (String x ((a +:+ b) +:+ c) = String x (a +:+ (b +:+ c))).
  by rewrite IH.
Qed.

Lemma string_append_nil_r (a : string) : a +:+ "" = a.
Proof.
  induction a as [|x a IH]; [reflexivity|].
  change (String x (a +:+ "") = String x a). by rewrite IH.
Qed.

Section FunctionDeclarations.
Context `{SkSLTypeOps}.

Lemma declaration_loop (ps : list SkSLVariable) :
  ∀ (p : SkSLVariable) (acc sep : string),
    (foldl (λ '(result, separator) q,
              ((result +:+ separator) +:+ varName q, ", "%string))
           (acc, sep) (p :: ps)).1
    = acc +:+ sep +:+ String.concat ", " (varName <$> p :: ps).
Proof.
  induction ps as [|q ps IH]; intros p acc sep.
  - cbn. apply string_append_assoc.
  - change (foldl ?f (acc, sep) (p :: q :: ps))
      with (foldl f ((acc +:+ sep) +:+ varName p, ", "%string) (q :: ps)).
    rewrite IH.
    change (String.concat ", " (varName <$> p :: q :: ps))
      with (varName p +:+ ", " +:+ String.concat ", " (varName <$> q :: ps)).
    by rewrite !string_append_assoc.
Qed.

(** X16.  [declaration] prints the return type, a space, the name, and
    the parameter names joined by [", "] between parentheses. *)
Theorem declaration_joins_parameter_names (this : FunctionDeclaration) :
  declaration this
  = displayName (fReturnType this) +:+ " " +:+ fName this +:+ "("
    +:+ String.concat ", " (varName <$> fParameters this) +:+ ")".
Proof.
  unfold declaration. cbn zeta.
  destruct (fParameters this) as [|p ps].
  - cbn. by rewrite !string_append_assoc.
  - rewrite declaration_loop. cbn [String.append].
    by rewrite !string_append_assoc.
Qed.

Lemma matches_loop_spec (ps qs : list SkSLVariable) :
  length ps = length qs →
  ∀ n i, (i + n = length ps)%nat →
    ∃ b, matches_loop n i ps qs = Some b ∧
         (b = true ↔
          Forall2 (λ p q, type_ne (fType p) (fType q) = false)
                  (drop i ps) (drop i qs)).
Proof.
  intros Hlen n. induction n as [|n IH]; intros i Hi.
  - exists true. split; [done|].
    rewrite !drop_ge by lia. split; [constructor|done].
  - destruct (lookup_lt_is_Some_2 ps i) as [p Hp]; [lia|].
    destruct (lookup_lt_is_Some_2 qs i) as [q Hq]; [lia|].
    cbn [matches_loop]. rewrite Hp, Hq. cbn [mbind option_bind].
    rewrite (drop_S _ _ _ Hp), (drop_S _ _ _ Hq).
    destruct (type_ne (fType p) (fType q)) eqn:Hne.
    + exists false. split; [done|]. split; [done|].
      intros HF. apply Forall2_cons in HF as [Hc _]. congruence.
    + destruct (IH (S i)) as (b & Hb & Hiff); [lia|].
      exists b. split; [done|]. rewrite Hiff.
      split; [by constructor|]. by intros [_ ?]%Forall2_cons.
Qed.

Lemma matches_decides (this f : FunctionDeclaration) :
  ∃ b, matches this f = Some b ∧
       (b = true ↔
        fName this = fName f ∧
        Forall2 (λ p q, type_ne (fType p) (fType q) = false)
                (fParameters this) (fParameters f)).
Proof.
  unfold matches.
  destruct (decide (fName this = fName f)) as [Hname|Hname].
  - rewrite bool_decide_eq_false_2 by (intros Hc; by apply Hc).
    destruct (decide (length (fParameters this) = length (fParameters f)))
      as [Hlen|Hlen].
    + rewrite bool_decide_eq_false_2 by (intros Hc; by apply Hc).
      destruct (matches_loop_spec _ _ Hlen (length (fParameters this)) 0)
        as (b & Hb & Hiff); [done|].
      exists b. split; [done|]. rewrite Hiff, !drop_0. tauto.
    + rewrite bool_decide_eq_true_2 by done.
      exists false. split; [done|]. split; [done|].
      intros [_ HF]. by apply Forall2_length in HF.
  - rewrite bool_decide_eq_true_2 by done.
    exists false. split; [done|]. split; [done|]. by intros [? _].
Qed.

(** X17.  [matches] stays in bounds for any two declarations and answers
    [true] exactly when they have the same name, the same number of
    parameters, and no pair of corresponding parameter types that differ;
    return types, parameter names and flags play no part. *)
Theorem matches_spec (this f : FunctionDeclaration) :
  is_Some (matches this f) ∧
  (matches this f = Some true ↔
   fName this = fName f ∧
   length (fParameters this) = length (fParameters f) ∧
   ∀ i p q, fParameters this !! i = Some p → fParameters f !! i = Some q →
            type_ne (fType p) (fType q) = false).
Proof.
  destruct (matches_decides this f) as (b & Hb & Hiff).
  rewrite Hb. split; [by eexists|].
  rewrite Forall2_same_length_lookup in Hiff.
  split.
  - intros [= ->]. destruct Hiff as [(Hname & Hlen & HF) _]; [done|].
    split; [done|]. split; [done|]. exact HF.
  - intros (Hname & Hlen & Hall). f_equal. by apply Hiff.
Qed.

(** X18.  When type inequality is irreflexive, symmetric and its
    complement transitive, [matches] is an equivalence on declarations. *)
Theorem matches_equivalence (f g h : FunctionDeclaration) :
  (∀ t, type_ne t t = false) →
  (∀ t u, type_ne t u = type_ne u t) →
  (∀ t u v, type_ne t u = false → type_ne u v = false → type_ne t v = false) →
  matches f f = Some true ∧
  matches f g = matches g f ∧
  (matches f g = Some true → matches g h = Some true → matches f h = Some true).
Proof.
  intros Hrefl Hsym Htrans.
  set (R := λ p q : SkSLVariable, type_ne (fType p) (fType q) = false).
  assert (Hyes : ∀ a b, matches a b = Some true ↔
                        fName a = fName b ∧ Forall2 R (fParameters a) (fParameters b)).
  { intros a b. destruct (matches_decides a b) as (r & Hr & Hiff).
    rewrite Hr. split; [intros [= ->]; by apply Hiff|].
    intros HP. f_equal. by apply Hiff. }
  assert (Hswap : ∀ l k, Forall2 R l k → Forall2 R k l).
  { intros l k HF. induction HF; constructor; [|done].
    unfold R in *. by rewrite Hsym. }
  split; [|split].
  - apply Hyes. split; [done|].
    apply Forall_Forall2_diag, Forall_forall. intros p _. apply Hrefl.
  - destruct (matches_decides f g) as (r1 & Hr1 & Hiff1).
    destruct (matches_decides g f) as (r2 & Hr2 & Hiff2).
    rewrite Hr1, Hr2. f_equal. apply eq_true_iff_eq.
    rewrite Hiff1, Hiff2. split; intros [Hn HF]; (split; [done|by apply Hswap]).
  - rewrite !Hyes. intros [Hn1 HF1] [Hn2 HF2]. split; [congruence|].
    revert HF2. generalize (fParameters h). clear -HF1 Htrans.
    induction HF1 as [|p q ps qs Hpq HF1 IH]; intros l HF2.
    + by inversion HF2.
    + inversion HF2 as [|q' r qs' rs Hqr HF2']; subst.
      constructor; [unfold R in *; by eapply Htrans|by apply IH].
Qed.

End FunctionDeclarations.

Section FinalTypes.
Context `{BuildConfig} `{SkSLTypeOps}.

Lemma firstCoercible_Some (a : SkSLType) (types : list SkSLType) :
  ∀ j0 j, firstCoercible a types j0 = Some j →
    (j0 ≤ j)%nat ∧
    ∃ t, types !! (j - j0)%nat = Some t ∧ canCoerceTo a t = true ∧
         ∀ k t', (k < j - j0)%nat → types !! k = Some t' →
                 canCoerceTo a t' = false.
Proof.
  induction types as [|t types IH]; intros j0 j Hfind; [done|].
  cbn [firstCoercible] in Hfind.
  destruct (canCoerceTo a t) eqn:Hc.
  - injection Hfind as <-. split; [lia|]. exists t.
    rewrite Nat.sub_diag. split; [done|]. split; [done|]. intros k t' Hk. lia.
  - destruct (IH _ _ Hfind) as (Hle & t0 & Ht0 & Hc0 & Hbefore).
    split; [lia|]. exists t0.
    replace (j - j0)%nat with (S (j - S j0)) by lia.
    split; [done|]. split; [done|].
    intros [|k] t' Hk Hk'.
    + by injection Hk' as <-.
    + apply (Hbefore k t'); [lia|done].
Qed.

Lemma firstCoercible_None (a : SkSLType) (types : list SkSLType) (j0 : nat) :
  firstCoercible a types j0 = None →
  Forall (λ t, canCoerceTo a t = false) types.
Proof.
  revert j0. induction types as [|t types IH]; intros j0 Hfind; [constructor|].
  cbn [firstCoercible] in Hfind.
  destruct (canCoerceTo a t) eqn:Hc; [done|].
  constructor; [done|]. by eapply IH.
Qed.

Lemma determine_loop_concrete (params : list SkSLVariable) (args : list SkSLType) :
  Forall (λ p, isGeneric (fType p) = false) params →
  ∀ n i g out, (i + n ≤ length params)%nat →
    determine_loop params args n i g out
    = Some (Completed g (out ++ (fType <$> take n (drop i params)))).
Proof.
  intros Hconcrete n. induction n as [|n IH]; intros i g out Hn.
  - cbn. by rewrite app_nil_r.
  - destruct (lookup_lt_is_Some_2 params i) as [p Hp]; [lia|].
    cbn [determine_loop]. rewrite Hp. cbn [mbind option_bind].
    rewrite Forall_forall in Hconcrete.
    rewrite (Hconcrete p) by (by eapply list_elem_of_lookup_2).
    rewrite IH by lia.
    rewrite (drop_S _ _ _ Hp). cbn [take fmap list_fmap].
    by rewrite <- app_assoc.
Qed.

(** X19.  A declaration without generic parameter or return type always
    resolves: the answer is [true], the declared parameter types are
    appended to [outParameterTypes] in order, and [outReturnType] is the
    declared return type. *)
Theorem determineFinalTypes_concrete (this : FunctionDeclaration)
    (arguments outParameterTypes : list SkSLType) (outReturnType : SkSLType) :
  Forall (λ p, isGeneric (fType p) = false) (fParameters this) →
  isGeneric (fReturnType this) = false →
  length arguments = length (fParameters this) →
  determineFinalTypes this arguments outParameterTypes outReturnType
  = Some (true, outParameterTypes ++ (fType <$> fParameters this),
          fReturnType this).
Proof.
  intros Hconcrete Hret Hlen. unfold determineFinalTypes.
  rewrite bool_decide_eq_true_2 by done. rewrite SkASSERT_true.
  cbn [mbind option_bind].
  rewrite determine_loop_concrete by (done || lia).
  cbn [mbind option_bind]. rewrite Hret, drop_0, Hlen.
  by rewrite firstn_all.
Qed.

Lemma determine_loop_completed (params : list SkSLVariable) (args : list SkSLType) :
  ∀ n i g out g' out',
    determine_loop params args n i g out = Some (Completed g' out') →
    ∃ new, out' = out ++ new ∧
      Forall2 (λ p t, if isGeneric (fType p)
                      then ∃ j, g' = Some j ∧
                                coercibleTypes (fType p) !! j = Some t
                      else t = fType p)
              (take n (drop i params)) new ∧
      length new = n ∧
      (∀ j, g = Some j → g' = Some j) ∧
      (g = None → ∀ j, g' = Some j →
         ∃ k p a, (i ≤ k < i + n)%nat ∧ params !! k = Some p ∧
           isGeneric (fType p) = true ∧
           (∀ k' p', (i ≤ k' < k)%nat → params !! k' = Some p' →
                     isGeneric (fType p') = false) ∧
           args !! k = Some a ∧
           firstCoercible a (coercibleTypes (fType p)) 0 = Some j).
Proof.
  induction n as [|n IH]; intros i g out g' out' Hloop.
  - injection Hloop as <- <-. exists []. rewrite app_nil_r.
    repeat split; [constructor|by intros j ->|by intros ->].
  - cbn [determine_loop] in Hloop.
    destruct (params !! i) as [p|] eqn:Hp; [|done].
    cbn [mbind option_bind] in Hloop.
    rewrite (drop_S _ _ _ Hp). cbn [take].
    destruct (isGeneric (fType p)) eqn:Hgen.
    + cbn zeta in Hloop.
      destruct g as [j0|].
      * cbn [mbind option_bind] in Hloop.
        destruct (coercibleTypes (fType p) !! j0) as [t|] eqn:Ht; [|done].
        cbn [mbind option_bind] in Hloop.
        destruct (IH _ _ _ _ _ Hloop) as (new & -> & HF & Hlen & Hkeep & _).
        pose proof (Hkeep j0 eq_refl) as ->.
        exists (t :: new). rewrite <- app_assoc.
        split; [done|]. split.
        { constructor; [|done]. rewrite Hgen. by exists j0. }
        split; [cbn; lia|]. split; [by intros j [= ->]|done].
      * destruct (args !! i) as [a|] eqn:Ha; [|done].
        cbn [mbind option_bind] in Hloop.
        destruct (firstCoercible a (coercibleTypes (fType p)) 0)
          as [j|] eqn:Hfind; [|done].
        destruct (coercibleTypes (fType p) !! j) as [t|] eqn:Ht; [|done].
        cbn [mbind option_bind] in Hloop.
        destruct (IH _ _ _ _ _ Hloop) as (new & -> & HF & Hlen & Hkeep & _).
        pose proof (Hkeep j eq_refl) as ->.
        exists (t :: new). rewrite <- app_assoc.
        split; [done|]. split.
        { constructor; [|done]. rewrite Hgen. by exists j. }
        split; [cbn; lia|]. split; [done|].
        intros _ j' [= <-]. exists i, p, a.
        split; [lia|]. split; [done|]. split; [done|].
        split; [intros k' p' Hk'; lia|done].
    + destruct (IH _ _ _ _ _ Hloop) as (new & -> & HF & Hlen & Hkeep & Hfirst).
      exists (fType p :: new). rewrite <- app_assoc.
      split; [done|]. split.
      { constructor; [|done]. by rewrite Hgen. }
      split; [cbn; lia|]. split; [done|].
      intros Hg j Hj. destruct (Hfirst Hg j Hj)
        as (k & p' & a & Hk & Hp' & Hgen' & Hbefore & Ha & Hfind).
      exists k, p', a. split; [lia|]. split; [done|]. split; [done|].
      split; [|done].
      intros k' q Hk' Hq. destruct (decide (k' = i)) as [->|Hne].
      * rewrite Hp in Hq. by injection Hq as <-.
      * apply (Hbefore k' q); [lia|done].
Qed.

(** X20.  When [determineFinalTypes] answers [true]: one type has been
    appended per argument; a concrete parameter keeps its declared type;
    every generic parameter, and a generic return type, is replaced by the
    entry of its own candidate list at one common index; and that index is
    the first candidate of the first generic parameter that its argument
    can be coerced to. *)
Theorem determineFinalTypes_true (this : FunctionDeclaration)
    (arguments outParameterTypes out : list SkSLType)
    (outReturnType ret : SkSLType) :
  determineFinalTypes this arguments outParameterTypes outReturnType
  = Some (true, out, ret) →
  ∃ (new : list SkSLType) (genericIndex : option nat),
    out = outParameterTypes ++ new ∧
    length new = length arguments ∧
    Forall2 (λ p t, if isGeneric (fType p)
                    then ∃ j, genericIndex = Some j ∧
                              coercibleTypes (fType p) !! j = Some t
                    else t = fType p)
            (take (length arguments) (fParameters this)) new ∧
    (if isGeneric (fReturnType this)
     then ∃ j, genericIndex = Some j ∧
               coercibleTypes (fReturnType this) !! j = Some ret
     else ret = fReturnType this) ∧
    (∀ j, genericIndex = Some j →
       ∃ k p a, fParameters this !! k = Some p ∧
         isGeneric (fType p) = true ∧
         (∀ k' p', (k' < k)%nat → fParameters this !! k' = Some p' →
                   isGeneric (fType p') = false) ∧
         arguments !! k = Some a ∧
         firstCoercible a (coercibleTypes (fType p)) 0 = Some j ∧
         ∃ t, coercibleTypes (fType p) !! j = Some t ∧ canCoerceTo a t = true).
Proof.
  unfold determineFinalTypes. intros Hcall.
  destruct (SkASSERT _) as [[]|]; [|done]. cbn [mbind option_bind] in Hcall.
  destruct (determine_loop _ _ _ _ _ _) as [[out1|g out1]|] eqn:Hloop;
    cbn [mbind option_bind] in Hcall; [done| |done].
  destruct (determine_loop_completed _ _ _ _ _ _ _ _ Hloop)
    as (new & -> & HF & Hlen & _ & Hfirst).
  rewrite drop_0 in HF.
  assert (Hidx : ∀ j, g = Some j →
            ∃ k p a, fParameters this !! k = Some p ∧
              isGeneric (fType p) = true ∧
              (∀ k' p', (k' < k)%nat → fParameters this !! k' = Some p' →
                        isGeneric (fType p') = false) ∧
              arguments !! k = Some a ∧
              firstCoercible a (coercibleTypes (fType p)) 0 = Some j ∧
              ∃ t, coercibleTypes (fType p) !! j = Some t ∧
                   canCoerceTo a t = true).
  { intros j Hj. destruct (Hfirst eq_refl j Hj)
      as (k & p & a & Hk & Hp & Hgen & Hbefore & Ha & Hfind).
    exists k, p, a. repeat split; try done.
    - intros k' p' Hk'. apply Hbefore. lia.
    - destruct (firstCoercible_Some _ _ _ _ Hfind) as (_ & t & Ht & Hc & _).
      rewrite Nat.sub_0_r in Ht. by exists t. }
  destruct (isGeneric (fReturnType this)) eqn:Hret.
  - destruct g as [j|]; [|done].
    destruct (coercibleTypes (fReturnType this) !! j) as [t|] eqn:Ht; [|done].
    cbn [mbind option_bind] in Hcall. injection Hcall as <- <-.
    exists new, (Some j). repeat split; try done. by exists j.
  - injection Hcall as <- <-.
    exists new, g. by repeat split.
Qed.

Lemma determine_loop_returned (params : list SkSLVariable) (args : list SkSLType) :
  ∀ n i g out out',
    determine_loop params args n i g out = Some (ReturnedFalse out') →
    g = None ∧
    ∃ k p a, (i ≤ k < i + n)%nat ∧ params !! k = Some p ∧
      isGeneric (fType p) = true ∧
      (∀ k' p', (i ≤ k' < k)%nat → params !! k' = Some p' →
                isGeneric (fType p') = false) ∧
      args !! k = Some a ∧
      Forall (λ t, canCoerceTo a t = false) (coercibleTypes (fType p)).
Proof.
  induction n as [|n IH]; intros i g out out' Hloop; [done|].
  cbn [determine_loop] in Hloop.
  destruct (params !! i) as [p|] eqn:Hp; [|done].
  cbn [mbind option_bind] in Hloop.
  destruct (isGeneric (fType p)) eqn:Hgen.
  - cbn zeta in Hloop. destruct g as [j0|].
    + cbn [mbind option_bind] in Hloop.
      destruct (coercibleTypes (fType p) !! j0) as [t|]; [|done].
      cbn [mbind option_bind] in Hloop.
      by destruct (IH _ _ _ _ Hloop) as [? _].
    + split; [done|].
      destruct (args !! i) as [a|] eqn:Ha; [|done].
      cbn [mbind option_bind] in Hloop.
      destruct (firstCoercible a (coercibleTypes (fType p)) 0)
        as [j|] eqn:Hfind.
      * destruct (coercibleTypes (fType p) !! j) as [t|]; [|done].
        cbn [mbind option_bind] in Hloop.
        by destruct (IH _ _ _ _ Hloop) as [? _].
      * exists i, p, a. split; [lia|]. split; [done|]. split; [done|].
        split; [intros k' p' Hk'; lia|]. split; [done|].
        by eapply firstCoercible_None.
  - destruct (IH _ _ _ _ Hloop)
      as (Hg & k & p' & a & Hk & Hp' & Hgen' & Hbefore & Ha & Hnone).
    split; [done|]. exists k, p', a.
    split; [lia|]. split; [done|]. split; [done|]. split; [|done].
    intros k' q Hk' Hq. destruct (decide (k' = i)) as [->|Hne].
    + rewrite Hp in Hq. by injection Hq as <-.
    + apply (Hbefore k' q); [lia|done].
Qed.

(** X21.  [determineFinalTypes] answers [false] in two cases only: the
    argument of the first generic parameter can be coerced to none of that
    parameter's candidate types; or the return type is generic and no
    parameter is.  In both, [outReturnType] is left as it was. *)
Theorem determineFinalTypes_false (this : FunctionDeclaration)
    (arguments outParameterTypes out : list SkSLType)
    (outReturnType ret : SkSLType) :
  determineFinalTypes this arguments outParameterTypes outReturnType
  = Some (false, out, ret) →
  ret = outReturnType ∧
  ((∃ k p a, fParameters this !! k = Some p ∧
      isGeneric (fType p) = true ∧
      (∀ k' p', (k' < k)%nat → fParameters this !! k' = Some p' →
                isGeneric (fType p') = false) ∧
      arguments !! k = Some a ∧
      Forall (λ t, canCoerceTo a t = false) (coercibleTypes (fType p))) ∨
   (isGeneric (fReturnType this) = true ∧
    Forall (λ p, isGeneric (fType p) = false)
           (take (length arguments) (fParameters this)))).
Proof.
  unfold determineFinalTypes. intros Hcall.
  destruct (SkASSERT _) as [[]|]; [|done]. cbn [mbind option_bind] in Hcall.
  destruct (determine_loop _ _ _ _ _ _) as [[out1|g out1]|] eqn:Hloop;
    cbn [mbind option_bind] in Hcall; [| |done].
  - injection Hcall as <- <-. split; [done|]. left.
    destruct (determine_loop_returned _ _ _ _ _ _ _ Hloop)
      as (_ & k & p & a & Hk & Hp & Hgen & Hbefore & Ha & Hnone).
    exists k, p, a. repeat split; try done.
    intros k' p' Hk'. apply Hbefore. lia.
  - destruct (isGeneric (fReturnType this)) eqn:Hret; [|done].
    destruct g as [j|].
    + destruct (coercibleTypes (fReturnType this) !! j); [|done]. done.
    + injection Hcall as <- <-. split; [done|]. right. split; [done|].
      destruct (determine_loop_completed _ _ _ _ _ _ _ _ Hloop)
        as (new & _ & HF & _).
      rewrite drop_0 in HF. clear -HF.
      induction HF as [|p t ps ts Hpt HF IH]; constructor; [|done].
      destruct (isGeneric (fType p)); [|done].
      by destruct Hpt as (j & Hj & _).
Qed.

End FinalTypes.

Example declaration_example :
  @declaration exampleTypes exampleMix = "$genType mix(x, y, a)"%string.
Proof. reflexivity. Qed.

Lemma matches_equivalence_witness :
  (∀ t, @type_ne exampleTypes t t = false) ∧
  (∀ t u, @type_ne exampleTypes t u = @type_ne exampleTypes u t) ∧
  (∀ t u v, @type_ne exampleTypes t u = false →
            @type_ne exampleTypes u v = false →
            @type_ne exampleTypes t v = false) ∧
  @matches exampleTypes exampleDot exampleDot = Some true ∧
  @matches exampleTypes exampleDot exampleMix
  = @matches exampleTypes exampleMix exampleDot.
Proof.
  assert (Hrefl : ∀ t, @type_ne exampleTypes t t = false)
    by (intros t; cbn; by rewrite N.eqb_refl).
  assert (Hsym : ∀ t u, @type_ne exampleTypes t u = @type_ne exampleTypes u t)
    by (intros t u; cbn; by rewrite N.eqb_sym).
  assert (Htrans : ∀ t u v, @type_ne exampleTypes t u = false →
                            @type_ne exampleTypes u v = false →
                            @type_ne exampleTypes t v = false).
  { intros t u v. cbn.
    destruct (N.eqb_spec t u) as [->|]; [|done].
    by destruct (N.eqb_spec u v) as [->|]. }
  do 3 (split; [assumption|]).
  destruct (@matches_equivalence exampleTypes exampleDot exampleMix exampleDot
              Hrefl Hsym Htrans) as (Hr & Hs & _).
  split; [exact Hr|exact Hs].
Defined.

Lemma determineFinalTypes_concrete_witness :
  Forall (λ p, @isGeneric exampleTypes (fType p) = false) (fParameters exampleDot) ∧
  @isGeneric exampleTypes (fReturnType exampleDot) = false ∧
  @determineFinalTypes exampleBuild exampleTypes exampleDot [0; 0] [] 1
  = Some (true, [0; 0], 0).
Proof.
  assert (Hp : Forall (λ p, @isGeneric exampleTypes (fType p) = false)
                      (fParameters exampleDot))
    by (repeat (constructor; [reflexivity|]); constructor).
  assert (Hr : @isGeneric exampleTypes (fReturnType exampleDot) = false)
    by reflexivity.
  do 2 (split; [assumption|]).
  exact (@determineFinalTypes_concrete exampleBuild exampleTypes exampleDot
           [0; 0] [] 1 Hp Hr eq_refl).
Defined.

(** [mix(int, int, float)]: the generic type collapses to [int]. *)
Lemma determineFinalTypes_true_witness :
  @determineFinalTypes exampleBuild exampleTypes exampleMix [1; 1; 0] [] 0
  = Some (true, [1; 1; 0], 1) ∧
  ∃ (new : list (@SkSLType exampleTypes)) (genericIndex : option nat),
    [1; 1; 0] = [] ++ new ∧ length new = 3%nat.
Proof.
  assert (Hcall : @determineFinalTypes exampleBuild exampleTypes exampleMix
                    [1; 1; 0] [] 0 = Some (true, [1; 1; 0], 1))
    by reflexivity.
  split; [exact Hcall|].
  destruct (@determineFinalTypes_true exampleBuild exampleTypes exampleMix
              [1; 1; 0] [] [1; 1; 0] 0 1 Hcall)
    as (new & g & Hout & Hlen & _).
  exists new, g. split; [exact Hout|exact Hlen].
Defined.

(** [mix(bool, ...)]: type 5 coerces to no candidate of [$genType]. *)
Lemma determineFinalTypes_false_witness :
  @determineFinalTypes exampleBuild exampleTypes exampleMix [5; 5; 0] [] 0
  = Some (false, [], 0) ∧ (0 : @SkSLType exampleTypes) = 0.
Proof.
  assert (Hcall : @determineFinalTypes exampleBuild exampleTypes exampleMix
                    [5; 5; 0] [] 0 = Some (false, [], 0))
    by reflexivity.
  split; [exact Hcall|].
  destruct (@determineFinalTypes_false exampleBuild exampleTypes exampleMix
              [5; 5; 0] [] [] 0 0 Hcall) as (Hret & _).
  exact Hret.
Defined.
